(** * A segmented LRU cache (package slru): model and verification

    The Go source keeps a lookup map from keys to list elements and two
    recency lists, [probation] and [protected].  Elements and entries are
    heap objects reached through pointers, and the cache mutates them in
    place, so the model is a store of objects addressed by pointers and a
    small state-and-fault monad over it. *)

From Stdlib Require Import ZArith Lia SpecFloat.
From stdpp Require Import base option list gmap.

(** ** Machine integers and float64 *)

Module Num.

Local Open Scope Z_scope.

(** Go's [int] on a 64-bit target: two's complement wrap-around. *)
Definition min_int : Z := - 2 ^ 63.
Definition max_int : Z := 2 ^ 63 - 1.
Definition wrap (z : Z) : Z := (z + 2 ^ 63) mod 2 ^ 64 - 2 ^ 63.

(** binary64: 53 bits of precision, infinities at exponent 1024. *)
Definition prec : Z := 53.
Definition emax : Z := 1024.

(** [float64(n)] for an [int] n: round to nearest, ties to even. *)
Definition float64_of_int (n : Z) : spec_float :=
  binary_normalize prec emax n 0 false.

(** [int(f)] for a [float64] f: the fraction is discarded (truncation
    towards zero).  A value outside [int] is implementation-dependent in
    Go; amd64 yields the smallest [int]. *)
Definition int_of_float64 (f : spec_float) : Z :=
  match f with
  | S754_zero _ => 0
  | S754_finite s m e =>
      let a := match e with
               | Zneg p => Z.shiftr (Zpos m) (Zpos p)
               | _ => Z.shiftl (Zpos m) e
               end in
      let z := if s then - a else a in
      if (min_int <=? z) && (z <=? max_int) then z else min_int
  | _ => min_int
  end.

Definition float64_mul (x y : spec_float) : spec_float := SFmul prec emax x y.

(** The untyped constant [0.2] converted to float64: the binary64 nearest
    to 1/5, which is what the correctly rounded quotient 1/5 computes. *)
Definition DefaultProbationRatio : spec_float :=
  Eval vm_compute in SFdiv prec emax (float64_of_int 1) (float64_of_int 5).

(** [int(DefaultProbationRatio * float64(size))], the expression [New]
    evaluates for the capacity of the probation segment. *)
Definition probation_share (size : Z) : Z :=
  int_of_float64 (float64_mul DefaultProbationRatio (float64_of_int size)).

(** The capacity the specification states, [floor(0.2 × size)], over the
    integers (0.2 is 2/10). *)
Definition spec_probationCapacity (size : Z) : Z := 2 * size / 10.

End Num.

(** ** The store *)

(** Pointers are addresses; [nil] is [None] where a pointer may be nil. *)
Abbreviation ptr := nat (only parsing).

Inductive fault : Type :=
  | NilDeref   (** a field of a nil pointer is read: Go panics *)
  | Dangling.  (** an address the store does not hold: never arises in Go *)

(** The outcome of a call: a result and the store it leaves, or a fault. *)
Inductive res (S A : Type) : Type :=
  | Ok (a : A) (σ : S)
  | Fault (f : fault).
Arguments Ok {S A} a σ.
Arguments Fault {S A} f.

(** Modelled from the spec: an element of package list, with its
    payload (here always a pointer to an entry) and the list that
    currently contains it, nil when it is in none. *)
Record Element : Type := Elem { Value : ptr; List : option ptr }.

Section cache.

Context {K : Type} `{Countable K} {V : Type}.

(** The zero value of the value type [V]. *)
Variable zeroV : V.

(** entry holds the key and value of a cache entry. *)
Record entry : Type := Entry { key : K; value : V }.

(** The fields of the cache.  Its [lock] is left out: every method holds
    it from entry to return ([Set], [Get] and [Purge] exclusively), so
    calls never interleave and the model runs one call at a time. *)
Record SLRU : Type := Cache {
  size : Z;
  items : gmap K ptr;
  probation : ptr;
  protected : ptr;
  probationSize : Z;
  protectedSize : Z
}.

(** The heap of entries, elements and lists, the allocator's next free
    address, and the fields of the cache object under study.  A list
    object is the sequence of its elements' addresses, front first. *)
Record Store : Type := MkStore {
  entries_of : gmap ptr entry;
  elements_of : gmap ptr Element;
  lists_of : gmap ptr (list ptr);
  next_ptr : ptr;
  cache : SLRU
}.

Definition M (A : Type) : Type := Store → res Store A.

Definition ret {A} (a : A) : M A := λ σ, Ok a σ.
Definition bind {A B} (m : M A) (k : A → M B) : M B :=
  λ σ, match m σ with Ok a σ' => k a σ' | Fault f => Fault f end.
Definition raise {A} (f : fault) : M A := λ _, Fault f.

Notation "'let*' x := m 'in' k" := (bind m (λ x, k))
  (at level 10, x name, m at level 100, k at level 200, only parsing).
Notation "m ;;; k" := (bind m (λ _, k))
  (at level 100, k at level 200, right associativity, only parsing).

(** *** Loads, stores and allocation *)

Definition load_entry (p : ptr) : M entry :=
  λ σ, match entries_of σ !! p with Some x => Ok x σ | None => Fault Dangling end.

Definition store_entry (p : ptr) (x : entry) : M unit :=
  λ σ, Ok tt (MkStore (<[p := x]> (entries_of σ)) (elements_of σ) (lists_of σ)
                      (next_ptr σ) (cache σ)).

Definition alloc_entry (x : entry) : M ptr :=
  λ σ, Ok (next_ptr σ)
          (MkStore (<[next_ptr σ := x]> (entries_of σ)) (elements_of σ) (lists_of σ)
                   (S (next_ptr σ)) (cache σ)).

Definition load_elem (e : ptr) : M Element :=
  λ σ, match elements_of σ !! e with Some x => Ok x σ | None => Fault Dangling end.

Definition store_elem (e : ptr) (x : Element) : M unit :=
  λ σ, Ok tt (MkStore (entries_of σ) (<[e := x]> (elements_of σ)) (lists_of σ)
                      (next_ptr σ) (cache σ)).

Definition alloc_elem (x : Element) : M ptr :=
  λ σ, Ok (next_ptr σ)
          (MkStore (entries_of σ) (<[next_ptr σ := x]> (elements_of σ)) (lists_of σ)
                   (S (next_ptr σ)) (cache σ)).

Definition load_list (l : ptr) : M (list ptr) :=
  λ σ, match lists_of σ !! l with Some x => Ok x σ | None => Fault Dangling end.

Definition store_list (l : ptr) (xs : list ptr) : M unit :=
  λ σ, Ok tt (MkStore (entries_of σ) (elements_of σ) (<[l := xs]> (lists_of σ))
                      (next_ptr σ) (cache σ)).

Definition alloc_list (xs : list ptr) : M ptr :=
  λ σ, Ok (next_ptr σ)
          (MkStore (entries_of σ) (elements_of σ) (<[next_ptr σ := xs]> (lists_of σ))
                   (S (next_ptr σ)) (cache σ)).

Definition get_cache : M SLRU := λ σ, Ok (cache σ) σ.

Definition put_cache (s : SLRU) : M unit :=
  λ σ, Ok tt (MkStore (entries_of σ) (elements_of σ) (lists_of σ) (next_ptr σ) s).

(** [s.items[k] = e] *)
Definition set_items (k : K) (e : ptr) : M unit :=
  let* s := get_cache in
  put_cache (Cache (size s) (<[k := e]> (items s)) (probation s) (protected s)
                   (probationSize s) (protectedSize s)).

(** [delete(s.items, k)] *)
Definition delete_items (k : K) : M unit :=
  let* s := get_cache in
  put_cache (Cache (size s) (delete k (items s)) (probation s) (protected s)
                   (probationSize s) (protectedSize s)).

(** *** Package list

    The package is imported by the cache but its file is not part of the
    sources at hand; its operations follow the specification's ordered
    list. *)

(** Modelled from the spec: [list.New()], an empty ordered list. *)
Definition list_New : M ptr := alloc_list [].

(** Modelled from the spec: [pushFront(value) -> Element] inserts at the
    front and returns the new element, which knows the list holding it. *)
Definition list_PushFront (l : ptr) (v : ptr) : M ptr :=
  let* xs := load_list l in
  let* e := alloc_elem (Elem v (Some l)) in
  store_list l (e :: xs) ;;;
  ret e.

(** Modelled from the spec: [moveToFront(element)] relocates an existing
    element of the list to its front; nothing is allocated. *)
Definition list_MoveToFront (l : ptr) (e : ptr) : M unit :=
  let* x := load_elem e in
  if decide (List x = Some l) then
    let* xs := load_list l in
    store_list l (e :: filter (λ y, y ≠ e) xs)
  else ret tt.

(** Modelled from the spec: [remove(element)] detaches the element from
    whichever list currently holds it; afterwards no list contains it. *)
Definition list_Remove (l : ptr) (e : ptr) : M unit :=
  let* x := load_elem e in
  match List x with
  | Some l' =>
      let* xs := load_list l' in
      store_list l' (filter (λ y, y ≠ e) xs) ;;;
      store_elem e (Elem (Value x) None)
  | None => ret tt
  end.

(** Modelled from the spec: [back() -> Element] returns, without removing
    it, the least recently used element, and nil when the list is empty. *)
Definition list_Back (l : ptr) : M (option ptr) :=
  let* xs := load_list l in
  ret (last xs).

(** Modelled from the spec: [length() -> int]. *)
Definition list_Len (l : ptr) : M Z :=
  let* xs := load_list l in
  ret (Z.of_nat (length xs)).

(** Modelled from the spec: each element knows which list currently
    contains it (or none); this is [e.List()]. *)
Definition elem_List (e : ptr) : M (option ptr) :=
  let* x := load_elem e in
  ret (List x).

(** [e.Value], the pointer to the entry. *)
Definition elem_Value (e : ptr) : M ptr :=
  let* x := load_elem e in
  ret (Value x).

(** *** The cache *)

Definition empty_store : Store :=
  MkStore ∅ ∅ ∅ 0 (Cache 0 ∅ 0 0 0 0).

Definition New (size : Z) : M unit :=
  let* pb := list_New in
  let* pt := list_New in
  put_cache (Cache size ∅ pb pt (Num.probation_share size)
                   (Num.wrap (size - Num.probation_share size))).

Definition evict (l : ptr) : M unit :=
  let* o := list_Back l in
  match o with
  | None => raise NilDeref
  | Some o =>
      let* p := elem_Value o in
      let* en := load_entry p in
      delete_items (key en) ;;;
      list_Remove l o
  end.

Definition Set' (k : K) (v : V) : M unit :=
  let* s := get_cache in
  match items s !! k with
  | Some e =>
      let* l := elem_List e in
      (if decide (l = Some (protected s))
       then list_MoveToFront (protected s) e else ret tt) ;;;
      let* l := elem_List e in
      (if decide (l = Some (probation s))
       then
         let* p := elem_Value e in
         let* en := load_entry p in
         let* e' := list_PushFront (protected s) p in
         set_items (key en) e' ;;;
         list_Remove (probation s) e ;;;
         let* n := list_Len (protected s) in
         if (protectedSize s <? n)%Z then evict (protected s) else ret tt
       else ret tt) ;;;
      let* p := elem_Value e in
      let* en := load_entry p in
      store_entry p (Entry (key en) v)
  | None =>
      let* n := list_Len (probation s) in
      (if (probationSize s <=? n)%Z then evict (probation s) else ret tt) ;;;
      let* p := alloc_entry (Entry k v) in
      let* e := list_PushFront (probation s) p in
      set_items k e
  end.

Definition Get (k : K) : M (V * bool) :=
  let* s := get_cache in
  match items s !! k with
  | Some e =>
      let* l := elem_List e in
      (if decide (l = Some (protected s))
       then list_MoveToFront (protected s) e else ret tt) ;;;
      let* l := elem_List e in
      (if decide (l = Some (probation s))
       then
         let* p := elem_Value e in
         let* en := load_entry p in
         let* e' := list_PushFront (protected s) p in
         set_items (key en) e' ;;;
         list_Remove (probation s) e ;;;
         let* n := list_Len (protected s) in
         if (protectedSize s <? n)%Z then evict (protected s) else ret tt
       else ret tt) ;;;
      let* p := elem_Value e in
      let* en := load_entry p in
      ret (value en, true)
  | None => ret (zeroV, false)
  end.

Definition Contains (k : K) : M bool :=
  let* s := get_cache in
  match items s !! k with
  | Some _ => ret true
  | None => ret false
  end.

Definition Peek (k : K) : M (V * bool) :=
  let* s := get_cache in
  match items s !! k with
  | Some e =>
      let* p := elem_Value e in
      let* en := load_entry p in
      ret (value en, true)
  | None => ret (zeroV, false)
  end.

(** The two lengths count live elements, far below the range of [int]. *)
Definition Len : M Z :=
  let* s := get_cache in
  let* n1 := list_Len (probation s) in
  let* n2 := list_Len (protected s) in
  ret (n1 + n2)%Z.

Definition Purge : M unit :=
  let* s := get_cache in
  let* pb := list_New in
  let* pt := list_New in
  put_cache (Cache (size s) ∅ pb pt (probationSize s) (protectedSize s)).

(** ** Observations and the abstract view of a store *)

(** The entry an element points to. *)
Definition entry_at (σ : Store) (e : ptr) : option entry :=
  match elements_of σ !! e with
  | Some x => entries_of σ !! Value x
  | None => None
  end.

(** The entries of a list object, front (most recent) first. *)
Definition segment (σ : Store) (l : ptr) : list entry :=
  match lists_of σ !! l with
  | Some xs => omap (entry_at σ) xs
  | None => []
  end.

Definition probation_entries (σ : Store) : list entry :=
  segment σ (probation (cache σ)).
Definition protected_entries (σ : Store) : list entry :=
  segment σ (protected (cache σ)).
Definition probation_keys (σ : Store) : list K := key <$> probation_entries σ.
Definition protected_keys (σ : Store) : list K := key <$> protected_entries σ.

(** Element [e] of list [l] carries entry [x], and the lookup map sends
    the key of [x] to [e]. *)
Definition rep (σ : Store) (l : ptr) (e : ptr) (x : entry) : Prop :=
  ∃ p, elements_of σ !! e = Some (Elem p (Some l)) ∧
       entries_of σ !! p = Some x ∧
       items (cache σ) !! key x = Some e.

(** The store holds two distinct lists [l1] and [l2] whose elements carry
    the entries [xs1] and [xs2], the lookup map indexes exactly these
    elements by key, and nothing lives at or above the next free address. *)
Record models (σ : Store) (l1 l2 : ptr) (xs1 xs2 : list entry) : Prop := {
  md_lists : l1 ≠ l2;
  md_fst : ∃ ps, lists_of σ !! l1 = Some ps ∧ Forall2 (rep σ l1) ps xs1;
  md_snd : ∃ qs, lists_of σ !! l2 = Some qs ∧ Forall2 (rep σ l2) qs xs2;
  md_keys : NoDup (key <$> (xs1 ++ xs2));
  md_items : ∀ k e, items (cache σ) !! k = Some e → k ∈ key <$> (xs1 ++ xs2);
  md_next :
    ∀ p, next_ptr σ ≤ p →
         entries_of σ !! p = None ∧ elements_of σ !! p = None ∧
         lists_of σ !! p = None
}.

(** The store represents a cache whose probation segment holds [pb] and
    whose protected segment holds [pt]. *)
Definition represents (σ : Store) (pb pt : list entry) : Prop :=
  models σ (probation (cache σ)) (protected (cache σ)) pb pt.

(** The fields of the cache object that only [New] sets. *)
Definition same_config (σ σ' : Store) : Prop :=
  size (cache σ') = size (cache σ) ∧
  probation (cache σ') = probation (cache σ) ∧
  protected (cache σ') = protected (cache σ) ∧
  probationSize (cache σ') = probationSize (cache σ) ∧
  protectedSize (cache σ') = protectedSize (cache σ).

(** Pure counterparts of the list manipulations, on entries. *)
Definition without (k : K) (xs : list entry) : list entry :=
  filter (λ x, key x ≠ k) xs.

Definition overwrite (k : K) (v : V) (xs : list entry) : list entry :=
  (λ x, if decide (key x = k) then Entry k v else x) <$> xs.

Definition find_key (k : K) (xs : list entry) : option entry :=
  head (filter (λ x, key x = k) xs).

Definition drop_back (xs : list entry) : list entry :=
  match last xs with
  | Some x => without (key x) xs
  | None => xs
  end.

(** An access to key [k]: refresh within protected, or promotion out of
    probation followed by the eviction that keeps protected within [cap]. *)
Definition touch (cap : Z) (k : K) (pb pt : list entry) : list entry * list entry :=
  match find_key k pt with
  | Some x => (pb, x :: without k pt)
  | None =>
      match find_key k pb with
      | Some x =>
          (without k pb,
           if (cap <? Z.of_nat (length (x :: pt)))%Z
           then drop_back (x :: pt) else x :: pt)
      | None => (pb, pt)
      end
  end.

(** The statements the hit paths of [Set] and [Get] share word for word
    (refresh within protected, promotion out of probation), followed by
    the rest of the method. *)
Definition access_then {A} (s : SLRU) (e : ptr) (rest : M A) : M A :=
  let* l := elem_List e in
  (if decide (l = Some (protected s))
   then list_MoveToFront (protected s) e else ret tt) ;;;
  let* l := elem_List e in
  (if decide (l = Some (probation s))
   then
     let* p := elem_Value e in
     let* en := load_entry p in
     let* e' := list_PushFront (protected s) p in
     set_items (key en) e' ;;;
     list_Remove (probation s) e ;;;
     let* n := list_Len (protected s) in
     if (protectedSize s <? n)%Z then evict (protected s) else ret tt
   else ret tt) ;;;
  rest.

(** Admission of a new key: make room in probation, then push. *)
Definition admission (cap : Z) (k : K) (v : V) (pb : list entry) : option (list entry) :=
  if (cap <=? Z.of_nat (length pb))%Z
  then match last pb with
       | Some _ => Some (Entry k v :: drop_back pb)
       | None => None
       end
  else Some (Entry k v :: pb).

(** The states a cache built by [New size] can be in; [size] is an [int]. *)
Inductive reachable (size : Z) : Store → Prop :=
  | reach_New σ :
      (Num.min_int ≤ size ≤ Num.max_int)%Z →
      New size empty_store = Ok tt σ → reachable size σ
  | reach_Set σ k v σ' :
      reachable size σ → Set' k v σ = Ok tt σ' → reachable size σ'
  | reach_Get σ k r σ' :
      reachable size σ → Get k σ = Ok r σ' → reachable size σ'
  | reach_Peek σ k r σ' :
      reachable size σ → Peek k σ = Ok r σ' → reachable size σ'
  | reach_Contains σ k r σ' :
      reachable size σ → Contains k σ = Ok r σ' → reachable size σ'
  | reach_Len σ r σ' :
      reachable size σ → Len σ = Ok r σ' → reachable size σ'
  | reach_Purge σ σ' :
      reachable size σ → Purge σ = Ok tt σ' → reachable size σ'.

(** What holds in every state of a cache built by [New size]: the store
    represents its two segments, the capacities are the ones [New]
    computed, and neither segment exceeds its capacity. *)
Definition inv (size : Z) (σ : Store) : Prop :=
  represents σ (probation_entries σ) (protected_entries σ) ∧
  probationSize (cache σ) = Num.probation_share size ∧
  protectedSize (cache σ) = Num.wrap (size - Num.probation_share size) ∧
  (Z.of_nat (length (probation_entries σ)) ≤ Z.max 0 (probationSize (cache σ)))%Z ∧
  (Z.of_nat (length (protected_entries σ)) ≤ Z.max 0 (protectedSize (cache σ)))%Z.

(** Read-only calls, for runs of [Peek] and [Contains]. *)
Inductive query : Type :=
  | QPeek (k : K)
  | QContains (k : K).

Fixpoint queries (qs : list query) : M unit :=
  match qs with
  | [] => ret tt
  | QPeek k :: qs => Peek k ;;; queries qs
  | QContains k :: qs => Contains k ;;; queries qs
  end.

(** Calls of the mutating methods, for runs a caller issues in turn. *)
Inductive call : Type :=
  | CSet (k : K) (v : V)
  | CGet (k : K)
  | CPurge.

Fixpoint calls (cs : list call) : M unit :=
  match cs with
  | [] => ret tt
  | CSet k v :: cs => Set' k v ;;; calls cs
  | CGet k :: cs => Get k ;;; calls cs
  | CPurge :: cs => Purge ;;; calls cs
  end.

(** A run of [Set] calls, as a caller issues them one after the other. *)
Fixpoint Sets (kvs : list (K * V)) : M unit :=
  match kvs with
  | [] => ret tt
  | (k, v) :: kvs => Set' k v ;;; Sets kvs
  end.

End cache.

Notation "'let*' x := m 'in' k" := (bind m (λ x, k))
  (at level 10, x name, m at level 100, k at level 200, only parsing).
Notation "m ;;; k" := (bind m (λ _, k))
  (at level 100, k at level 200, right associativity, only parsing).

(** ** Verification *)

(** *** float64 arithmetic of [New]

    [SpecFloat] rounds a mantissa by shifting it right bit by bit; the
    lemmas below read those shifts as integer divisions, enough to bound
    [int(DefaultProbationRatio * float64(size))] for every size an [int]
    holds and to compute it exactly below 2^52. *)

Section float64.

Local Open Scope Z_scope.

Lemma digits2_bounds (m : positive) :
  2 ^ (Zpos (digits2_pos m) - 1) <= Zpos m < 2 ^ Zpos (digits2_pos m).
Proof.
  induction m as [m IH|m IH|]; cbn [digits2_pos].
  - rewrite Pos2Z.inj_succ, (Pos2Z.inj_xI m).
    replace (Z.succ (Zpos (digits2_pos m)) - 1) with (Z.succ (Zpos (digits2_pos m) - 1)) by lia.
    rewrite !Z.pow_succ_r by lia. lia.
  - rewrite Pos2Z.inj_succ, (Pos2Z.inj_xO m).
    replace (Z.succ (Zpos (digits2_pos m)) - 1) with (Z.succ (Zpos (digits2_pos m) - 1)) by lia.
    rewrite !Z.pow_succ_r by lia. lia.
  - cbn. lia.
Qed.

Lemma digits2_unique (m : positive) (d : Z) :
  2 ^ (d - 1) <= Zpos m < 2 ^ d -> Zpos (digits2_pos m) = d.
Proof.
  intros [Hlo Hhi]. pose proof (digits2_bounds m) as [Hlo' Hhi'].
  set (D := Zpos (digits2_pos m)) in *.
  assert (0 < D) by (subst D; lia).
  assert (0 < d).
  { destruct (Z_lt_le_dec 0 d) as [|Hd]; [done|].
    destruct (Z.eq_dec d 0) as [->|]; [cbn in Hhi; lia|].
    rewrite (Z.pow_neg_r 2 d) in Hhi by lia. lia. }
  destruct (Z_lt_le_dec D d) as [Hlt|Hge].
  - assert (2 ^ D <= 2 ^ (d - 1)) by (apply Z.pow_le_mono_r; lia). lia.
  - destruct (Z_lt_le_dec d D) as [Hlt|Hge']; [|lia].
    assert (2 ^ d <= 2 ^ (D - 1)) by (apply Z.pow_le_mono_r; lia). lia.
Qed.

Lemma shr_1_m mrs : 0 <= shr_m mrs -> shr_m (shr_1 mrs) = shr_m mrs / 2.
Proof.
  destruct mrs as [m r s]. cbn [shr_m]. intros Hm.
  destruct m as [|[p|p|]|p]; cbn [shr_1 shr_m]; [done| | |done|lia].
  - rewrite (Pos2Z.inj_xI p). apply Z.div_unique with 1; lia.
  - rewrite (Pos2Z.inj_xO p). apply Z.div_unique with 0; lia.
Qed.

Lemma iter_pos_shr_m (k : positive) mrs :
  0 <= shr_m mrs -> shr_m (SpecFloat.iter_pos shr_1 k mrs) = shr_m mrs / 2 ^ Zpos k.
Proof.
  revert mrs. induction k as [k IH|k IH|]; intros mrs Hm; cbn [SpecFloat.iter_pos].
  - assert (0 <= shr_m (shr_1 mrs)) as H1 by (rewrite shr_1_m by done; apply Z.div_pos; lia).
    assert (0 <= shr_m (SpecFloat.iter_pos shr_1 k (shr_1 mrs))) as H2
      by (rewrite IH by done; apply Z.div_pos; lia).
    rewrite IH, IH, shr_1_m by done.
    rewrite !Z.div_div by lia. f_equal.
    rewrite (Pos2Z.inj_xI k), Z.pow_add_r, Z.pow_mul_r by lia.
    change (2 ^ 2) with 4. change (2 ^ 1) with 2.
    replace 4 with (2 * 2) by lia. rewrite Z.pow_mul_l. lia.
  - assert (0 <= shr_m (SpecFloat.iter_pos shr_1 k mrs)) as H2
      by (rewrite IH by done; apply Z.div_pos; lia).
    rewrite IH, IH by done. rewrite !Z.div_div by lia. f_equal.
    rewrite (Pos2Z.inj_xO k), Z.pow_mul_r by lia.
    change (2 ^ 2) with 4. replace 4 with (2 * 2) by lia. rewrite Z.pow_mul_l. lia.
  - rewrite shr_1_m by done. reflexivity.
Qed.

Lemma round_nearest_even_cases m l :
  round_nearest_even m l = m \/ round_nearest_even m l = m + 1.
Proof.
  destruct l as [|[]]; cbn; auto. destruct (Z.even m); auto.
Qed.

Lemma round_aux_spec (sx : bool) (M : positive) (E : Z) :
  53 <= Zpos (digits2_pos M) ->
  -1074 <= E + (Zpos (digits2_pos M) - 53) ->
  E + (Zpos (digits2_pos M) - 53) + 1 <= 971 ->
  exists (m2 : positive) (e2 : Z),
    binary_round_aux Num.prec Num.emax sx (Zpos M) E loc_Exact = S754_finite sx m2 e2 /\
    E + (Zpos (digits2_pos M) - 53) <= e2 <= E + (Zpos (digits2_pos M) - 53) + 1 /\
    2 ^ 52 <= Zpos m2 < 2 ^ 53 /\
    (Zpos m2 = Zpos M / 2 ^ (e2 - E) \/ Zpos m2 = Zpos M / 2 ^ (e2 - E) + 1) /\
    (Zpos (digits2_pos M) = 53 -> e2 = E /\ m2 = M).
Proof.
  intros HD Hlo Hhi. pose proof (digits2_bounds M) as HM.
  unfold binary_round_aux, shr_fexp, fexp, emin, Num.prec, Num.emax.
  cbn [Zdigits2].
  set (D := Zpos (digits2_pos M)) in *.
  replace (Z.max (D + E - 53) (3 - 1024 - 53) - E) with (D - 53) by lia.
  destruct (D - 53) as [|p|p] eqn:Hs; [| |lia].
  - (* the mantissa already has 53 bits *)
    cbn [shr shr_record_of_loc shr_m loc_of_shr_record round_nearest_even Zdigits2].
    fold D. replace (Z.max (D + E - 53) (3 - 1024 - 53) - E) with 0 by lia.
    cbn [shr shr_record_of_loc shr_m].
    replace (E <=? 1024 - 53) with true by (symmetry; apply Z.leb_le; lia).
    exists M, E. replace (E - E) with 0 by lia. rewrite Z.pow_0_r, Z.div_1_r.
    assert (D = 53) as HD53 by lia. rewrite HD53 in HM.
    replace (53 - 1) with 52 in HM by lia. repeat split; auto; lia.
  - (* the mantissa is shifted right by p bits, then rounded *)
    cbn [shr shr_record_of_loc].
    set (mrs := SpecFloat.iter_pos shr_1 p (Build_shr_record (Zpos M) false false)).
    assert (shr_m mrs = Zpos M / 2 ^ Zpos p) as Hq
      by (subst mrs; rewrite iter_pos_shr_m; cbn [shr_m]; [done|lia]).
    assert (0 < 2 ^ Zpos p) as Hpow by (apply Z.pow_pos_nonneg; lia).
    assert (2 ^ 52 <= shr_m mrs < 2 ^ 53) as Hqb.
    { rewrite Hq. replace D with (53 + Zpos p) in HM by lia.
      replace (53 + Zpos p - 1) with (52 + Zpos p) in HM by lia.
      rewrite !Z.pow_add_r in HM by lia. split.
      - apply Z.div_le_lower_bound; lia.
      - apply Z.div_lt_upper_bound; lia. }
    destruct (round_nearest_even_cases (shr_m mrs) (loc_of_shr_record mrs)) as [Hr|Hr];
      rewrite Hr.
    + destruct (shr_m mrs) as [|q|q] eqn:Hqm; [lia| |lia].
      cbn [Zdigits2]. rewrite (digits2_unique q 53) by (replace (53 - 1) with 52 by lia; lia).
      replace (Z.max (53 + (E + Zpos p) - 53) (3 - 1024 - 53) - (E + Zpos p)) with 0 by lia.
      cbn [shr shr_record_of_loc shr_m].
      replace (E + Zpos p <=? 1024 - 53) with true by (symmetry; apply Z.leb_le; lia).
      exists q, (E + Zpos p). replace (E + Zpos p - E) with (Zpos p) by lia.
      repeat split; auto; lia.
    + destruct (Z.eq_dec (shr_m mrs + 1) (2 ^ 53)) as [Hc|Hc].
      * rewrite Hc. change (2 ^ 53) with (Zpos (2 ^ 53)%positive). cbn [Zdigits2].
        rewrite (digits2_unique (2 ^ 53)%positive 54) by (cbn; lia).
        replace (Z.max (54 + (E + Zpos p) - 53) (3 - 1024 - 53) - (E + Zpos p)) with 1 by lia.
        cbn [shr shr_record_of_loc SpecFloat.iter_pos].
        change (shr_m (shr_1 {| shr_m := Zpos (2 ^ 53)%positive; shr_r := false; shr_s := false |}))
          with (Zpos (2 ^ 52)%positive).
        replace (E + Zpos p + 1 <=? 1024 - 53) with true by (symmetry; apply Z.leb_le; lia).
        exists (2 ^ 52)%positive, (E + Zpos p + 1).
        replace (E + Zpos p + 1 - E) with (Zpos p + 1) by lia.
        rewrite Z.pow_add_r, <- Z.div_div, <- Hq by lia.
        replace (shr_m mrs) with (2 ^ 53 - 1) by lia.
        repeat split; try lia. right. reflexivity.
      * destruct (shr_m mrs + 1) as [|q|q] eqn:Hqm; [lia| |lia].
        cbn [Zdigits2].
        rewrite (digits2_unique q 53) by (replace (53 - 1) with 52 by lia; lia).
        replace (Z.max (53 + (E + Zpos p) - 53) (3 - 1024 - 53) - (E + Zpos p)) with 0 by lia.
        cbn [shr shr_record_of_loc shr_m].
        replace (E + Zpos p <=? 1024 - 53) with true by (symmetry; apply Z.leb_le; lia).
        exists q, (E + Zpos p). replace (E + Zpos p - E) with (Zpos p) by lia.
        repeat split; auto; lia.
Qed.

Lemma pow2_digits_le (m : positive) (d : Z) :
  0 <= d -> Zpos m < 2 ^ d -> Zpos (digits2_pos m) <= d.
Proof.
  intros Hd Hm. pose proof (digits2_bounds m) as [Hlo _].
  destruct (Z_lt_le_dec d (Zpos (digits2_pos m))) as [Hlt|]; [|done].
  assert (2 ^ d <= 2 ^ (Zpos (digits2_pos m) - 1)) by (apply Z.pow_le_mono_r; lia).
  lia.
Qed.

Lemma pow2_digits_ge (m : positive) (d : Z) :
  2 ^ d <= Zpos m -> d < Zpos (digits2_pos m).
Proof.
  intros Hm. pose proof (digits2_bounds m) as [_ Hhi].
  destruct (Z_lt_le_dec d (Zpos (digits2_pos m))) as [|Hle]; [done|].
  assert (2 ^ Zpos (digits2_pos m) <= 2 ^ d) by (apply Z.pow_le_mono_r; lia).
  lia.
Qed.

Lemma iter_xO (m k : positive) : Zpos (Pos.iter xO m k) = Zpos m * 2 ^ Zpos k.
Proof.
  induction k as [|k IH] using Pos.peano_ind.
  - cbn [Pos.iter]. rewrite (Pos2Z.inj_xO m). change (2 ^ 1) with 2. lia.
  - rewrite Pos.iter_succ, (Pos2Z.inj_xO (Pos.iter xO m k)), IH, Pos2Z.inj_succ.
    rewrite Z.pow_succ_r by lia. lia.
Qed.

(** [float64(n)] is exact below 2^53. *)
Lemma float64_of_int_small (n : Z) :
  0 < n < 2 ^ 53 ->
  exists (m : positive) (w : Z),
    Num.float64_of_int n = S754_finite false m (- w) /\
    0 <= w <= 52 /\ 2 ^ 52 <= Zpos m < 2 ^ 53 /\ Zpos m = n * 2 ^ w.
Proof.
  intros [Hn0 Hn]. destruct n as [|n|n]; [lia| |lia].
  unfold Num.float64_of_int, binary_normalize, binary_round, fexp, emin,
    Num.prec, Num.emax.
  pose proof (digits2_bounds n) as HD.
  assert (Zpos (digits2_pos n) <= 53) as HD53 by (apply pow2_digits_le; lia).
  set (D := Zpos (digits2_pos n)) in *.
  replace (Z.max (D + 0 - 53) (3 - 1024 - 53)) with (D - 53) by lia.
  unfold shl_align. replace (D - 53 - 0) with (D - 53) by lia.
  destruct (D - 53) as [|p|p] eqn:Hs; [|lia|].
  - destruct (round_aux_spec false n 0) as (m2 & e2 & Hr & _ & _ & _ & Hex);
      fold D; try lia.
    destruct Hex as [-> ->]; [lia|].
    exists n, 0. unfold Num.prec, Num.emax in Hr. rewrite Hr. replace (53 - 1) with 52 in * by lia.
    assert (D = 53) as HDe by lia. rewrite HDe in HD.
    replace (53 - 1) with 52 in HD by lia.
    change (- 0) with 0. rewrite Z.pow_0_r. repeat split; lia.
  - assert (2 ^ 52 <= Zpos (Pos.iter xO n p) < 2 ^ 53) as Hb.
    { rewrite iter_xO.
      assert (2 ^ 52 = 2 ^ (D - 1) * 2 ^ Zpos p) as ->
        by (rewrite <- Z.pow_add_r by lia; f_equal; lia).
      assert (2 ^ 53 = 2 ^ D * 2 ^ Zpos p) as ->
        by (rewrite <- Z.pow_add_r by lia; f_equal; lia).
      assert (0 < 2 ^ Zpos p) by (apply Z.pow_pos_nonneg; lia).
      split; [apply Z.mul_le_mono_nonneg_r|apply Z.mul_lt_mono_pos_r]; lia. }
    assert (Zpos (digits2_pos (Pos.iter xO n p)) = 53) as Hd
      by (apply digits2_unique; replace (53 - 1) with 52 by lia; done).
    destruct (round_aux_spec false (Pos.iter xO n p) (Zneg p))
      as (m2 & e2 & Hr & _ & _ & _ & Hex); rewrite ?Hd; try lia.
    destruct Hex as [-> ->]; [done|].
    exists (Pos.iter xO n p), (Zpos p). unfold Num.prec, Num.emax in Hr. rewrite Hr.
    repeat split; try lia. apply iter_xO.
Qed.

(** [float64(n)] from 2^53 on keeps the 53 leading bits, rounded. *)
Lemma float64_of_int_big (n : Z) :
  2 ^ 53 <= n < 2 ^ 63 ->
  exists (m : positive) (e : Z),
    Num.float64_of_int n = S754_finite false m e /\
    1 <= e <= 11 /\ 2 ^ 52 <= Zpos m < 2 ^ 53 /\
    (Zpos m = n / 2 ^ e \/ Zpos m = n / 2 ^ e + 1).
Proof.
  intros [Hn0 Hn]. destruct n as [|n|n]; [lia| |lia].
  unfold Num.float64_of_int, binary_normalize, binary_round, fexp, emin,
    Num.prec, Num.emax.
  assert (53 < Zpos (digits2_pos n)) as HD53 by (by apply pow2_digits_ge).
  assert (Zpos (digits2_pos n) <= 63) as HD63 by (apply pow2_digits_le; lia).
  set (D := Zpos (digits2_pos n)) in *.
  replace (Z.max (D + 0 - 53) (3 - 1024 - 53)) with (D - 53) by lia.
  unfold shl_align. replace (D - 53 - 0) with (D - 53) by lia.
  destruct (D - 53) as [|p|p] eqn:Hs; [lia| |lia].
  destruct (round_aux_spec false n 0) as (m2 & e2 & Hr & He & Hm & Hc & _);
    fold D; try lia.
  exists m2, e2. unfold Num.prec, Num.emax in Hr. rewrite Hr. replace (e2 - 0) with e2 in Hc by lia.
  repeat split; try lia; try done.
Qed.

Lemma ratio_eq : Num.DefaultProbationRatio = S754_finite false 7205759403792794 (-55).
Proof. reflexivity. Qed.

(** The product [DefaultProbationRatio * f] for a normal, positive f. *)
Lemma mul_ratio_spec (mn : positive) (en : Z) :
  2 ^ 52 <= Zpos mn < 2 ^ 53 -> -52 <= en <= 11 ->
  exists (m2 : positive) (u : Z),
    Num.float64_mul Num.DefaultProbationRatio (S754_finite false mn en) =
      S754_finite false m2 (en - 55 + u) /\
    (u = 52 \/ u = 53) /\
    2 ^ 52 <= Zpos m2 < 2 ^ 53 /\
    (Zpos m2 = 7205759403792794 * Zpos mn / 2 ^ u \/
     Zpos m2 = 7205759403792794 * Zpos mn / 2 ^ u + 1).
Proof.
  intros Hmn Hen. rewrite ratio_eq. unfold Num.float64_mul, SFmul. cbn [xorb].
  set (M := (7205759403792794 * mn)%positive).
  assert (Zpos M = 7205759403792794 * Zpos mn) as HM by (subst M; lia).
  assert (104 < Zpos (digits2_pos M)) as HD1
    by (apply pow2_digits_ge; rewrite HM; lia).
  assert (Zpos (digits2_pos M) <= 106) as HD2
    by (apply pow2_digits_le; [lia|]; rewrite HM; lia).
  destruct (round_aux_spec false M (-55 + en)) as (m2 & e2 & Hr & He & Hm & Hc & _);
    try lia.
  exists m2, (e2 - (-55 + en)). rewrite Hr.
  replace (en - 55 + (e2 - (-55 + en))) with e2 by lia.
  split; [done|]. rewrite <- HM.
  set (u := e2 - (-55 + en)) in *.
  assert (u = 52 \/ u = 53 \/ u = 54) as [Hu|[Hu|Hu]] by lia; rewrite Hu in *.
  - split; [by left|]. split; done.
  - split; [by right|]. split; done.
  - exfalso. rewrite HM in Hc.
    assert (7205759403792794 * Zpos mn / 2 ^ 54 < 2 ^ 52 - 1)
      by (apply Z.div_lt_upper_bound; lia).
    lia.
Qed.

Lemma int_of_float64_neg_exp (m : positive) (j : Z) :
  0 < j -> Zpos m / 2 ^ j <= Num.max_int ->
  Num.int_of_float64 (S754_finite false m (- j)) = Zpos m / 2 ^ j.
Proof.
  intros Hj Hr. unfold Num.int_of_float64.
  destruct j as [|p|p]; [lia| |lia]. change (- Zpos p) with (Zneg p). cbv iota.
  rewrite Z.shiftr_div_pow2 by lia.
  assert (0 <= Zpos m / 2 ^ Zpos p) by (apply Z.div_pos; [lia|apply Z.pow_pos_nonneg; lia]).
  replace (Num.min_int <=? Zpos m / 2 ^ Zpos p) with true
    by (symmetry; apply Z.leb_le; unfold Num.min_int; lia).
  replace (Zpos m / 2 ^ Zpos p <=? Num.max_int) with true
    by (symmetry; apply Z.leb_le; lia).
  reflexivity.
Qed.

(** Below 2^53 the share is between [n / 5] and [n], and it is [n / 5]
    exactly below 2^52. *)
Lemma probation_share_small (n : Z) :
  5 <= n < 2 ^ 53 ->
  n / 5 <= Num.probation_share n < n /\
  (n < 2 ^ 52 -> Num.probation_share n = n / 5).
Proof.
  intros Hn. unfold Num.probation_share.
  destruct (float64_of_int_small n) as (mn & w & -> & Hw & Hmn & Hmnw); [lia|].
  destruct (mul_ratio_spec mn (- w)) as (m2 & u & -> & Hu & Hm2 & Hc); [done|lia|].
  set (W := 2 ^ w) in *. set (Q := n / 5).
  assert (0 < W) as HW by (apply Z.pow_pos_nonneg; lia).
  assert (5 * Q <= n < 5 * Q + 5) as HQ
    by (subst Q; pose proof (Z.div_mod n 5 ltac:(lia));
        pose proof (Z.mod_pos_bound n 5 ltac:(lia)); lia).
  assert (0 <= Q) as HQ0 by lia.
  assert (5 * (Q * W) <= n * W) as HA1 by nia.
  assert (n * W <= 5 * (Q * W) + 4 * W) as HA2 by nia.
  assert (0 <= Q * W) as HA0 by nia.
  assert (n < 2 ^ 52 -> 2 <= W) as HW2.
  { intros Hlt. destruct (Z.eq_dec w 0) as [->|Hne].
    - subst W. rewrite Z.pow_0_r, Z.mul_1_r in Hmnw. lia.
    - subst W. replace w with (Z.succ (w - 1)) by lia.
      rewrite Z.pow_succ_r by lia.
      assert (0 < 2 ^ (w - 1)) by (apply Z.pow_pos_nonneg; lia). lia. }
  set (A := Q * W) in *. set (P := n * W) in *.
  destruct Hu as [-> | ->].
  - (* the product has 105 bits *)
    replace (- w - 55 + 52) with (- (w + 3)) by lia.
    assert (2 ^ (w + 3) = 8 * W) as HJ
      by (rewrite Z.pow_add_r by lia; subst W; change (2 ^ 3) with 8; lia).
    assert (7205759403792794 * Zpos mn / 2 ^ 52 <= 2 * Zpos mn) as Hq1
      by (apply Z.div_le_upper_bound; lia).
    assert (8 * A <= 7205759403792794 * Zpos mn / 2 ^ 52) as Hq2
      by (apply Z.div_le_lower_bound; lia).
    assert (8 * A <= Zpos m2) as Hlo by lia.
    assert (Zpos m2 < 8 * W * n) as Hhi by lia.
    assert (Q <= Zpos m2 / (8 * W)) as Hlo'
      by (apply Z.div_le_lower_bound; lia).
    assert (Zpos m2 / (8 * W) < n) as Hhi'
      by (apply Z.div_lt_upper_bound; lia).
    rewrite int_of_float64_neg_exp; rewrite ?HJ; unfold Num.max_int; try lia.
    split; [lia|]. intros Hlt. specialize (HW2 Hlt).
    assert (7205759403792794 * Zpos mn / 2 ^ 52 < 8 * A + 8 * W - 1) as Hq3
      by (apply Z.div_lt_upper_bound; lia).
    assert (Zpos m2 / (8 * W) < Q + 1)
      by (apply Z.div_lt_upper_bound; lia).
    lia.
  - (* the product has 106 bits *)
    replace (- w - 55 + 53) with (- (w + 2)) by lia.
    assert (2 ^ (w + 2) = 4 * W) as HJ
      by (rewrite Z.pow_add_r by lia; subst W; change (2 ^ 2) with 4; lia).
    assert (7205759403792794 * Zpos mn / 2 ^ 53 <= Zpos mn) as Hq1
      by (apply Z.div_le_upper_bound; lia).
    assert (4 * A <= 7205759403792794 * Zpos mn / 2 ^ 53) as Hq2
      by (apply Z.div_le_lower_bound; lia).
    assert (4 * A <= Zpos m2) as Hlo by lia.
    assert (Zpos m2 < 4 * W * n) as Hhi by lia.
    assert (Q <= Zpos m2 / (4 * W)) as Hlo'
      by (apply Z.div_le_lower_bound; lia).
    assert (Zpos m2 / (4 * W) < n) as Hhi'
      by (apply Z.div_lt_upper_bound; lia).
    rewrite int_of_float64_neg_exp; rewrite ?HJ; unfold Num.max_int; try lia.
    split; [lia|]. intros Hlt. specialize (HW2 Hlt).
    assert (7205759403792794 * Zpos mn / 2 ^ 53 < 4 * A + 4 * W - 1) as Hq3
      by (apply Z.div_lt_upper_bound; lia).
    assert (Zpos m2 / (4 * W) < Q + 1)
      by (apply Z.div_lt_upper_bound; lia).
    lia.
Qed.

Lemma int_of_float64_shiftl (m : positive) (e : Z) :
  0 <= Z.shiftl (Zpos m) e <= Num.max_int ->
  Num.int_of_float64 (S754_finite false m e) = Z.shiftl (Zpos m) e.
Proof.
  intros Hr. unfold Num.int_of_float64.
  assert (match e with
          | Zneg p => Z.shiftr (Zpos m) (Zpos p)
          | _ => Z.shiftl (Zpos m) e
          end = Z.shiftl (Zpos m) e) as -> by (by destruct e).
  replace (Num.min_int <=? Z.shiftl (Zpos m) e) with true
    by (symmetry; apply Z.leb_le; unfold Num.min_int; lia).
  replace (Z.shiftl (Zpos m) e <=? Num.max_int) with true
    by (symmetry; apply Z.leb_le; lia).
  reflexivity.
Qed.

(** From 2^53 on the share is still positive and below [n]. *)
Lemma probation_share_big (n : Z) :
  2 ^ 53 <= n < 2 ^ 63 -> 1 <= Num.probation_share n < n.
Proof.
  intros Hn. unfold Num.probation_share.
  destruct (float64_of_int_big n) as (mn & en & -> & Hen & Hmn & Hc); [lia|].
  destruct (mul_ratio_spec mn en) as (m2 & u & -> & Hu & Hm2 & _); [done|lia|].
  assert (en = 1 \/ en = 2 \/ en = 3 \/ en = 4 \/ en = 5 \/ en = 6 \/ en = 7 \/
          en = 8 \/ en = 9 \/ en = 10 \/ en = 11) as Hcases by lia.
  assert (1 <= Z.shiftl (Zpos m2) (en - 55 + u) < n) as Hr.
  { destruct Hu as [-> | ->];
      repeat (destruct Hcases as [-> | Hcases]); try subst en;
      match goal with
      | |- context [Z.shiftl _ ?e] =>
          let e' := eval vm_compute in e in change e with e'
      end;
      first [ rewrite Z.shiftl_mul_pow2 by lia
            | rewrite Z.shiftl_div_pow2 by lia ];
      Z.div_mod_to_equations; lia. }
  rewrite int_of_float64_shiftl; unfold Num.max_int; lia.
Qed.

Lemma round_aux_sign (sx : bool) (mx ex : Z) (lx : location) :
  match binary_round_aux Num.prec Num.emax sx mx ex lx with
  | S754_zero s | S754_infinity s | S754_finite s _ _ => s = sx
  | S754_nan => True
  end.
Proof.
  unfold binary_round_aux.
  destruct (shr_fexp Num.prec Num.emax mx ex lx) as [mrs' e'].
  destruct (shr_fexp Num.prec Num.emax _ e' loc_Exact) as [mrs'' e''].
  destruct (shr_m mrs''); [done| |done].
  by destruct (e'' <=? Num.emax - Num.prec).
Qed.

Lemma int_of_float64_negative (f : spec_float) :
  match f with
  | S754_zero s | S754_infinity s | S754_finite s _ _ => s = true
  | S754_nan => True
  end ->
  Num.int_of_float64 f <= 0.
Proof.
  unfold Num.int_of_float64, Num.min_int.
  destruct f as [s|s| |s m e]; intros Hs; try lia. subst s.
  set (a := match e with
            | Zneg p => Z.shiftr (Zpos m) (Zpos p)
            | _ => Z.shiftl (Zpos m) e
            end).
  assert (0 <= a).
  { subst a. destruct e; [apply Z.shiftl_nonneg|apply Z.shiftl_nonneg
                          |apply Z.shiftr_nonneg]; lia. }
  destruct ((- 2 ^ 63 <=? - a) && (- a <=? Num.max_int)); lia.
Qed.

Lemma probation_share_nonpos (n : Z) : n <= 4 -> Num.probation_share n <= 0.
Proof.
  intros Hn. destruct n as [|n|n].
  - done.
  - assert (Zpos n = 1 \/ Zpos n = 2 \/ Zpos n = 3 \/ Zpos n = 4)
      as [-> | [-> | [-> | ->]]] by lia; by vm_compute.
  - unfold Num.probation_share. apply int_of_float64_negative.
    unfold Num.float64_of_int, binary_normalize, binary_round.
    destruct (shl_align n 0 _) as [mz ez].
    pose proof (round_aux_sign true (Zpos mz) ez loc_Exact) as Hs.
    destruct (binary_round_aux Num.prec Num.emax true (Zpos mz) ez loc_Exact)
      as [s|s| |s m e]; try subst s; rewrite ratio_eq; cbn [Num.float64_mul SFmul xorb];
      try done.
    apply (round_aux_sign true).
Qed.

(** The capacity of the probation segment for every size an [int] holds. *)
Lemma probation_share_bounds (n : Z) :
  5 <= n <= Num.max_int -> 1 <= Num.probation_share n < n.
Proof.
  unfold Num.max_int. intros Hn. destruct (Z_lt_le_dec n (2 ^ 53)).
  - destruct (probation_share_small n) as [[? ?] _]; [lia|].
    assert (1 <= n / 5) by (apply Z.div_le_lower_bound; lia). lia.
  - apply probation_share_big. lia.
Qed.

Lemma probation_share_exact (n : Z) :
  1 <= n < 2 ^ 52 -> Num.probation_share n = n / 5.
Proof.
  intros Hn. destruct (Z_lt_le_dec n 5).
  - assert (n = 1 \/ n = 2 \/ n = 3 \/ n = 4) as [-> | [-> | [-> | ->]]] by lia;
      by vm_compute.
  - destruct (probation_share_small n) as [_ He]; [lia|]. apply He. lia.
Qed.

Lemma wrap_small (z : Z) : Num.min_int <= z <= Num.max_int -> Num.wrap z = z.
Proof.
  unfold Num.min_int, Num.max_int, Num.wrap. intros Hz.
  rewrite Z.mod_small by lia. lia.
Qed.

Lemma capacities_of_size (n : Z) :
  5 <= n <= Num.max_int ->
  1 <= Num.probation_share n /\
  1 <= Num.wrap (n - Num.probation_share n) /\
  Num.probation_share n + Num.wrap (n - Num.probation_share n) = n.
Proof.
  intros Hn. pose proof (probation_share_bounds n Hn) as Hs.
  rewrite wrap_small by (unfold Num.min_int, Num.max_int in *; lia). lia.
Qed.

(** Below 2^53, where [float64(n)] is exact, the rounding of the product
    moves the share up by at most one. *)
Lemma probation_share_near (n : Z) :
  5 <= n < 2 ^ 53 -> n / 5 <= Num.probation_share n <= n / 5 + 1.
Proof.
  intros Hn. split; [by destruct (probation_share_small n Hn) as [[? _] _]|].
  unfold Num.probation_share.
  destruct (float64_of_int_small n) as (mn & w & -> & Hw & Hmn & Hmnw); [lia|].
  destruct (mul_ratio_spec mn (- w)) as (m2 & u & -> & Hu & Hm2 & Hc); [done|lia|].
  set (W := 2 ^ w) in *. set (Q := n / 5).
  assert (0 < W) as HW by (apply Z.pow_pos_nonneg; lia).
  assert (5 * Q <= n < 5 * Q + 5) as HQ
    by (subst Q; pose proof (Z.div_mod n 5 ltac:(lia));
        pose proof (Z.mod_pos_bound n 5 ltac:(lia)); lia).
  assert (0 <= Q) as HQ0 by lia.
  assert (5 * (Q * W) <= n * W) as HA1 by nia.
  assert (n * W <= 5 * (Q * W) + 4 * W) as HA2 by nia.
  assert (0 <= Q * W) as HA0 by nia.
  set (A := Q * W) in *. set (P := n * W) in *.
  destruct Hu as [-> | ->].
  - replace (- w - 55 + 52) with (- (w + 3)) by lia.
    assert (2 ^ (w + 3) = 8 * W) as HJ
      by (rewrite Z.pow_add_r by lia; subst W; change (2 ^ 3) with 8; lia).
    assert (7205759403792794 * Zpos mn / 2 ^ 52 < 8 * A + 8 * W) as Hq3
      by (apply Z.div_lt_upper_bound; lia).
    assert (Zpos m2 / (8 * W) < Q + 2) as Hhi
      by (apply Z.div_lt_upper_bound; subst A; lia).
    assert (Zpos m2 / (8 * W) < n) as Hhi' by lia.
    rewrite int_of_float64_neg_exp; rewrite ?HJ; unfold Num.max_int; lia.
  - replace (- w - 55 + 53) with (- (w + 2)) by lia.
    assert (2 ^ (w + 2) = 4 * W) as HJ
      by (rewrite Z.pow_add_r by lia; subst W; change (2 ^ 2) with 4; lia).
    assert (7205759403792794 * Zpos mn / 2 ^ 53 < 4 * A + 4 * W) as Hq3
      by (apply Z.div_lt_upper_bound; lia).
    assert (Zpos m2 / (4 * W) < Q + 2) as Hhi
      by (apply Z.div_lt_upper_bound; subst A; lia).
    assert (Zpos m2 / (4 * W) < n) as Hhi' by lia.
    rewrite int_of_float64_neg_exp; rewrite ?HJ; unfold Num.max_int; lia.
Qed.

End float64.

Section proofs.

Context {K : Type} `{Countable K} {V : Type}.
Variable zeroV : V.

Implicit Types (σ : Store (K:=K) (V:=V)) (x : entry (K:=K) (V:=V)).
Implicit Types (pb pt xs : list (entry (K:=K) (V:=V))).
Implicit Types (k : K) (v : V) (e p l : nat).

(** *** Lists of entries *)

Lemma key_unique xs x x' :
  NoDup (key <$> xs) → x ∈ xs → x' ∈ xs → key x = key x' → x = x'.
Proof.
  induction xs as [|y xs IH]; intros Hnd Hx Hx' Hk; [by inversion Hx|].
  rewrite fmap_cons in Hnd. apply NoDup_cons in Hnd as [Hy Hnd].
  apply elem_of_cons in Hx as [->|Hx]; apply elem_of_cons in Hx' as [->|Hx'];
    try done.
  - exfalso. apply Hy. rewrite Hk. by apply list_elem_of_fmap_2.
  - exfalso. apply Hy. rewrite <- Hk. by apply list_elem_of_fmap_2.
  - by apply IH.
Qed.

Lemma without_absent k xs : k ∉ key <$> xs → without k xs = xs.
Proof.
  intros Hk. unfold without.
  induction xs as [|y xs IH]; [done|].
  rewrite fmap_cons in Hk. apply not_elem_of_cons in Hk as [Hy Hk].
  rewrite filter_cons_True by done. by rewrite IH.
Qed.

Lemma without_cons_eq x xs :
  key x ∉ key <$> xs → without (key x) (x :: xs) = xs.
Proof.
  intros Hk. unfold without. rewrite filter_cons_False by (intros Hn; by apply Hn).
  by apply without_absent.
Qed.

Lemma without_sublist k xs : without k xs `sublist_of` xs.
Proof. apply sublist_filter. Qed.

Lemma elem_of_keys_without k k' xs :
  k' ∈ key <$> without k xs ↔ k' ≠ k ∧ k' ∈ key <$> xs.
Proof.
  unfold without. rewrite !list_elem_of_fmap. split.
  - intros (x & -> & Hx). apply list_elem_of_filter in Hx as [Hk Hx]. eauto.
  - intros (Hk & x & -> & Hx). exists x. split; [done|].
    by apply list_elem_of_filter.
Qed.

Lemma without_perm x xs :
  NoDup (key <$> xs) → x ∈ xs → xs ≡ₚ x :: without (key x) xs.
Proof.
  induction xs as [|y xs IH]; intros Hnd Hx; [by inversion Hx|].
  rewrite fmap_cons in Hnd. apply NoDup_cons in Hnd as [Hy Hnd].
  apply elem_of_cons in Hx as [->|Hx].
  - by rewrite without_cons_eq.
  - unfold without. rewrite filter_cons_True.
    + fold (without (key x) xs). rewrite (IH Hnd Hx) at 1. apply Permutation_swap.
    + intros Hk. apply Hy. rewrite Hk. by apply list_elem_of_fmap_2.
Qed.

Lemma without_length x xs :
  NoDup (key <$> xs) → x ∈ xs → length xs = S (length (without (key x) xs)).
Proof. intros Hnd Hx. by rewrite (without_perm x xs Hnd Hx) at 1. Qed.

Lemma find_key_Some k xs x :
  NoDup (key <$> xs) → x ∈ xs → key x = k → find_key k xs = Some x.
Proof.
  intros Hnd Hx Hk. unfold find_key.
  destruct (filter (λ y, key y = k) xs) as [|y ys] eqn:Hf.
  - assert (x ∈ filter (λ y, key y = k) xs) as Hin by by apply list_elem_of_filter.
    rewrite Hf in Hin. by inversion Hin.
  - simpl. f_equal.
    assert (y ∈ filter (λ y, key y = k) xs) as Hin by (rewrite Hf; left).
    apply list_elem_of_filter in Hin as [Hy Hin].
    apply (key_unique xs); congruence.
Qed.

Lemma find_key_None k xs : k ∉ key <$> xs → find_key k xs = None.
Proof.
  intros Hk. unfold find_key.
  destruct (filter (λ y, key y = k) xs) as [|y ys] eqn:Hf; [done|].
  assert (y ∈ filter (λ y, key y = k) xs) as Hin by (rewrite Hf; left).
  apply list_elem_of_filter in Hin as [Hy Hin].
  exfalso. apply Hk. rewrite <- Hy. by apply list_elem_of_fmap_2.
Qed.

Lemma keys_overwrite k v xs : key <$> overwrite k v xs = key <$> xs.
Proof.
  unfold overwrite. rewrite <- list_fmap_compose. apply list_fmap_ext.
  intros i x _. simpl. by destruct (decide (key x = k)).
Qed.


Lemma drop_back_snoc xs x :
  NoDup (key <$> (xs ++ [x])) → drop_back (xs ++ [x]) = xs.
Proof.
  intros Hnd. unfold drop_back. rewrite last_snoc.
  unfold without. rewrite filter_app, filter_cons_False by (intros Hn; by apply Hn).
  rewrite filter_nil, app_nil_r. apply without_absent.
  rewrite fmap_app in Hnd. apply NoDup_app in Hnd as (_ & Hd & _).
  intros Hin. apply (Hd _ Hin). simpl. left.
Qed.

Lemma Forall2_filter_both {A B} (R R' : A → B → Prop) (P : A → Prop) (Q : B → Prop)
    `{!∀ a, Decision (P a)} `{!∀ b, Decision (Q b)} (l : list A) (m : list B) :
  Forall2 R l m →
  (∀ a b, a ∈ l → b ∈ m → R a b → (P a ↔ Q b) ∧ (P a → R' a b)) →
  Forall2 R' (filter P l) (filter Q m).
Proof.
  induction 1 as [|a b l m Hab Hlm IH]; intros HR; [constructor|].
  destruct (HR a b) as [Hiff Himp]; [left|left|done|].
  assert (Forall2 R' (filter P l) (filter Q m)) as IH'.
  { apply IH. intros a' b' Ha' Hb'. apply HR; by right. }
  destruct (decide (P a)) as [HP|HP].
  - rewrite filter_cons_True, (filter_cons_True Q) by tauto.
    constructor; auto.
  - rewrite filter_cons_False, (filter_cons_False Q) by tauto. done.
Qed.

Lemma Forall2_last_l {A B} (R : A → B → Prop) (l : list A) (m : list B) b :
  Forall2 R l m → last m = Some b → ∃ a, last l = Some a ∧ R a b.
Proof.
  intros HF. revert b. induction HF as [|a b l m Hab Hlm IH]; intros b' Hl; [done|].
  destruct Hlm as [|a2 b2 l m Hab2 Hlm].
  - simpl in *. exists a. by simplify_eq.
  - apply (IH b'). done.
Qed.

Lemma Forall2_elem_r {A B} (R : A → B → Prop) (l : list A) (m : list B) b :
  Forall2 R l m → b ∈ m → ∃ a, a ∈ l ∧ R a b.
Proof.
  induction 1 as [|a b' l m Hab Hlm IH]; intros Hb; [by inversion Hb|].
  apply elem_of_cons in Hb as [->|Hb].
  - exists a. split; [left|done].
  - destruct (IH Hb) as (a' & Ha' & HR). exists a'. split; [by right|done].
Qed.

Lemma Forall2_elem_l {A B} (R : A → B → Prop) (l : list A) (m : list B) a :
  Forall2 R l m → a ∈ l → ∃ b, b ∈ m ∧ R a b.
Proof.
  induction 1 as [|a' b l m Hab Hlm IH]; intros Ha; [by inversion Ha|].
  apply elem_of_cons in Ha as [->|Ha].
  - exists b. split; [left|done].
  - destruct (IH Ha) as (b' & Hb' & HR). exists b'. split; [by right|done].
Qed.

(** *** The representation relation *)

Lemma rep_entry σ l e x l' x' : rep σ l e x → rep σ l' e x' → l = l' ∧ x = x'.
Proof. intros (p & He & Hp & _) (p' & He' & Hp' & _). split; congruence. Qed.

Lemma rep_elem σ l e x l' e' x' :
  rep σ l e x → rep σ l' e' x' → key x = key x' → e = e'.
Proof. intros (p & _ & _ & Hi) (p' & _ & _ & Hi') Hk. congruence. Qed.

Lemma rep_frame σ σ' l e x :
  rep σ l e x →
  elements_of σ' !! e = elements_of σ !! e →
  (∀ p, entries_of σ !! p = Some x → entries_of σ' !! p = Some x) →
  items (cache σ') !! key x = items (cache σ) !! key x →
  rep σ' l e x.
Proof. intros (p & He & Hp & Hi) H1 H2 H3. exists p. rewrite H1, H3. eauto. Qed.

Lemma models_sym σ l1 l2 xs1 xs2 :
  models σ l1 l2 xs1 xs2 → models σ l2 l1 xs2 xs1.
Proof.
  intros [Hl H1 H2 Hnd Hit Hnx]. split; try done.
  - by rewrite fmap_app, (comm app), <- fmap_app.
  - intros k e Hk. rewrite fmap_app, (comm app), <- fmap_app. by eapply Hit.
Qed.

Lemma models_lookup σ l1 l2 xs1 xs2 k e :
  models σ l1 l2 xs1 xs2 → items (cache σ) !! k = Some e →
  ∃ x, key x = k ∧ ((x ∈ xs1 ∧ rep σ l1 e x) ∨ (x ∈ xs2 ∧ rep σ l2 e x)).
Proof.
  intros [Hl (ps & Hps & F1) (qs & Hqs & F2) Hnd Hit Hnx] Hk.
  apply Hit in Hk as Hin. apply list_elem_of_fmap in Hin as (x & -> & Hx).
  exists x. split; [done|]. apply elem_of_app in Hx as [Hx|Hx].
  - left. split; [done|].
    destruct (Forall2_elem_r _ _ _ _ F1 Hx) as (e' & _ & Hr).
    destruct Hr as (p & He & Hp & Hi). assert (e' = e) as -> by congruence.
    exists p. eauto.
  - right. split; [done|].
    destruct (Forall2_elem_r _ _ _ _ F2 Hx) as (e' & _ & Hr).
    destruct Hr as (p & He & Hp & Hi). assert (e' = e) as -> by congruence.
    exists p. eauto.
Qed.

Lemma models_absent σ l1 l2 xs1 xs2 k :
  models σ l1 l2 xs1 xs2 → items (cache σ) !! k = None → k ∉ key <$> (xs1 ++ xs2).
Proof.
  intros [Hl (ps & Hps & F1) (qs & Hqs & F2) Hnd Hit Hnx] Hk Hin.
  apply list_elem_of_fmap in Hin as (x & -> & Hx).
  apply elem_of_app in Hx as [Hx|Hx].
  - destruct (Forall2_elem_r _ _ _ _ F1 Hx) as (e' & _ & (p & _ & _ & Hi)). congruence.
  - destruct (Forall2_elem_r _ _ _ _ F2 Hx) as (e' & _ & (p & _ & _ & Hi)). congruence.
Qed.

Lemma models_elem_below σ l1 l2 xs1 xs2 e y :
  models σ l1 l2 xs1 xs2 → elements_of σ !! e = Some y → e < next_ptr σ.
Proof.
  intros Hm He. destruct (decide (e < next_ptr σ)) as [|Hn]; [done|].
  destruct (md_next _ _ _ _ _ Hm e) as (_ & He' & _); [lia|congruence].
Qed.

Lemma models_entry_below σ l1 l2 xs1 xs2 p y :
  models σ l1 l2 xs1 xs2 → entries_of σ !! p = Some y → p < next_ptr σ.
Proof.
  intros Hm He. destruct (decide (p < next_ptr σ)) as [|Hn]; [done|].
  destruct (md_next _ _ _ _ _ Hm p) as (He' & _ & _); [lia|congruence].
Qed.

Lemma models_list_below σ l1 l2 xs1 xs2 l y :
  models σ l1 l2 xs1 xs2 → lists_of σ !! l = Some y → l < next_ptr σ.
Proof.
  intros Hm He. destruct (decide (l < next_ptr σ)) as [|Hn]; [done|].
  destruct (md_next _ _ _ _ _ Hm l) as (_ & _ & He'); [lia|congruence].
Qed.

(** Running monadic code: unfold the operations, reduce the projections
    of explicit stores, and read the store through known lookups. *)
Ltac mred :=
  cbv beta iota delta
    [bind ret raise load_entry store_entry alloc_entry load_elem store_elem
     alloc_elem load_list store_list alloc_list get_cache put_cache set_items
     delete_items list_New list_PushFront list_MoveToFront list_Remove
     list_Back list_Len elem_List elem_Value];
  cbn [entries_of elements_of lists_of next_ptr cache size items probation
       protected probationSize protectedSize Value List key value].

Lemma evict_run σ l ys o p x :
  lists_of σ !! l = Some ys →
  last ys = Some o →
  elements_of σ !! o = Some (Elem p (Some l)) →
  entries_of σ !! p = Some x →
  evict l σ =
    Ok tt (MkStore (entries_of σ)
                   (<[o := Elem p None]> (elements_of σ))
                   (<[l := filter (λ y, y ≠ o) ys]> (lists_of σ))
                   (next_ptr σ)
                   (Cache (size (cache σ)) (delete (key x) (items (cache σ)))
                          (probation (cache σ)) (protected (cache σ))
                          (probationSize (cache σ)) (protectedSize (cache σ)))).
Proof.
  intros Hl Hlast Ho Hp.
  unfold evict. mred. rewrite Hl. mred. rewrite Hlast. mred. rewrite Ho. mred. rewrite Hp. mred.
  rewrite Ho. mred. rewrite Hl. reflexivity.
Qed.

Lemma evict_empty σ l : lists_of σ !! l = Some [] → evict l σ = Fault NilDeref.
Proof. intros Hl. unfold evict. mred. rewrite Hl. reflexivity. Qed.

(** Evicting from a non-empty first list removes its back entry from the
    list and its key from the map. *)
Lemma evict_models σ l1 l2 xs1 xs2 x :
  models σ l1 l2 xs1 xs2 → last xs1 = Some x →
  ∃ σ', evict l1 σ = Ok tt σ' ∧
        models σ' l1 l2 (without (key x) xs1) xs2 ∧
        same_config σ σ' ∧
        entries_of σ' = entries_of σ ∧
        items (cache σ') = delete (key x) (items (cache σ)) ∧
        (∀ e q lo, elements_of σ !! e = Some (Elem q lo) →
                   ∃ lo', elements_of σ' !! e = Some (Elem q lo')).
Proof.
  intros Hm Hlast.
  pose proof Hm as [Hl (ps & Hps & F1) (qs & Hqs & F2) Hnd Hit Hnx].
  destruct (Forall2_last_l _ _ _ _ F1 Hlast) as (o & Ho & Hrep).
  pose proof Hrep as (p & Hoe & Hpe & Hoi).
  eexists. split; [by apply (evict_run σ l1 ps o p x)|].
  split; [|split; [done|split; [done|split; [done|]]]].
  2:{ intros e q lo He. cbn. destruct (decide (e = o)) as [->|Hne].
      - rewrite lookup_insert_eq. assert (q = p) as -> by congruence. eauto.
      - rewrite lookup_insert_ne by done. eauto. }
  split; cbn [cache lists_of elements_of entries_of next_ptr items
                               probation protected]; try done.
  - exists (filter (λ y, y ≠ o) ps). split; [by rewrite lookup_insert_eq|].
    unfold without. eapply Forall2_filter_both; [exact F1|].
    intros e' x' He' Hx' Hr. split.
    + split.
      * intros Hne Hk. apply Hne. symmetry. by eapply rep_elem.
      * intros Hne ->. apply Hne. by destruct (rep_entry _ _ _ _ _ _ Hr Hrep) as [_ ->].
    + intros Hne. eapply rep_frame; [exact Hr|..]; cbn.
      * by rewrite lookup_insert_ne.
      * done.
      * rewrite lookup_delete_ne; [done|].
        intros Hk. apply Hne. symmetry. by eapply rep_elem.
  - exists qs. split; [by rewrite lookup_insert_ne|].
    eapply Forall2_impl; [exact F2|]. intros e' x' Hr.
    assert (e' ≠ o) as Hne.
    { intros ->. destruct (rep_entry _ _ _ _ _ _ Hr Hrep) as [? _]. congruence. }
    eapply rep_frame; [exact Hr|..]; cbn.
    + by rewrite lookup_insert_ne.
    + done.
    + rewrite lookup_delete_ne; [done|].
      intros Hk. apply Hne. symmetry. by eapply rep_elem.
  - eapply sublist_NoDup; [exact Hnd|].
    apply fmap_sublist, sublist_app; [apply without_sublist|done].
  - intros k e Hk. apply lookup_delete_Some in Hk as [Hne Hk].
    apply Hit in Hk. rewrite fmap_app, elem_of_app in Hk |- *.
    destruct Hk as [Hk|Hk]; [left|by right].
    apply elem_of_keys_without. by rewrite fmap_app in *.
  - intros q Hq. destruct (Hnx q Hq) as (? & ? & ?).
    assert (o < next_ptr σ) by (by eapply models_elem_below).
    assert (l1 < next_ptr σ) by (by eapply models_list_below).
    rewrite !lookup_insert_ne by lia. done.
Qed.

(** The store after a new entry for [k] is allocated, pushed to the front
    of the first list and recorded in the map. *)
Lemma push_state_models σ l1 l2 xs1 xs2 ps k v :
  models σ l1 l2 xs1 xs2 →
  lists_of σ !! l1 = Some ps →
  items (cache σ) !! k = None →
  models (MkStore (<[next_ptr σ := Entry k v]> (entries_of σ))
                  (<[S (next_ptr σ) := Elem (next_ptr σ) (Some l1)]> (elements_of σ))
                  (<[l1 := S (next_ptr σ) :: ps]> (lists_of σ))
                  (S (S (next_ptr σ)))
                  (Cache (size (cache σ)) (<[k := S (next_ptr σ)]> (items (cache σ)))
                         (probation (cache σ)) (protected (cache σ))
                         (probationSize (cache σ)) (protectedSize (cache σ))))
         l1 l2 (Entry k v :: xs1) xs2.
Proof.
  intros Hm Hps Hk.
  pose proof Hm as [Hl (ps' & Hps' & F1) (qs & Hqs & F2) Hnd Hit Hnx].
  assert (ps' = ps) as -> by congruence.
  assert (∀ l e x, rep σ l e x →
            rep (MkStore (<[next_ptr σ := Entry k v]> (entries_of σ))
                  (<[S (next_ptr σ) := Elem (next_ptr σ) (Some l1)]> (elements_of σ))
                  (<[l1 := S (next_ptr σ) :: ps]> (lists_of σ))
                  (S (S (next_ptr σ)))
                  (Cache (size (cache σ)) (<[k := S (next_ptr σ)]> (items (cache σ)))
                         (probation (cache σ)) (protected (cache σ))
                         (probationSize (cache σ)) (protectedSize (cache σ)))) l e x)
    as Hframe.
  { intros l e x Hr. pose proof Hr as (p & He & Hp & Hi).
    eapply rep_frame; [exact Hr|..]; cbn.
    - assert (e < next_ptr σ) by (by eapply models_elem_below).
      by rewrite lookup_insert_ne by lia.
    - intros p' Hp'. assert (p' < next_ptr σ) by (by eapply models_entry_below).
      by rewrite lookup_insert_ne by lia.
    - rewrite lookup_insert_ne; [done|]. intros Heq. congruence. }
  split; cbn [cache lists_of elements_of entries_of next_ptr items]; try done.
  - eexists. split; [by rewrite lookup_insert_eq|].
    constructor; [|by eapply Forall2_impl; [exact F1|]; eauto].
    exists (next_ptr σ). cbn. by rewrite !lookup_insert_eq.
  - exists qs. split; [by rewrite lookup_insert_ne|].
    eapply Forall2_impl; [exact F2|]; eauto.
  - rewrite <- app_comm_cons, fmap_cons. apply NoDup_cons. split; [|done].
    by eapply models_absent.
  - intros k' e Hk'. rewrite <- app_comm_cons, fmap_cons.
    apply lookup_insert_Some in Hk' as [[<- _]|[_ Hk']]; [left|right; eauto].
  - intros q Hq. destruct (Hnx q) as (? & ? & ?); [lia|].
    assert (l1 < next_ptr σ) by (by eapply models_list_below).
    rewrite !lookup_insert_ne by lia. done.
Qed.

(** The store after the element [e] of the first list is promoted: its
    entry is pushed to the front of the second list, the map is pointed at
    the new element, and [e] is removed from the first list. *)
Lemma promote_state_models σ l1 l2 xs1 xs2 ps qs e p x :
  models σ l1 l2 xs1 xs2 →
  lists_of σ !! l1 = Some ps →
  lists_of σ !! l2 = Some qs →
  elements_of σ !! e = Some (Elem p (Some l1)) →
  entries_of σ !! p = Some x →
  items (cache σ) !! key x = Some e →
  models (MkStore (entries_of σ)
                  (<[e := Elem p None]>
                     (<[next_ptr σ := Elem p (Some l2)]> (elements_of σ)))
                  (<[l1 := filter (λ y, y ≠ e) ps]>
                     (<[l2 := next_ptr σ :: qs]> (lists_of σ)))
                  (S (next_ptr σ))
                  (Cache (size (cache σ)) (<[key x := next_ptr σ]> (items (cache σ)))
                         (probation (cache σ)) (protected (cache σ))
                         (probationSize (cache σ)) (protectedSize (cache σ))))
         l1 l2 (without (key x) xs1) (x :: xs2).
Proof.
  intros Hm Hps Hqs He Hp Hi.
  pose proof Hm as [Hl (ps' & Hps' & F1) (qs' & Hqs' & F2) Hnd Hit Hnx].
  assert (ps' = ps) as -> by congruence. assert (qs' = qs) as -> by congruence.
  assert (rep σ l1 e x) as Hrep by (exists p; eauto).
  assert (e < next_ptr σ) as Hlt by (by eapply models_elem_below).
  assert (∀ l e' x', rep σ l e' x' → e' ≠ e →
            rep (MkStore (entries_of σ)
                  (<[e := Elem p None]>
                     (<[next_ptr σ := Elem p (Some l2)]> (elements_of σ)))
                  (<[l1 := filter (λ y, y ≠ e) ps]>
                     (<[l2 := next_ptr σ :: qs]> (lists_of σ)))
                  (S (next_ptr σ))
                  (Cache (size (cache σ)) (<[key x := next_ptr σ]> (items (cache σ)))
                         (probation (cache σ)) (protected (cache σ))
                         (probationSize (cache σ)) (protectedSize (cache σ)))) l e' x')
    as Hframe.
  { intros l e' x' Hr Hne. pose proof Hr as (p' & He' & Hp' & Hi').
    eapply rep_frame; [exact Hr|..]; cbn.
    - assert (e' < next_ptr σ) by (by eapply models_elem_below).
      by rewrite !lookup_insert_ne by lia.
    - done.
    - rewrite lookup_insert_ne; [done|]. intros Hk. apply Hne.
      by eapply rep_elem. }
  assert (x ∈ xs1) as Hx1.
  { destruct (Forall2_elem_l _ _ _ e F1) as (x' & Hx' & Hr').
    - destruct (models_lookup _ _ _ _ _ _ _ Hm Hi) as (x' & Hk' & [[Hin Hr]|[Hin Hr]]).
      + destruct (Forall2_elem_r _ _ _ _ F1 Hin) as (e' & He' & Hr').
        by rewrite (rep_elem _ _ _ _ _ _ _ Hrep Hr' (eq_sym Hk')).
      + destruct (rep_entry _ _ _ _ _ _ Hr Hrep); congruence.
    - by destruct (rep_entry _ _ _ _ _ _ Hr' Hrep) as [_ <-]. }
  assert (key x ∉ key <$> xs2) as Hx2.
  { rewrite fmap_app in Hnd. apply NoDup_app in Hnd as (_ & Hd & _).
    apply Hd. by apply list_elem_of_fmap_2. }
  split; cbn [cache lists_of elements_of entries_of next_ptr items]; try done.
  - eexists. split; [by rewrite lookup_insert_eq|].
    unfold without. eapply Forall2_filter_both; [exact F1|].
    intros e' x' He' Hx' Hr. split; [|by eauto]. split.
    + intros Hne Hk. apply Hne. symmetry. by eapply rep_elem.
    + intros Hne ->. apply Hne. by destruct (rep_entry _ _ _ _ _ _ Hr Hrep) as [_ ->].
  - eexists. split; [by rewrite lookup_insert_ne, lookup_insert_eq|].
    constructor.
    + exists p. cbn. rewrite lookup_insert_ne, !lookup_insert_eq by lia. done.
    + eapply Forall2_impl; [exact F2|]. intros e' x' Hr. apply Hframe; [done|].
      intros ->. destruct (rep_entry _ _ _ _ _ _ Hr Hrep); congruence.
  - rewrite fmap_app, fmap_cons.
    apply NoDup_app. rewrite fmap_app in Hnd. apply NoDup_app in Hnd as (N1 & Hd & N2).
    split; [|split].
    + eapply sublist_NoDup; [exact N1|]. apply fmap_sublist, without_sublist.
    + intros k' Hk'. apply elem_of_keys_without in Hk' as [Hne Hk'].
      intros [->|Hin]%elem_of_cons; [done|]. by eapply Hd.
    + apply NoDup_cons. done.
  - intros k' e' Hk'. rewrite fmap_app, fmap_cons, elem_of_app, elem_of_cons.
    destruct (decide (k' = key x)) as [->|Hne]; [right; by left|].
    rewrite lookup_insert_ne in Hk' by done.
    apply Hit in Hk'. rewrite fmap_app, elem_of_app in Hk'.
    destruct Hk' as [Hk'|Hk']; [left|right; by right].
    by apply elem_of_keys_without.
  - intros q Hq. destruct (Hnx q) as (? & ? & ?); [lia|].
    assert (l1 < next_ptr σ) by (by eapply models_list_below).
    assert (l2 < next_ptr σ) by (by eapply models_list_below).
    rewrite !lookup_insert_ne by lia. done.
Qed.

(** The store after the element [e] of the second list is moved to its
    front. *)
Lemma move_state_models σ l1 l2 xs1 xs2 qs e x :
  models σ l1 l2 xs1 xs2 →
  lists_of σ !! l2 = Some qs →
  rep σ l2 e x →
  models (MkStore (entries_of σ) (elements_of σ)
                  (<[l2 := e :: filter (λ y, y ≠ e) qs]> (lists_of σ))
                  (next_ptr σ) (cache σ))
         l1 l2 xs1 (x :: without (key x) xs2).
Proof.
  intros Hm Hqs Hrep.
  pose proof Hm as [Hl (ps & Hps & F1) (qs' & Hqs' & F2) Hnd Hit Hnx].
  assert (qs' = qs) as -> by congruence.
  assert (x ∈ xs2) as Hx2.
  { pose proof Hrep as (p & _ & _ & Hi).
    destruct (models_lookup _ _ _ _ _ _ _ Hm Hi) as (x' & Hk' & [[Hin Hr]|[Hin Hr]]).
    - destruct (rep_entry _ _ _ _ _ _ Hr Hrep); congruence.
    - by destruct (rep_entry _ _ _ _ _ _ Hr Hrep) as [_ <-]. }
  assert (NoDup (key <$> xs2)) as N2.
  { rewrite fmap_app in Hnd. by apply NoDup_app in Hnd as (_ & _ & ?). }
  assert (key <$> xs1 ++ x :: without (key x) xs2 ≡ₚ key <$> xs1 ++ xs2) as Hperm.
  { by rewrite <- (without_perm x xs2 N2 Hx2). }
  split; cbn [cache lists_of elements_of entries_of next_ptr items]; try done.
  - exists ps. split; [by rewrite lookup_insert_ne|done].
  - eexists. split; [by rewrite lookup_insert_eq|].
    constructor; [done|].
    unfold without. eapply Forall2_filter_both; [exact F2|].
    intros e' x' He' Hx' Hr. split; [|done]. split.
    + intros Hne Hk. apply Hne. symmetry. by eapply rep_elem.
    + intros Hne ->. apply Hne. by destruct (rep_entry _ _ _ _ _ _ Hr Hrep) as [_ ->].
  - by rewrite Hperm.
  - intros k e' Hk. rewrite Hperm. by eapply Hit.
  - intros q Hq. destruct (Hnx q) as (? & ? & ?); [lia|].
    assert (l2 < next_ptr σ) by (by eapply models_list_below).
    rewrite !lookup_insert_ne by lia. done.
Qed.

(** The store after the entry at [p], which is the entry of every element
    the map holds for its key, has its value overwritten. *)
Lemma write_state_models σ l1 l2 xs1 xs2 p x v :
  models σ l1 l2 xs1 xs2 →
  entries_of σ !! p = Some x →
  (∀ e', items (cache σ) !! key x = Some e' →
         ∃ lo, elements_of σ !! e' = Some (Elem p lo)) →
  models (MkStore (<[p := Entry (key x) v]> (entries_of σ)) (elements_of σ)
                  (lists_of σ) (next_ptr σ) (cache σ))
         l1 l2 (overwrite (key x) v xs1) (overwrite (key x) v xs2).
Proof.
  intros Hm Hp Hown.
  pose proof Hm as [Hl (ps & Hps & F1) (qs & Hqs & F2) Hnd Hit Hnx].
  assert (∀ l e' x', rep σ l e' x' →
            rep (MkStore (<[p := Entry (key x) v]> (entries_of σ)) (elements_of σ)
                         (lists_of σ) (next_ptr σ) (cache σ)) l e'
                (if decide (key x' = key x) then Entry (key x) v else x')) as Hframe.
  { intros l e' x' (p' & He' & Hp' & Hi').
    destruct (decide (key x' = key x)) as [Hk|Hk].
    - rewrite Hk in Hi'. destruct (Hown _ Hi') as (lo & Hlo).
      assert (p' = p) as -> by congruence.
      exists p. cbn. by rewrite lookup_insert_eq.
    - exists p'. cbn. rewrite lookup_insert_ne by congruence. done. }
  split; cbn [cache lists_of elements_of entries_of next_ptr items]; try done.
  - exists ps. split; [done|]. unfold overwrite. apply Forall2_fmap_r.
    eapply Forall2_impl; [exact F1|]. intros e' x'. apply Hframe.
  - exists qs. split; [done|]. unfold overwrite. apply Forall2_fmap_r.
    eapply Forall2_impl; [exact F2|]. intros e' x'. apply Hframe.
  - by rewrite fmap_app, !keys_overwrite, <- fmap_app.
  - intros k e' Hk. rewrite fmap_app, !keys_overwrite, <- fmap_app. by eapply Hit.
  - intros q Hq. destruct (Hnx q) as (? & ? & ?); [lia|].
    assert (p < next_ptr σ) by (by eapply models_entry_below).
    rewrite !lookup_insert_ne by lia. done.
Qed.



(** The shared hit path: the store it leaves represents the segments
    after [touch], the entry of the key is still the one at [p], and [p]
    is the entry of whichever element the map now holds for the key. *)
Lemma access_run σ pb pt k e :
  represents σ pb pt →
  items (cache σ) !! k = Some e →
  ∃ σ1 p x lo,
    (∀ A (rest : M A), access_then (cache σ) e rest σ = rest σ1) ∧
    represents σ1 (touch (protectedSize (cache σ)) k pb pt).1
                  (touch (protectedSize (cache σ)) k pb pt).2 ∧
    same_config σ σ1 ∧
    x ∈ pb ++ pt ∧ key x = k ∧
    elements_of σ1 !! e = Some (Elem p lo) ∧
    entries_of σ1 !! p = Some x ∧
    (∀ e', items (cache σ1) !! k = Some e' →
           ∃ lo', elements_of σ1 !! e' = Some (Elem p lo')).
Proof.
  unfold represents. intros Hm Hk.
  pose proof Hm as [Hl (ps & Hps & F1) (qs & Hqs & F2) Hnd Hit Hnx].
  destruct (models_lookup _ _ _ _ _ _ _ Hm Hk) as (x & Hkx & [[Hin Hr]|[Hin Hr]]);
    pose proof Hr as (p & He & Hp & Hi).
  - (* the element is in probation: promotion *)
    assert (e < next_ptr σ) as Hlt by (by eapply models_elem_below).
    assert (k ∉ key <$> pt) as Hpt.
    { rewrite fmap_app in Hnd. apply NoDup_app in Hnd as (_ & Hd & _).
      apply Hd. rewrite <- Hkx. by apply list_elem_of_fmap_2. }
    assert (NoDup (key <$> pb)) as N1.
    { rewrite fmap_app in Hnd. by apply NoDup_app in Hnd as (? & _ & _). }
    pose proof (promote_state_models _ _ _ _ _ _ _ _ _ _ Hm Hps Hqs He Hp Hi) as Hm1.
    unfold touch. rewrite (find_key_None k pt Hpt), (find_key_Some k pb x N1 Hin Hkx).
    cbn [fst snd].
    destruct (protectedSize (cache σ) <? Z.of_nat (length (x :: pt)))%Z eqn:Hcap.
    + (* protected overflows: its back is evicted *)
      destruct (last (x :: pt)) as [y|] eqn:Hlast;
        [|by apply last_None in Hlast].
      apply models_sym in Hm1.
      destruct (evict_models _ _ _ _ _ _ Hm1 Hlast)
        as (σ2 & Hev & Hm2 & Hcfg & Hent & Hitems & Hel).
      apply models_sym in Hm2.
      destruct (Hel e p None) as (lo & Hlo); [cbn; by rewrite lookup_insert_eq|].
      exists σ2, p, x, lo. split; [|split; [|split; [|split; [|split; [|split; [|split]]]]]].
      * intros A rest. unfold access_then. mred. rewrite He. mred.
        rewrite decide_False by congruence. mred. rewrite He. mred.
        rewrite decide_True by done. mred. rewrite He. mred. rewrite Hp. mred.
        rewrite Hqs. mred. rewrite lookup_insert_ne by lia. rewrite He. mred.
        rewrite lookup_insert_ne by done. rewrite Hps. mred.
        rewrite lookup_insert_ne by done. rewrite lookup_insert_eq. mred.
        cbn [length] in Hcap |- *. rewrite (Forall2_length _ _ _ F2), Hcap. rewrite Hev. reflexivity.
      * destruct Hcfg as (_ & -> & -> & _). cbn [cache probation protected].
        unfold drop_back. rewrite Hlast. by subst k.
      * destruct Hcfg as (?&?&?&?&?). cbn [cache size probation protected probationSize protectedSize] in *.
        repeat split; congruence.
      * apply elem_of_app. by left.
      * done.
      * done.
      * by rewrite Hent.
      * intros e' He'. rewrite Hitems in He'.
        apply lookup_delete_Some in He' as [_ He']. cbn in He'. subst k.
        rewrite lookup_insert_eq in He'. simplify_eq.
        apply (Hel _ p (Some (protected (cache σ)))). cbn.
        rewrite lookup_insert_ne, lookup_insert_eq by lia. done.
    + eexists _, p, x, None. split; [|split; [|split; [|split; [|split; [|split; [|split]]]]]].
      * intros A rest. unfold access_then. mred. rewrite He. mred.
        rewrite decide_False by congruence. mred. rewrite He. mred.
        rewrite decide_True by done. mred. rewrite He. mred. rewrite Hp. mred.
        rewrite Hqs. mred. rewrite lookup_insert_ne by lia. rewrite He. mred.
        rewrite lookup_insert_ne by done. rewrite Hps. mred.
        rewrite lookup_insert_ne by done. rewrite lookup_insert_eq. mred.
        cbn [length] in Hcap |- *. rewrite (Forall2_length _ _ _ F2), Hcap. reflexivity.
      * cbn [cache probation protected]. by subst k.
      * by repeat split.
      * apply elem_of_app. by left.
      * done.
      * cbn. by rewrite lookup_insert_eq.
      * done.
      * intros e' He'. cbn in He'. subst k. rewrite lookup_insert_eq in He'.
        simplify_eq. cbn. rewrite lookup_insert_ne, lookup_insert_eq by lia. eauto.
  - (* the element is in protected: refresh *)
    assert (k ∈ key <$> pt) as Hpt by (rewrite <- Hkx; by apply list_elem_of_fmap_2).
    assert (NoDup (key <$> pt)) as N2.
    { rewrite fmap_app in Hnd. by apply NoDup_app in Hnd as (_ & _ & ?). }
    pose proof (move_state_models _ _ _ _ _ _ _ _ Hm Hqs Hr) as Hm1.
    unfold touch. rewrite (find_key_Some k pt x N2 Hin Hkx). cbn [fst snd].
    eexists _, p, x, _. split; [|split; [|split; [|split; [|split; [|split; [|split]]]]]].
    + intros A rest. unfold access_then. mred. rewrite He. mred.
      rewrite decide_True by done. mred. rewrite He. mred.
      rewrite decide_True by done. mred. rewrite Hqs. mred. rewrite He. mred.
      rewrite decide_False by congruence. reflexivity.
    + cbn [cache probation protected]. by subst k.
    + by repeat split.
    + apply elem_of_app. by right.
    + done.
    + cbn. exact He.
    + done.
    + intros e' He'. cbn in He'. assert (e' = e) as -> by congruence. eauto.
Qed.

(** *** The methods on a represented cache *)

Lemma Set_hit σ pb pt k v e :
  represents σ pb pt →
  items (cache σ) !! k = Some e →
  ∃ σ', Set' k v σ = Ok tt σ' ∧
        represents σ' (overwrite k v (touch (protectedSize (cache σ)) k pb pt).1)
                      (overwrite k v (touch (protectedSize (cache σ)) k pb pt).2) ∧
        same_config σ σ'.
Proof.
  intros Hm Hk.
  destruct (access_run σ pb pt k e Hm Hk)
    as (σ1 & p & x & lo & Hrun & Hm1 & Hcfg & Hx & Hkx & He & Hp & Hown).
  assert (Set' k v σ =
          access_then (cache σ) e
            (bind (elem_Value e) (λ p, bind (load_entry p)
               (λ en, store_entry p (Entry (key en) v)))) σ) as ->.
  { unfold Set'. unfold bind at 1. unfold get_cache. rewrite Hk. reflexivity. }
  rewrite Hrun. mred. rewrite He. mred. rewrite Hp. mred.
  eexists. split; [reflexivity|]. subst k. split.
  - apply (write_state_models σ1); done.
  - done.
Qed.

Lemma Set_miss σ pb pt k v :
  represents σ pb pt →
  items (cache σ) !! k = None →
  match admission (probationSize (cache σ)) k v pb with
  | Some pb' =>
      ∃ σ', Set' k v σ = Ok tt σ' ∧ represents σ' pb' pt ∧ same_config σ σ'
  | None => Set' k v σ = Fault NilDeref
  end.
Proof.
  unfold represents. intros Hm Hk.
  pose proof Hm as [Hl (ps & Hps & F1) (qs & Hqs & F2) Hnd Hit Hnx].
  assert (Set' k v σ =
          bind (if (probationSize (cache σ) <=? Z.of_nat (length pb))%Z
                then evict (probation (cache σ)) else ret tt)
            (λ _, bind (alloc_entry (Entry k v))
               (λ p, bind (list_PushFront (probation (cache σ)) p)
                  (λ e, set_items k e))) σ) as ->.
  { unfold Set'. mred. rewrite Hk. mred. rewrite Hps.
    by rewrite (Forall2_length _ _ _ F1). }
  unfold admission. mred.
  destruct (probationSize (cache σ) <=? Z.of_nat (length pb))%Z.
  - destruct (last pb) as [y|] eqn:Hlast.
    + destruct (evict_models _ _ _ _ _ _ Hm Hlast)
        as (σ1 & Hev & Hm1 & Hcfg & Hent & Hitems & Hel).
      rewrite Hev.
      pose proof Hm1 as [_ (ps1 & Hps1 & _) _ _ _ _].
      assert (items (cache σ1) !! k = None) as Hk1.
      { rewrite Hitems. apply lookup_delete_None. by right. }
      pose proof (push_state_models _ _ _ _ _ _ k v Hm1 Hps1 Hk1) as Hm2.
      rewrite Hps1. mred.
      eexists. split; [reflexivity|].
      destruct Hcfg as (E1 & E2 & E3 & E4 & E5). split.
      * unfold drop_back. rewrite Hlast. cbn [cache probation protected].
        rewrite ?E2, ?E3 in Hm2 |- *. exact Hm2.
      * repeat split; cbn; congruence.
    + apply last_None in Hlast. subst pb. apply Forall2_nil_inv_r in F1. subst ps.
      by rewrite (evict_empty _ _ Hps).
  - pose proof (push_state_models _ _ _ _ _ _ k v Hm Hps Hk) as Hm2.
    rewrite Hps. mred.
    eexists. split; [reflexivity|]. split; [exact Hm2|by repeat split].
Qed.

Lemma Get_hit σ pb pt k e :
  represents σ pb pt →
  items (cache σ) !! k = Some e →
  ∃ σ' x, Get zeroV k σ = Ok (value x, true) σ' ∧
          x ∈ pb ++ pt ∧ key x = k ∧
          represents σ' (touch (protectedSize (cache σ)) k pb pt).1
                        (touch (protectedSize (cache σ)) k pb pt).2 ∧
          same_config σ σ'.
Proof.
  intros Hm Hk.
  destruct (access_run σ pb pt k e Hm Hk)
    as (σ1 & p & x & lo & Hrun & Hm1 & Hcfg & Hx & Hkx & He & Hp & Hown).
  assert (Get zeroV k σ =
          access_then (cache σ) e
            (bind (elem_Value e) (λ p, bind (load_entry p)
               (λ en, ret (value en, true)))) σ) as ->.
  { unfold Get. unfold bind at 1. unfold get_cache. rewrite Hk. reflexivity. }
  rewrite Hrun. mred. rewrite He. mred. rewrite Hp. mred.
  exists σ1, x. done.
Qed.

Lemma Get_miss σ k :
  items (cache σ) !! k = None → Get zeroV k σ = Ok (zeroV, false) σ.
Proof. intros Hk. unfold Get. mred. rewrite Hk. reflexivity. Qed.

Lemma Peek_miss σ k :
  items (cache σ) !! k = None → Peek zeroV k σ = Ok (zeroV, false) σ.
Proof. intros Hk. unfold Peek. mred. rewrite Hk. reflexivity. Qed.

Lemma Peek_hit σ pb pt k e :
  represents σ pb pt →
  items (cache σ) !! k = Some e →
  ∃ x, Peek zeroV k σ = Ok (value x, true) σ ∧ x ∈ pb ++ pt ∧ key x = k.
Proof.
  intros Hm Hk.
  destruct (models_lookup _ _ _ _ _ _ _ Hm Hk) as (x & Hkx & [[Hin Hr]|[Hin Hr]]);
    destruct Hr as (p & He & Hp & Hi); exists x;
    (split; [unfold Peek; mred; rewrite Hk; mred; rewrite He; mred; by rewrite Hp|]);
    (split; [apply elem_of_app; auto|done]).
Qed.

Lemma Contains_run σ k :
  Contains k σ = Ok (bool_decide (is_Some (items (cache σ) !! k))) σ.
Proof. unfold Contains. mred. by destruct (items (cache σ) !! k). Qed.

Lemma Len_run σ pb pt :
  represents σ pb pt → Len σ = Ok (Z.of_nat (length pb) + Z.of_nat (length pt))%Z σ.
Proof.
  intros [Hl (ps & Hps & F1) (qs & Hqs & F2) _ _ _].
  unfold Len. mred. rewrite Hps. mred. rewrite Hqs. mred.
  by rewrite (Forall2_length _ _ _ F1), (Forall2_length _ _ _ F2).
Qed.

Lemma Purge_run σ :
  Purge σ =
    Ok tt (MkStore (entries_of σ) (elements_of σ)
                   (<[S (next_ptr σ) := []]> (<[next_ptr σ := []]> (lists_of σ)))
                   (S (S (next_ptr σ)))
                   (Cache (size (cache σ)) ∅ (next_ptr σ) (S (next_ptr σ))
                          (probationSize (cache σ)) (protectedSize (cache σ)))).
Proof. reflexivity. Qed.

Lemma Purge_represents σ pb pt :
  represents σ pb pt →
  ∃ σ', Purge σ = Ok tt σ' ∧ represents σ' [] [] ∧
        size (cache σ') = size (cache σ) ∧
        probationSize (cache σ') = probationSize (cache σ) ∧
        protectedSize (cache σ') = protectedSize (cache σ).
Proof.
  intros Hm. eexists. split; [apply Purge_run|]. split; [|done].
  split; cbn [cache lists_of elements_of entries_of next_ptr items probation protected].
  - lia.
  - exists []. split; [|constructor]. by rewrite lookup_insert_ne, lookup_insert_eq by lia.
  - exists []. split; [|constructor]. by rewrite lookup_insert_eq.
  - constructor.
  - intros k e Hk. by rewrite lookup_empty in Hk.
  - intros q Hq. destruct (md_next _ _ _ _ _ Hm q) as (? & ? & ?); [lia|].
    rewrite !lookup_insert_ne by lia. done.
Qed.

Lemma New_run (n : Z) :
  New (K:=K) (V:=V) n empty_store =
    Ok tt (MkStore ∅ ∅ (<[1 := []]> (<[0 := []]> ∅)) 2
                   (Cache n ∅ 0 1 (Num.probation_share n)
                          (Num.wrap (n - Num.probation_share n)))).
Proof. reflexivity. Qed.

Lemma New_represents (n : Z) σ :
  New n empty_store = Ok tt σ →
  represents σ [] [] ∧
  size (cache σ) = n ∧
  probationSize (cache σ) = Num.probation_share n ∧
  protectedSize (cache σ) = Num.wrap (n - Num.probation_share n).
Proof.
  rewrite New_run. intros [= <-]. split; [|done].
  split; cbn [cache lists_of elements_of entries_of next_ptr items probation protected].
  - lia.
  - exists []. split; [|constructor]. by rewrite lookup_insert_ne, lookup_insert_eq by lia.
  - exists []. split; [|constructor]. by rewrite lookup_insert_eq.
  - constructor.
  - intros k e Hk. by rewrite lookup_empty in Hk.
  - intros q Hq. rewrite !lookup_insert_ne by lia. by rewrite !lookup_empty.
Qed.

(** *** Observations of a represented cache *)

Lemma rep_entry_at σ l ps xs :
  Forall2 (rep σ l) ps xs → omap (entry_at σ) ps = xs.
Proof.
  induction 1 as [|e x ps xs (p & He & Hp & _) _ IH]; [done|].
  cbn. unfold entry_at at 1. rewrite He. cbn. rewrite Hp. by rewrite IH.
Qed.

Lemma represents_segments σ pb pt :
  represents σ pb pt → probation_entries σ = pb ∧ protected_entries σ = pt.
Proof.
  intros [_ (ps & Hps & F1) (qs & Hqs & F2) _ _ _].
  unfold probation_entries, protected_entries, segment. rewrite Hps, Hqs.
  split; by eapply rep_entry_at.
Qed.

Lemma represents_lookup σ pb pt k :
  represents σ pb pt → (is_Some (items (cache σ) !! k) ↔ k ∈ key <$> (pb ++ pt)).
Proof.
  intros Hm. split.
  - intros [e He]. by eapply md_items.
  - intros Hin. destruct (items (cache σ) !! k) eqn:Hk; [eauto|].
    by destruct (models_absent _ _ _ _ _ _ Hm Hk).
Qed.

Lemma represents_dom σ pb pt :
  represents σ pb pt → dom (items (cache σ)) = list_to_set (key <$> (pb ++ pt)).
Proof.
  intros Hm. apply set_eq. intros k.
  rewrite elem_of_dom, elem_of_list_to_set. by apply represents_lookup.
Qed.

Lemma represents_size σ pb pt :
  represents σ pb pt → base.size (items (cache σ)) = length pb + length pt.
Proof.
  intros Hm. rewrite <- size_dom, (represents_dom _ _ _ Hm).
  rewrite size_list_to_set by apply Hm.
  by rewrite length_fmap, length_app.
Qed.

(** *** Lengths of the segments *)

Lemma length_overwrite k v xs : length (overwrite k v xs) = length xs.
Proof. unfold overwrite. by rewrite length_fmap. Qed.

Lemma length_without_le k xs : length (without k xs) ≤ length xs.
Proof. apply length_filter. Qed.

Lemma find_key_elem k xs x : find_key k xs = Some x → x ∈ xs ∧ key x = k.
Proof.
  unfold find_key. intros Hh. apply head_Some_elem_of in Hh.
  apply list_elem_of_filter in Hh. tauto.
Qed.

Lemma length_drop_back xs :
  NoDup (key <$> xs) → xs ≠ [] → S (length (drop_back xs)) = length xs.
Proof.
  intros Hnd Hne. unfold drop_back.
  destruct (last xs) as [y|] eqn:Hlast; [|by apply last_None in Hlast].
  symmetry. apply without_length; [done|]. by apply last_Some_elem_of.
Qed.

Lemma touch_lengths cap k pb pt :
  NoDup (key <$> (pb ++ pt)) →
  (Z.of_nat (length pt) ≤ Z.max 0 cap)%Z →
  length (touch cap k pb pt).1 ≤ length pb ∧
  (Z.of_nat (length (touch cap k pb pt).2) ≤ Z.max 0 cap)%Z.
Proof.
  intros Hnd Hpt. unfold touch.
  rewrite fmap_app in Hnd. apply NoDup_app in Hnd as (N1 & Hd & N2).
  destruct (find_key k pt) as [x|] eqn:Hf2; cbn [fst snd].
  - apply find_key_elem in Hf2 as [Hx <-].
    split; [done|]. cbn [length]. by rewrite <- (without_length x pt).
  - destruct (find_key k pb) as [x|] eqn:Hf1; cbn [fst snd]; [|done].
    apply find_key_elem in Hf1 as [Hx <-]. split; [apply length_without_le|].
    destruct (cap <? Z.of_nat (length (x :: pt)))%Z eqn:Hcap.
    + assert (NoDup (key <$> x :: pt)) as Hnd'.
      { rewrite fmap_cons. apply NoDup_cons. split; [|done].
        apply Hd. by apply list_elem_of_fmap_2. }
      pose proof (length_drop_back (x :: pt) Hnd' ltac:(done)) as Hlen.
      cbn [length] in Hlen. lia.
    + apply Z.ltb_ge in Hcap. lia.
Qed.

Lemma admission_lengths cap k v pb pb' :
  NoDup (key <$> pb) →
  (Z.of_nat (length pb) ≤ Z.max 0 cap)%Z →
  admission cap k v pb = Some pb' →
  (1 ≤ cap)%Z ∧ (Z.of_nat (length pb') ≤ cap)%Z.
Proof.
  intros Hnd Hpb. unfold admission.
  destruct (cap <=? Z.of_nat (length pb))%Z eqn:Hcap.
  - destruct (last pb) as [y|] eqn:Hlast; [|done]. intros [= <-].
    assert (pb ≠ []) as Hne by (by intros ->).
    pose proof (length_drop_back pb Hnd Hne) as Hlen. cbn [length].
    destruct pb; [done|]. cbn [length] in *. lia.
  - intros [= <-]. apply Z.leb_gt in Hcap. cbn [length]. lia.
Qed.

(** *** The invariant of reachable states *)

Lemma represents_inv (n : Z) σ pb pt :
  represents σ pb pt →
  probationSize (cache σ) = Num.probation_share n →
  protectedSize (cache σ) = Num.wrap (n - Num.probation_share n) →
  (Z.of_nat (length pb) ≤ Z.max 0 (probationSize (cache σ)))%Z →
  (Z.of_nat (length pt) ≤ Z.max 0 (protectedSize (cache σ)))%Z →
  inv n σ.
Proof.
  intros Hm ? ? ? ?. destruct (represents_segments _ _ _ Hm) as [E1 E2].
  unfold inv. rewrite E1, E2. done.
Qed.

Lemma Set_inv (n : Z) σ k v σ' : inv n σ → Set' k v σ = Ok tt σ' → inv n σ'.
Proof.
  intros (Hm & Hpb & Hpt & Hb1 & Hb2) Hrun.
  set (pb := probation_entries σ) in *. set (pt := protected_entries σ) in *.
  pose proof (md_keys _ _ _ _ _ Hm) as Hnd.
  destruct (items (cache σ) !! k) as [e|] eqn:Hk.
  - destruct (Set_hit σ pb pt k v e Hm Hk) as (σ1 & Hrun1 & Hm1 & Hcfg).
    assert (σ1 = σ') as -> by congruence.
    destruct Hcfg as (_ & _ & _ & E4 & E5).
    destruct (touch_lengths (protectedSize (cache σ)) k pb pt Hnd Hb2) as [L1 L2].
    eapply represents_inv; [exact Hm1|congruence|congruence|..];
      rewrite length_overwrite; [rewrite E4|rewrite E5]; lia.
  - pose proof (Set_miss σ pb pt k v Hm Hk) as Hs.
    destruct (admission (probationSize (cache σ)) k v pb) as [pb'|] eqn:Had;
      [|congruence].
    destruct Hs as (σ1 & Hrun1 & Hm1 & Hcfg). assert (σ1 = σ') as -> by congruence.
    destruct Hcfg as (_ & _ & _ & E4 & E5).
    assert (NoDup (key <$> pb)) as N1.
    { rewrite fmap_app in Hnd. by apply NoDup_app in Hnd as (? & _ & _). }
    destruct (admission_lengths _ _ _ _ _ N1 Hb1 Had) as [L0 L1].
    eapply represents_inv; [exact Hm1|congruence|congruence|..];
      [rewrite E4|rewrite E5]; lia.
Qed.

Lemma Get_inv (n : Z) σ k r σ' : inv n σ → Get zeroV k σ = Ok r σ' → inv n σ'.
Proof.
  intros (Hm & Hpb & Hpt & Hb1 & Hb2) Hrun.
  set (pb := probation_entries σ) in *. set (pt := protected_entries σ) in *.
  pose proof (md_keys _ _ _ _ _ Hm) as Hnd.
  destruct (items (cache σ) !! k) as [e|] eqn:Hk.
  - destruct (Get_hit σ pb pt k e Hm Hk) as (σ1 & x & Hrun1 & _ & _ & Hm1 & Hcfg).
    assert (σ1 = σ') as -> by congruence.
    destruct Hcfg as (_ & _ & _ & E4 & E5).
    destruct (touch_lengths (protectedSize (cache σ)) k pb pt Hnd Hb2) as [L1 L2].
    eapply represents_inv; [exact Hm1|congruence|congruence|..];
      [rewrite E4|rewrite E5]; lia.
  - rewrite (Get_miss σ k Hk) in Hrun. by simplify_eq.
Qed.

Lemma Peek_same σ pb pt k r σ' :
  represents σ pb pt → Peek zeroV k σ = Ok r σ' → σ' = σ.
Proof.
  intros Hm Hrun. destruct (items (cache σ) !! k) as [e|] eqn:Hk.
  - destruct (Peek_hit σ pb pt k e Hm Hk) as (x & Hrun1 & _). congruence.
  - rewrite (Peek_miss σ k Hk) in Hrun. congruence.
Qed.

Lemma reachable_inv (n : Z) σ : reachable zeroV n σ → inv n σ.
Proof.
  induction 1 as [σ _ Hnew|σ k v σ' _ IH Hrun|σ k r σ' _ IH Hrun|σ k r σ' _ IH Hrun
                 |σ k r σ' _ IH Hrun|σ r σ' _ IH Hrun|σ σ' _ IH Hrun].
  - destruct (New_represents n σ Hnew) as (Hm & _ & E1 & E2).
    eapply represents_inv; [exact Hm|done|done|cbn; lia..].
  - by eapply Set_inv.
  - by eapply Get_inv.
  - destruct IH as (Hm & ?). by rewrite (Peek_same _ _ _ _ _ _ Hm Hrun).
  - rewrite Contains_run in Hrun. by simplify_eq.
  - destruct IH as (Hm & ?). rewrite (Len_run _ _ _ Hm) in Hrun. by simplify_eq.
  - destruct IH as (Hm & E1 & E2 & _).
    destruct (Purge_represents _ _ _ Hm) as (σ1 & Hrun1 & Hm1 & _ & E4 & E5).
    assert (σ1 = σ') as -> by congruence.
    eapply represents_inv; [exact Hm1|congruence|congruence|cbn; lia..].
Qed.

(** *** More on lists of entries *)

Lemma keys_without k xs :
  key <$> without k xs = filter (λ k', k' ≠ k) (key <$> xs).
Proof.
  unfold without. induction xs as [|y xs IH]; [done|].
  rewrite fmap_cons. destruct (decide (key y = k)) as [Hk|Hk].
  - rewrite !filter_cons_False by (intros Hn; by apply Hn). done.
  - rewrite !filter_cons_True by done. rewrite fmap_cons. by f_equal.
Qed.

Lemma keys_drop_back xs :
  NoDup (key <$> xs) → key <$> drop_back xs = removelast (key <$> xs).
Proof.
  intros Hnd. destruct xs as [|x xs _] using rev_ind; [done|].
  rewrite drop_back_snoc by done.
  by rewrite fmap_app, fmap_cons, fmap_nil, removelast_last.
Qed.

Lemma drop_back_cons x xs :
  NoDup (key <$> x :: xs) → xs ≠ [] → drop_back (x :: xs) = x :: drop_back xs.
Proof.
  intros Hnd Hne. destruct xs as [|y xs _] using rev_ind; [done|].
  rewrite app_comm_cons, !drop_back_snoc; [done| |done].
  rewrite fmap_cons in Hnd. by apply NoDup_cons in Hnd as [_ ?].
Qed.


Lemma touch_protected cap pb pt x :
  NoDup (key <$> (pb ++ pt)) → x ∈ pt →
  touch cap (key x) pb pt = (pb, x :: without (key x) pt).
Proof.
  intros Hnd Hx. unfold touch.
  rewrite fmap_app in Hnd. apply NoDup_app in Hnd as (_ & _ & N2).
  by rewrite (find_key_Some (key x) pt x N2 Hx eq_refl).
Qed.

Lemma touch_probation cap pb pt x :
  NoDup (key <$> (pb ++ pt)) → x ∈ pb → (1 ≤ cap)%Z →
  touch cap (key x) pb pt =
    (without (key x) pb,
     x :: if (cap <? Z.of_nat (S (length pt)))%Z then drop_back pt else pt).
Proof.
  intros Hnd Hx Hcap. unfold touch.
  rewrite fmap_app in Hnd. apply NoDup_app in Hnd as (N1 & Hd & N2).
  assert (key x ∉ key <$> pt) as Hpt by (apply Hd; by apply list_elem_of_fmap_2).
  rewrite (find_key_None _ _ Hpt), (find_key_Some (key x) pb x N1 Hx eq_refl).
  cbn [length]. destruct (cap <? Z.of_nat (S (length pt)))%Z eqn:Hlt; [|done].
  f_equal. apply drop_back_cons.
  - rewrite fmap_cons. by apply NoDup_cons.
  - intros ->. apply Z.ltb_lt in Hlt. cbn in Hlt. lia.
Qed.

Lemma elem_of_keys_drop_back xs y k :
  NoDup (key <$> xs) → last xs = Some y →
  k ∈ key <$> drop_back xs ↔ k ≠ key y ∧ k ∈ key <$> xs.
Proof.
  intros Hnd Hlast. unfold drop_back. rewrite Hlast. apply elem_of_keys_without.
Qed.

(** *** Totality *)

(** [Get] never faults on a represented cache; [Set] does not when the
    probation segment can hold an entry. *)
Lemma Get_total (n : Z) σ k : inv n σ → ∃ r σ', Get zeroV k σ = Ok r σ'.
Proof.
  intros (Hm & _). destruct (items (cache σ) !! k) as [e|] eqn:Hk.
  - destruct (Get_hit σ _ _ k e Hm Hk) as (σ' & x & Hrun & _). eauto.
  - rewrite (Get_miss σ k Hk). eauto.
Qed.

Lemma Set_total (n : Z) σ k v :
  inv n σ → (1 ≤ probationSize (cache σ))%Z → ∃ σ', Set' k v σ = Ok tt σ'.
Proof.
  intros (Hm & _ & _ & Hb & _) Hcap.
  destruct (items (cache σ) !! k) as [e|] eqn:Hk.
  - destruct (Set_hit σ _ _ k v e Hm Hk) as (σ' & Hrun & _). eauto.
  - pose proof (Set_miss σ _ _ k v Hm Hk) as Hs. unfold admission in Hs.
    destruct (probationSize (cache σ) <=? _)%Z eqn:Hle.
    + destruct (last (probation_entries σ)) eqn:Hlast.
      * destruct Hs as (σ' & Hrun & _). eauto.
      * apply last_None in Hlast. rewrite Hlast in Hle. apply Z.leb_le in Hle.
        cbn in Hle. lia.
    + destruct Hs as (σ' & Hrun & _). eauto.
Qed.

Lemma Set_empty_fault σ k v :
  represents σ [] [] → (probationSize (cache σ) ≤ 0)%Z →
  Set' k v σ = Fault NilDeref.
Proof.
  intros Hm Hcap.
  assert (items (cache σ) !! k = None) as Hk.
  { destruct (items (cache σ) !! k) eqn:Hk; [|done].
    apply (md_items _ _ _ _ _ Hm) in Hk. by inversion Hk. }
  pose proof (Set_miss σ [] [] k v Hm Hk) as Hs. unfold admission in Hs.
  cbn [length last] in Hs.
  by replace (probationSize (cache σ) <=? Z.of_nat 0)%Z with true in Hs
    by (symmetry; apply Z.leb_le; lia).
Qed.

Lemma represents_absent σ pb pt k :
  represents σ pb pt → k ∉ key <$> (pb ++ pt) → items (cache σ) !! k = None.
Proof.
  intros Hm Hk. destruct (items (cache σ) !! k) eqn:Hl; [|done].
  destruct Hk. by eapply md_items.
Qed.

Lemma reachable_range (n : Z) σ :
  reachable zeroV n σ → (Num.min_int ≤ n ≤ Num.max_int)%Z.
Proof. induction 1; done. Qed.

Lemma reachable_config (n : Z) σ :
  (5 ≤ n)%Z → reachable zeroV n σ →
  inv n σ ∧ (1 ≤ probationSize (cache σ))%Z ∧ (1 ≤ protectedSize (cache σ))%Z.
Proof.
  intros Hn Hr. pose proof (reachable_inv n σ Hr) as Hi. split; [done|].
  pose proof (reachable_range n σ Hr) as Hrange.
  destruct Hi as (_ & -> & -> & _).
  destruct (capacities_of_size n) as (? & ? & _); [lia|done].
Qed.

(** A cache that holds an entry has probation capacity at least 1: its
    first entry came in through probation. *)
Lemma reachable_used (n : Z) σ :
  reachable zeroV n σ →
  (probation_entries σ = [] ∧ protected_entries σ = []) ∨
  (1 ≤ Num.probation_share n)%Z.
Proof.
  induction 1 as [σ _ Hnew|σ k v σ' Hr IH Hrun|σ k r σ' Hr IH Hrun|σ k r σ' Hr IH Hrun
                 |σ k r σ' Hr IH Hrun|σ r σ' Hr IH Hrun|σ σ' Hr IH Hrun].
  - left. destruct (New_represents n σ Hnew) as (Hm & _).
    by apply represents_segments in Hm.
  - destruct IH as [[E1 E2]|?]; [|by right]. right.
    destruct (reachable_inv n σ Hr) as (Hm & Hcap & _ & Hb & _).
    rewrite E1, E2 in Hm. rewrite E1 in Hb.
    assert (items (cache σ) !! k = None) as Hk
      by (apply (represents_absent _ _ _ _ Hm); by intros ?%elem_of_nil).
    pose proof (Set_miss σ [] [] k v Hm Hk) as Hs.
    destruct (admission (probationSize (cache σ)) k v []) as [pb'|] eqn:Had;
      [|congruence].
    assert (NoDup (key <$> @nil (entry (K:=K) (V:=V)))) as Hnil by constructor.
    destruct (admission_lengths _ _ _ _ _ Hnil Hb Had) as [L0 _].
    by rewrite <- Hcap.
  - destruct IH as [[E1 E2]|?]; [|by right]. left.
    destruct (reachable_inv n σ Hr) as (Hm & _).
    rewrite E1, E2 in Hm.
    assert (items (cache σ) !! k = None) as Hk
      by (apply (represents_absent _ _ _ _ Hm); by intros ?%elem_of_nil).
    rewrite (Get_miss σ k Hk) in Hrun. by simplify_eq.
  - destruct (reachable_inv n σ Hr) as (Hm & _).
    by rewrite (Peek_same _ _ _ _ _ _ Hm Hrun).
  - rewrite Contains_run in Hrun. by simplify_eq.
  - destruct (reachable_inv n σ Hr) as (Hm & _).
    rewrite (Len_run _ _ _ Hm) in Hrun. by simplify_eq.
  - left. destruct (reachable_inv n σ Hr) as (Hm & _).
    destruct (Purge_represents _ _ _ Hm) as (σ1 & Hrun1 & Hm1 & _).
    assert (σ1 = σ') as -> by congruence.
    by apply represents_segments in Hm1.
Qed.

Lemma reachable_nonempty (n : Z) σ :
  reachable zeroV n σ →
  probation_entries σ ++ protected_entries σ ≠ [] → (5 ≤ n)%Z.
Proof.
  intros Hr Hne. destruct (reachable_used n σ Hr) as [[E1 E2]|Hcap].
  - by rewrite E1, E2 in Hne.
  - destruct (Z_lt_le_dec n 5) as [Hlt|]; [|done].
    pose proof (probation_share_nonpos n). lia.
Qed.

(** *** What the claims say *)

(** C10. A key absent from the lookup map is a miss for [Get] and for
    [Peek]: both return the zero value of [V] with [false], and neither
    changes anything in the store. *)
Theorem miss_returns_zero σ k :
  items (cache σ) !! k = None →
  Get zeroV k σ = Ok (zeroV, false) σ ∧ Peek zeroV k σ = Ok (zeroV, false) σ.
Proof. intros Hk. split; [by apply Get_miss|by apply Peek_miss]. Qed.

(** C9. [Purge] succeeds in every store, and afterwards [Len] is 0 and
    [Contains] is false for every key. *)
Theorem Purge_empties σ :
  ∃ σ', Purge σ = Ok tt σ' ∧
        Len σ' = Ok 0%Z σ' ∧
        ∀ k, Contains k σ' = Ok false σ'.
Proof.
  eexists. split; [apply Purge_run|]. split.
  - unfold Len. mred. rewrite lookup_insert_ne, lookup_insert_eq by lia. mred.
    rewrite lookup_insert_eq. reflexivity.
  - intros k. rewrite Contains_run. cbn [cache items]. by rewrite lookup_empty.
Qed.

Lemma queries_same σ pb pt qs :
  represents σ pb pt → queries zeroV qs σ = Ok tt σ.
Proof.
  intros Hm. induction qs as [|[k|k] qs IH]; [done| |].
  - cbn [queries]. unfold bind.
    destruct (items (cache σ) !! k) as [e|] eqn:Hk.
    + destruct (Peek_hit σ pb pt k e Hm Hk) as (x & -> & _). exact IH.
    + rewrite (Peek_miss σ k Hk). exact IH.
  - cbn [queries]. unfold bind. rewrite Contains_run. exact IH.
Qed.

(** C8. In every reachable state, any run of [Peek] and [Contains]
    calls returns and leaves the store exactly as it was; a [Set] (and so
    the victim it evicts) or a [Get] issued after the run behaves as if
    it had been issued before it. *)
Theorem Peek_Contains_pure (n : Z) σ qs :
  reachable zeroV n σ →
  queries zeroV qs σ = Ok tt σ ∧
  (∀ k v, (queries zeroV qs ;;; Set' k v) σ = Set' k v σ) ∧
  (∀ k, (queries zeroV qs ;;; Get zeroV k) σ = Get zeroV k σ).
Proof.
  intros Hr. destruct (reachable_inv n σ Hr) as (Hm & _).
  pose proof (queries_same σ _ _ qs Hm) as Hq.
  split; [done|]. split; intros; unfold bind; by rewrite Hq.
Qed.

Lemma list_Len_run σ pb pt :
  represents σ pb pt →
  list_Len (probation (cache σ)) σ = Ok (Z.of_nat (length pb)) σ ∧
  list_Len (protected (cache σ)) σ = Ok (Z.of_nat (length pt)) σ.
Proof.
  intros [Hl (ps & Hps & F1) (qs & Hqs & F2) _ _ _].
  unfold list_Len. mred. rewrite Hps, Hqs.
  by rewrite (Forall2_length _ _ _ F1), (Forall2_length _ _ _ F2).
Qed.

Lemma Sets_inv (n : Z) σ kvs σ' : inv n σ → Sets kvs σ = Ok tt σ' → inv n σ'.
Proof.
  revert σ. induction kvs as [|[k v] kvs IH]; intros σ Hi Hrun.
  - cbv in Hrun. by simplify_eq.
  - cbn [Sets] in Hrun. unfold bind in Hrun.
    destruct (Set' k v σ) as [[] σ1|] eqn:Hs; [|done].
    eapply IH; [|exact Hrun]. by eapply Set_inv.
Qed.

Lemma Sets_total (n : Z) σ kvs :
  inv n σ → (1 ≤ Num.probation_share n)%Z → ∃ σ', Sets kvs σ = Ok tt σ'.
Proof.
  revert σ. induction kvs as [|[k v] kvs IH]; intros σ Hi Hcap.
  - by exists σ.
  - destruct (Set_total n σ k v Hi) as (σ1 & Hs).
    { destruct Hi as (_ & -> & _). done. }
    cbn [Sets]. unfold bind. rewrite Hs. apply IH; [|done]. by eapply Set_inv.
Qed.

(** C4. A run of [Set] calls on [New size] either faults at its first
    call, which happens exactly when [size < 5] (the probation capacity
    is then 0 or less), or returns; when it returns, both lists are
    within their capacities, [Len] is the sum of their lengths, and that
    sum is the number of keys in the lookup map.  Every prefix of a run is
    a run, so this holds after each call. *)
Theorem Sets_capacity (n : Z) (kvs : list (K * V)) :
  (Num.min_int ≤ n ≤ Num.max_int)%Z → kvs ≠ [] →
  match (New n ;;; Sets kvs) empty_store with
  | Ok _ σ =>
      ∃ n1 n2 : Z,
        list_Len (probation (cache σ)) σ = Ok n1 σ ∧
        list_Len (protected (cache σ)) σ = Ok n2 σ ∧
        (n1 ≤ probationSize (cache σ))%Z ∧
        (n2 ≤ protectedSize (cache σ))%Z ∧
        Len σ = Ok (n1 + n2)%Z σ ∧
        Z.of_nat (base.size (items (cache σ))) = (n1 + n2)%Z
  | Fault f => f = NilDeref ∧ (n < 5)%Z
  end.
Proof.
  intros Hn Hne. unfold bind at 1. rewrite New_run.
  match goal with |- context [Sets kvs ?s] => set (σ0 := s) end.
  assert (reachable zeroV n σ0) as Hr0 by (apply reach_New; [done|apply New_run]).
  pose proof (reachable_inv n σ0 Hr0) as Hi0.
  destruct (Z_lt_le_dec n 5) as [Hlt|Hge].
  - destruct kvs as [|[k v] kvs]; [done|]. cbn [Sets]. unfold bind.
    rewrite (Set_empty_fault σ0 k v); [done| |].
    + by destruct (New_represents n σ0 (New_run n)).
    + subst σ0. cbn [cache probationSize]. apply probation_share_nonpos. lia.
  - destruct (capacities_of_size n) as (C1 & C2 & _); [lia|].
    destruct (Sets_total n σ0 kvs Hi0 C1) as (σ & Hrun). rewrite Hrun.
    destruct (Sets_inv n σ0 kvs σ Hi0 Hrun) as (Hm & E1 & E2 & B1 & B2).
    destruct (list_Len_run _ _ _ Hm) as [L1 L2].
    eexists _, _. split; [exact L1|]. split; [exact L2|].
    rewrite E1, E2 in *. split; [lia|]. split; [lia|].
    split; [by apply Len_run|]. rewrite (represents_size _ _ _ Hm). lia.
Qed.

Lemma represents_keys σ pb pt :
  represents σ pb pt →
  probation_keys σ = key <$> pb ∧ protected_keys σ = key <$> pt.
Proof.
  intros Hm. destruct (represents_segments _ _ _ Hm) as [E1 E2].
  unfold probation_keys, protected_keys. by rewrite E1, E2.
Qed.

Lemma Contains_keys σ pb pt k :
  represents σ pb pt →
  Contains k σ = Ok (bool_decide (k ∈ key <$> (pb ++ pt))) σ.
Proof.
  intros Hm. rewrite Contains_run. f_equal.
  apply bool_decide_ext. by apply represents_lookup.
Qed.

(** C6. On a cache of size at least 5, in any reachable state:
    [Set] of a key the map does not hold puts it at the front of
    probation; [Get] of a key in probation moves it to the front of
    protected; [Get] of a key in protected keeps it in protected, at the
    front, leaves probation, [Len] and the key set of the map as they
    were, and no key occurs twice in the two lists. *)
Theorem admission_and_promotion (n : Z) σ k :
  (5 ≤ n)%Z → reachable zeroV n σ →
  (items (cache σ) !! k = None →
   ∀ v, ∃ σ', Set' k v σ = Ok tt σ' ∧
              head (probation_keys σ') = Some k ∧
              k ∉ protected_keys σ') ∧
  (k ∈ probation_keys σ →
   ∃ r σ', Get zeroV k σ = Ok (r, true) σ' ∧
           (k ∉ probation_keys σ') ∧
           head (protected_keys σ') = Some k) ∧
  (k ∈ protected_keys σ →
   ∃ r σ' len, Get zeroV k σ = Ok (r, true) σ' ∧
               probation_keys σ' = probation_keys σ ∧
               protected_keys σ' = k :: filter (λ k', k' ≠ k) (protected_keys σ) ∧
               Len σ = Ok len σ ∧ Len σ' = Ok len σ' ∧
               dom (items (cache σ')) = dom (items (cache σ)) ∧
               NoDup (probation_keys σ' ++ protected_keys σ')).
Proof.
  intros Hn Hr. destruct (reachable_config n σ Hn Hr) as ((Hm & _ & _ & B1 & B2) & C1 & C2).
  set (pb := probation_entries σ) in *. set (pt := protected_entries σ) in *.
  pose proof (md_keys _ _ _ _ _ Hm) as Hnd.
  destruct (represents_keys _ _ _ Hm) as [K1 K2].
  split; [|split].
  - (* admission *)
    intros Hk v. pose proof (Set_miss σ pb pt k v Hm Hk) as Hs.
    pose proof (models_absent _ _ _ _ _ _ Hm Hk) as Habs.
    assert (∃ pb', admission (probationSize (cache σ)) k v pb = Some (Entry k v :: pb'))
      as (pb' & Had).
    { unfold admission. destruct (_ <=? _)%Z eqn:Hle; [|eauto].
      destruct (last pb) eqn:Hlast; [eauto|].
      apply last_None in Hlast. rewrite Hlast in Hle. apply Z.leb_le in Hle.
      cbn in Hle. lia. }
    rewrite Had in Hs. destruct Hs as (σ' & Hrun & Hm' & _).
    exists σ'. split; [done|]. destruct (represents_keys _ _ _ Hm') as [-> ->].
    split; [done|]. intros Hin. apply Habs. rewrite fmap_app, elem_of_app. by right.
  - (* promotion *)
    rewrite K1. intros Hin. apply list_elem_of_fmap in Hin as (x & -> & Hx).
    assert (is_Some (items (cache σ) !! key x)) as [e He].
    { apply (represents_lookup _ _ _ _ Hm). rewrite fmap_app, elem_of_app. left.
      by apply list_elem_of_fmap_2. }
    destruct (Get_hit σ pb pt (key x) e Hm He) as (σ' & x' & Hrun & _ & _ & Hm' & _).
    rewrite (touch_probation _ _ _ _ Hnd Hx C2) in Hm'. cbn [fst snd] in Hm'.
    exists (value x'), σ'. split; [done|].
    destruct (represents_keys _ _ _ Hm') as [-> ->]. split; [|done].
    intros Hin. by apply elem_of_keys_without in Hin as [? _].
  - (* refresh *)
    rewrite K2. intros Hin. apply list_elem_of_fmap in Hin as (x & -> & Hx).
    assert (is_Some (items (cache σ) !! key x)) as [e He].
    { apply (represents_lookup _ _ _ _ Hm). rewrite fmap_app, elem_of_app. right.
      by apply list_elem_of_fmap_2. }
    destruct (Get_hit σ pb pt (key x) e Hm He) as (σ' & x' & Hrun & _ & _ & Hm' & _).
    rewrite (touch_protected _ _ _ _ Hnd Hx) in Hm'. cbn [fst snd] in Hm'.
    assert (NoDup (key <$> pt)) as N2.
    { rewrite fmap_app in Hnd. by apply NoDup_app in Hnd as (_ & _ & ?). }
    exists (value x'), σ', (Z.of_nat (length pb) + Z.of_nat (length pt))%Z.
    split; [done|]. destruct (represents_keys _ _ _ Hm') as [-> ->].
    rewrite K1. split; [done|]. split; [by rewrite fmap_cons, keys_without|].
    split; [by apply Len_run|]. split.
    { rewrite (Len_run _ _ _ Hm'). cbn [length].
      by rewrite <- (without_length x pt N2 Hx). }
    split.
    { rewrite (represents_dom _ _ _ Hm), (represents_dom _ _ _ Hm').
      apply set_eq. intros k'. rewrite !elem_of_list_to_set.
      by rewrite (without_perm x pt N2 Hx) at 2. }
    rewrite <- fmap_app. apply Hm'.
Qed.

(** The three-key scenario of size 10, for any three distinct keys. *)
Lemma scenario_size_10 k1 k2 k3 v1 v2 v3 :
  k1 ≠ k2 → k1 ≠ k3 → k2 ≠ k3 →
  ∃ σ, (New 10 ;;; Sets [(k1, v1); (k2, v2); (k3, v3)]) empty_store = Ok tt σ ∧
       probationSize (cache σ) = 2%Z ∧
       probation_keys σ = [k3; k2] ∧
       protected_keys σ = [] ∧
       Contains k1 σ = Ok false σ ∧
       Contains k2 σ = Ok true σ ∧
       Contains k3 σ = Ok true σ.
Proof.
  intros H12 H13 H23.
  assert (k2 ∉ [k1]) as A2 by (rewrite list_elem_of_singleton; congruence).
  assert (k3 ∉ [k2; k1]) as A3
    by (rewrite elem_of_cons, list_elem_of_singleton; intros [|]; congruence).
  assert (NoDup [k2; k1]) as N21
    by (apply NoDup_cons; split; [done|apply NoDup_singleton]).
  assert (k1 ∉ [k3; k2]) as A1
    by (rewrite elem_of_cons, list_elem_of_singleton; intros [|]; congruence).
  assert (k2 ∈ [k3; k2]) as I2 by (right; left).
  assert (k3 ∈ [k3; k2]) as I3 by left.
  unfold bind at 1. rewrite New_run. cbn [Sets].
  match goal with |- context [bind _ _ ?s] => set (σ0 := s) end.
  destruct (New_represents 10 σ0 (New_run 10)) as (Hm0 & _ & E0 & _).
  assert (Num.probation_share 10 = 2%Z) as Hshare by (by vm_compute).
  rewrite Hshare in E0.
  (* first key *)
  assert (items (cache σ0) !! k1 = None) as Hk1 by done.
  pose proof (Set_miss σ0 [] [] k1 v1 Hm0 Hk1) as Hs1. rewrite E0 in Hs1.
  change (admission 2 k1 v1 []) with (Some [Entry k1 v1]) in Hs1.
  destruct Hs1 as (σ1 & Hrun1 & Hm1 & (_ & _ & _ & E1 & _)).
  unfold bind at 1. rewrite Hrun1. rewrite E0 in E1. clear Hm0 Hk1 Hrun1. clearbody σ0.
  (* second key *)
  pose proof (represents_absent σ1 _ _ k2 Hm1 A2) as Hk2.
  pose proof (Set_miss σ1 _ [] k2 v2 Hm1 Hk2) as Hs2. rewrite E1 in Hs2.
  change (admission 2 k2 v2 [Entry k1 v1]) with (Some [Entry k2 v2; Entry k1 v1]) in Hs2.
  destruct Hs2 as (σ2 & Hrun2 & Hm2 & (_ & _ & _ & E2 & _)).
  unfold bind at 1. rewrite Hrun2. rewrite E1 in E2. clear Hm1 Hk2 Hrun2.
  (* third key: probation is full, the first key is evicted *)
  pose proof (represents_absent σ2 _ _ k3 Hm2 A3) as Hk3.
  pose proof (Set_miss σ2 _ [] k3 v3 Hm2 Hk3) as Hs3. rewrite E2 in Hs3.
  change (admission 2 k3 v3 [Entry k2 v2; Entry k1 v1])
    with (Some (Entry k3 v3 :: drop_back ([Entry k2 v2] ++ [Entry k1 v1]))) in Hs3.
  rewrite (drop_back_snoc [Entry k2 v2] (Entry k1 v1) N21) in Hs3.
  destruct Hs3 as (σ3 & Hrun3 & Hm3 & (_ & _ & _ & E3 & _)).
  unfold bind at 1. rewrite Hrun3. exists σ3. split; [done|]. split; [congruence|].
  destruct (represents_keys _ _ _ Hm3) as [-> ->]. split; [done|]. split; [done|].
  rewrite !(Contains_keys _ _ _ _ Hm3).
  change (key <$> [Entry k3 v3; Entry k2 v2] ++ []) with [k3; k2].
  rewrite (bool_decide_eq_false_2 _ A1).
  rewrite (bool_decide_eq_true_2 _ I2), (bool_decide_eq_true_2 _ I3).
  repeat split; reflexivity.
Qed.

(** C5. In any reachable state whose probation segment holds entries
    and is full, [Set] of a key the map does not hold
    evicts the entry at the back of probation, the one pushed longest
    ago: the new key goes to the front, the others keep their order,
    protected is untouched, [Contains] is false for the evicted key and
    still true for every other key.  With size 10 and three distinct keys
    set in turn, probation ends as [k3; k2] and the first key is gone. *)
Theorem eviction_of_oldest :
  (∀ (n : Z) σ k v,
     reachable zeroV n σ →
     probation_keys σ ≠ [] →
     Z.of_nat (length (probation_keys σ)) = probationSize (cache σ) →
     items (cache σ) !! k = None →
     ∃ σ' victim,
       last (probation_keys σ) = Some victim ∧
       Set' k v σ = Ok tt σ' ∧
       probation_keys σ' = k :: removelast (probation_keys σ) ∧
       protected_keys σ' = protected_keys σ ∧
       Contains victim σ' = Ok false σ' ∧
       (∀ k', k' ≠ victim → Contains k' σ = Ok true σ →
              Contains k' σ' = Ok true σ')) ∧
  (∀ k1 k2 k3 v1 v2 v3,
     k1 ≠ k2 → k1 ≠ k3 → k2 ≠ k3 →
     ∃ σ, (New 10 ;;; Sets [(k1, v1); (k2, v2); (k3, v3)]) empty_store = Ok tt σ ∧
          probationSize (cache σ) = 2%Z ∧
          probation_keys σ = [k3; k2] ∧
          Contains k1 σ = Ok false σ ∧
          Contains k2 σ = Ok true σ ∧
          Contains k3 σ = Ok true σ).
Proof.
  split.
  - intros n σ k v Hr Hsome Hfull Hk.
    assert (5 ≤ n)%Z as Hn.
    { apply (reachable_nonempty n σ Hr). intros [E _]%app_eq_nil.
      apply Hsome. unfold probation_keys. by rewrite E. }
    destruct (reachable_config n σ Hn Hr) as ((Hm & _ & _ & B1 & B2) & C1 & C2).
    set (pb := probation_entries σ) in *. set (pt := protected_entries σ) in *.
    pose proof (md_keys _ _ _ _ _ Hm) as Hnd.
    destruct (represents_keys _ _ _ Hm) as [K1 K2]. rewrite K1 in *.
    rewrite length_fmap in Hfull.
    assert (NoDup (key <$> pb)) as N1.
    { rewrite fmap_app in Hnd. by apply NoDup_app in Hnd as (? & _ & _). }
    destruct (last pb) as [y|] eqn:Hlast;
      [|apply last_None in Hlast; rewrite Hlast in Hfull; cbn in Hfull; lia].
    pose proof (Set_miss σ pb pt k v Hm Hk) as Hs. unfold admission in Hs.
    replace (probationSize (cache σ) <=? Z.of_nat (length pb))%Z with true in Hs
      by (symmetry; apply Z.leb_le; lia).
    rewrite Hlast in Hs. destruct Hs as (σ' & Hrun & Hm' & _).
    pose proof (models_absent _ _ _ _ _ _ Hm Hk) as Habs.
    exists σ', (key y). split; [by rewrite fmap_last, Hlast|]. split; [done|].
    destruct (represents_keys _ _ _ Hm') as [-> ->].
    split; [by rewrite fmap_cons, keys_drop_back|]. split; [done|].
    rewrite (Contains_keys _ _ _ _ Hm').
    assert (key y ∈ key <$> pb) as Hy
      by (apply list_elem_of_fmap_2; by apply last_Some_elem_of).
    split.
    + f_equal. apply bool_decide_eq_false_2.
      rewrite <- app_comm_cons, fmap_cons, fmap_app, elem_of_cons, elem_of_app.
      rewrite (elem_of_keys_drop_back pb y _ N1 Hlast).
      intros [Heq|[[Hne _]|Hin]]; [|done|].
      * apply Habs. cbn in Heq. rewrite <- Heq, fmap_app, elem_of_app. by left.
      * rewrite fmap_app in Hnd. apply NoDup_app in Hnd as (_ & Hd & _).
        by apply (Hd (key y)).
    + intros k' Hne. rewrite (Contains_keys _ _ _ _ Hm), (Contains_keys _ _ _ _ Hm').
      intros [= Hin]. f_equal. apply bool_decide_eq_true_1 in Hin.
      apply bool_decide_eq_true_2.
      rewrite <- app_comm_cons, fmap_cons, fmap_app, elem_of_cons, elem_of_app.
      rewrite (elem_of_keys_drop_back pb y _ N1 Hlast).
      rewrite fmap_app, elem_of_app in Hin. right. tauto.
  - intros k1 k2 k3 v1 v2 v3 H12 H13 H23.
    destruct (scenario_size_10 k1 k2 k3 v1 v2 v3 H12 H13 H23)
      as (σ & ? & ? & ? & ? & ? & ? & ?).
    exists σ. repeat split; assumption.
Qed.

Lemma filter_ne_absent (k : K) (l : list K) :
  k ∉ l → filter (λ k', k' ≠ k) l = l.
Proof.
  induction l as [|a l IH]; [done|]. intros [Ha Hl]%not_elem_of_cons.
  rewrite filter_cons_True by done. by rewrite IH.
Qed.

Lemma elem_of_overwrite k v xs x :
  x ∈ xs → key x = k → Entry k v ∈ overwrite k v xs.
Proof.
  intros Hx Hk. unfold overwrite. apply list_elem_of_fmap. exists x.
  by rewrite decide_True.
Qed.

(** C3, as the code has it.  In any reachable state, [Set] of a key
    the map holds returns; probation
    loses no element but the key's own (when it is promoted); the key
    stays in the map.  When the key was in probation and protected was
    full, the promotion evicts the key at the back of protected: that one
    key leaves the map, whose size drops by one.  In every other case the
    map holds the same keys as before. *)
Theorem Set_present_keys (n : Z) σ k v :
  reachable zeroV n σ →
  is_Some (items (cache σ) !! k) →
  ∃ σ', Set' k v σ = Ok tt σ' ∧
        probation_keys σ' = filter (λ k', k' ≠ k) (probation_keys σ) ∧
        k ∈ dom (items (cache σ')) ∧
        if decide (k ∈ probation_keys σ ∧
                   Z.of_nat (length (protected_keys σ)) = protectedSize (cache σ))
        then ∃ victim,
               last (protected_keys σ) = Some victim ∧ victim ≠ k ∧
               dom (items (cache σ')) = dom (items (cache σ)) ∖ {[victim]} ∧
               S (base.size (items (cache σ'))) = base.size (items (cache σ))
        else dom (items (cache σ')) = dom (items (cache σ)).
Proof.
  intros Hr [e He].
  assert (5 ≤ n)%Z as Hn.
  { apply (reachable_nonempty n σ Hr). intros Hnil.
    destruct (reachable_inv n σ Hr) as (Hm & _).
    apply (md_items _ _ _ _ _ Hm) in He. rewrite Hnil in He. by inversion He. }
  destruct (reachable_config n σ Hn Hr) as ((Hm & _ & _ & B1 & B2) & C1 & C2).
  set (pb := probation_entries σ) in *. set (pt := protected_entries σ) in *.
  pose proof (md_keys _ _ _ _ _ Hm) as Hnd.
  destruct (represents_keys _ _ _ Hm) as [K1 K2]. rewrite K1, K2, length_fmap.
  pose proof Hnd as Hnd'. rewrite fmap_app in Hnd'.
  apply NoDup_app in Hnd' as (N1 & Hd & N2).
  destruct (Set_hit σ pb pt k v e Hm He) as (σ' & Hrun & Hm' & _).
  exists σ'. split; [done|].
  destruct (models_lookup _ _ _ _ _ _ _ Hm He) as (x & <- & [[Hx _]|[Hx _]]).
  - (* the key is in probation *)
    assert (key x ∈ key <$> pb) as Hkx by (by apply list_elem_of_fmap_2).
    rewrite (touch_probation _ _ _ _ Hnd Hx C2) in Hm'. cbn [fst snd] in Hm'.
    destruct (represents_keys _ _ _ Hm') as [-> _].
    rewrite keys_overwrite, keys_without. split; [done|].
    rewrite (represents_dom _ _ _ Hm), (represents_dom _ _ _ Hm').
    rewrite (represents_size _ _ _ Hm), (represents_size _ _ _ Hm').
    rewrite !length_overwrite, !fmap_app, !keys_overwrite, fmap_cons.
    split. { rewrite elem_of_list_to_set, elem_of_app, elem_of_cons. auto. }
    pose proof (without_length x pb N1 Hx) as Hlen1.
    destruct (decide (_ ∧ _)) as [[_ Hfull]|Hnot].
    + replace (protectedSize (cache σ) <? Z.of_nat (S (length pt)))%Z with true
        by (symmetry; apply Z.ltb_lt; lia).
      destruct (last pt) as [y|] eqn:Hlast;
        [|apply last_None in Hlast; rewrite Hlast in Hfull; cbn in Hfull; lia].
      assert (key y ∈ key <$> pt) as Hy
        by (apply list_elem_of_fmap_2; by apply last_Some_elem_of).
      assert (key y ≠ key x) as Hne by (intros Heq; apply (Hd (key x)); congruence).
      exists (key y). split; [by rewrite fmap_last, Hlast|]. split; [done|]. split.
      * apply set_eq. intros k'.
        rewrite elem_of_difference, !elem_of_list_to_set, !elem_of_app, elem_of_cons.
        rewrite elem_of_keys_without, (elem_of_keys_drop_back pt y k' N2 Hlast).
        rewrite elem_of_singleton.
        destruct (decide (k' = key x)) as [->|].
        { split; [intros _; split; [by left|congruence]|intros _; right; by left]. }
        split; [|tauto]. intros [[_ Hin]|[?|[? ?]]]; try tauto.
        split; [tauto|]. intros ->. by apply (Hd (key y)).
      * cbn [length].
        assert (pt ≠ []) as Hpt by (by intros ->).
        pose proof (length_drop_back pt N2 Hpt). lia.
    + assert (Z.of_nat (length pt) ≠ protectedSize (cache σ)) as Hroom by tauto.
      replace (protectedSize (cache σ) <? Z.of_nat (S (length pt)))%Z with false
        by (symmetry; apply Z.ltb_ge; lia).
      apply set_eq. intros k'.
      rewrite !elem_of_list_to_set, !elem_of_app, elem_of_cons, elem_of_keys_without.
      destruct (decide (k' = key x)) as [->|]; tauto.
  - (* the key is in protected *)
    assert (key x ∈ key <$> pt) as Hkx by (by apply list_elem_of_fmap_2).
    assert (key x ∉ key <$> pb) as Hkx' by (intros Hin; by apply (Hd (key x))).
    rewrite (touch_protected _ _ _ _ Hnd Hx) in Hm'. cbn [fst snd] in Hm'.
    destruct (represents_keys _ _ _ Hm') as [-> _].
    rewrite keys_overwrite, (filter_ne_absent _ _ Hkx'). split; [done|].
    rewrite (represents_dom _ _ _ Hm), (represents_dom _ _ _ Hm').
    rewrite !fmap_app, !keys_overwrite, fmap_cons.
    split. { rewrite elem_of_list_to_set, elem_of_app, elem_of_cons. auto. }
    rewrite decide_False by tauto.
    apply set_eq. intros k'.
    rewrite !elem_of_list_to_set, !elem_of_app, elem_of_cons, elem_of_keys_without.
    destruct (decide (k' = key x)) as [->|]; tauto.
Qed.

(** What [Set] followed by [Get] returns once probation has room for an
    entry: the value just set. *)
Lemma Set_Get_roundtrip (n : Z) σ k v :
  (5 ≤ n)%Z → reachable zeroV n σ →
  ∃ σ1 σ2, Set' k v σ = Ok tt σ1 ∧ Get zeroV k σ1 = Ok (v, true) σ2.
Proof.
  intros Hn Hr.
  destruct (reachable_config n σ Hn Hr) as ((Hm & _ & _ & B1 & B2) & C1 & C2).
  set (pb := probation_entries σ) in *. set (pt := protected_entries σ) in *.
  pose proof (md_keys _ _ _ _ _ Hm) as Hnd.
  assert (∃ σ1 pb1 pt1, Set' k v σ = Ok tt σ1 ∧ represents σ1 pb1 pt1 ∧
                        Entry k v ∈ pb1 ++ pt1) as (σ1 & pb1 & pt1 & Hrun & Hm1 & Hin).
  { destruct (items (cache σ) !! k) as [e|] eqn:He.
    - destruct (Set_hit σ pb pt k v e Hm He) as (σ1 & Hrun & Hm1 & _).
      exists σ1. eexists _, _. split; [done|]. split; [exact Hm1|].
      apply elem_of_app. right.
      destruct (models_lookup _ _ _ _ _ _ _ Hm He) as (x & <- & [[Hx _]|[Hx _]]).
      + rewrite (touch_probation _ _ _ _ Hnd Hx C2). cbn [fst snd].
        apply (elem_of_overwrite _ _ _ x); [left|done].
      + rewrite (touch_protected _ _ _ _ Hnd Hx). cbn [fst snd].
        apply (elem_of_overwrite _ _ _ x); [left|done].
    - pose proof (Set_miss σ pb pt k v Hm He) as Hs. unfold admission in Hs.
      destruct (probationSize (cache σ) <=? Z.of_nat (length pb))%Z eqn:Hle.
      + destruct (last pb) as [y|] eqn:Hlast.
        * destruct Hs as (σ1 & Hrun & Hm1 & _). exists σ1. eexists _, _.
          split; [done|]. split; [exact Hm1|]. left.
        * apply last_None in Hlast. rewrite Hlast in Hle. apply Z.leb_le in Hle.
          cbn in Hle. lia.
      + destruct Hs as (σ1 & Hrun & Hm1 & _). exists σ1. eexists _, _.
        split; [done|]. split; [exact Hm1|]. left. }
  assert (is_Some (items (cache σ1) !! k)) as [e1 He1].
  { apply (represents_lookup _ _ _ _ Hm1). by apply (list_elem_of_fmap_2 key) in Hin. }
  destruct (Get_hit σ1 pb1 pt1 k e1 Hm1 He1) as (σ2 & x & Hget & Hx & Hk & _).
  exists σ1, σ2. split; [done|]. rewrite Hget.
  assert (x = Entry k v) as -> by (apply (key_unique (pb1 ++ pt1)); [apply Hm1|done..]).
  done.
Qed.

(** From size 5 on neither [Set] nor [Get] faults in a reachable state:
    [evict] is only ever called on a list that holds an element. *)
Lemma no_fault_from_size_5 (n : Z) σ k v :
  (5 ≤ n)%Z → reachable zeroV n σ →
  (∃ σ', Set' k v σ = Ok tt σ') ∧ (∃ r σ', Get zeroV k σ = Ok r σ').
Proof.
  intros Hn Hr. destruct (reachable_config n σ Hn Hr) as (Hi & C1 & _).
  split; [by eapply Set_total|by eapply Get_total].
Qed.

(** The defect behind C1 and C2: a cache of size 1 to 4 has probation
    capacity 0, so the first [Set] finds probation "full" while it is
    empty and evicts from it. *)
Lemma small_cache_first_Set (n : Z) k v :
  (1 ≤ n ≤ 4)%Z →
  ∃ σ, New n empty_store = Ok tt σ ∧
       probationSize (cache σ) = 0%Z ∧
       list_Len (probation (cache σ)) σ = Ok 0%Z σ ∧
       evict (probation (cache σ)) σ = Fault NilDeref ∧
       Set' k v σ = Fault NilDeref.
Proof.
  intros Hn. eexists. split; [apply New_run|].
  assert (Num.probation_share n = 0%Z) as Hshare.
  { rewrite probation_share_exact by lia.
    apply Z.div_small. lia. }
  cbn [cache probationSize probation]. split; [done|]. split; [done|].
  split; [done|]. apply Set_empty_fault.
  - by destruct (New_represents n _ (New_run n)).
  - cbn [cache probationSize]. lia.
Qed.

(** C2 on its failing input.  On [New n] with n from 1 to 4 the
    probation list is empty, and the first [Set] calls [evict] on it:
    [Back] returns nil and reading its [Value] faults. *)
Theorem evict_on_empty_probation (n : Z) k v :
  (1 ≤ n ≤ 4)%Z →
  ∃ σ, New n empty_store = Ok tt σ ∧
       list_Back (probation (cache σ)) σ = Ok None σ ∧
       evict (probation (cache σ)) σ = Fault NilDeref ∧
       Set' k v σ = Fault NilDeref.
Proof.
  intros Hn. destruct (small_cache_first_Set n k v Hn) as (σ & Hnew & _ & _ & He & Hs).
  exists σ. split; [done|]. split; [|done].
  rewrite New_run in Hnew. by simplify_eq.
Qed.

(** C1 on its failing input.  With size 1, [Set(k, v)] followed by
    [Get(k)] returns nothing: the [Set] faults. *)
Theorem roundtrip_size_1 k v :
  (New 1 ;;; (Set' k v ;;; Get zeroV k)) empty_store = Fault NilDeref.
Proof.
  destruct (small_cache_first_Set 1 k v) as (σ & Hnew & _ & _ & _ & Hs); [lia|].
  unfold bind at 1. rewrite Hnew. unfold bind. by rewrite Hs.
Qed.

Lemma calls_reachable (n : Z) σ cs σ' :
  reachable zeroV n σ → calls zeroV cs σ = Ok tt σ' → reachable zeroV n σ'.
Proof.
  revert σ. induction cs as [|[k v|k|] cs IH]; intros σ Hr Hrun.
  - cbv in Hrun. by simplify_eq.
  - cbn [calls] in Hrun. unfold bind in Hrun.
    destruct (Set' k v σ) as [[] σ1|] eqn:Hs; [|done].
    eapply IH; [|exact Hrun]. by eapply reach_Set.
  - cbn [calls] in Hrun. unfold bind in Hrun.
    destruct (Get zeroV k σ) as [r σ1|] eqn:Hs; [|done].
    eapply IH; [|exact Hrun]. by eapply reach_Get.
  - cbn [calls] in Hrun. unfold bind in Hrun.
    destruct (Purge σ) as [[] σ1|] eqn:Hs; [|done].
    eapply IH; [|exact Hrun]. by eapply reach_Purge.
Qed.

Lemma run_reachable (n : Z) cs σ :
  (Num.min_int ≤ n ≤ Num.max_int)%Z →
  (New n ;;; calls zeroV cs) empty_store = Ok tt σ → reachable zeroV n σ.
Proof.
  intros Hn. unfold bind at 1. rewrite New_run. apply calls_reachable.
  apply reach_New; [done|apply New_run].
Qed.

(** C7, as the code has it.  For every positive size an [int] holds,
    [New] sets the protected capacity to the size minus the probation
    capacity, so the two sum to the size; below 2^52 the probation
    capacity, which [New] computes in float64, is [floor(0.2 × size)];
    size 10 gives 2 and 8. *)
Theorem New_capacities (n : Z) :
  (1 ≤ n ≤ Num.max_int)%Z →
  ∃ σ, New n empty_store = Ok tt σ ∧
       protectedSize (cache σ) = (n - probationSize (cache σ))%Z ∧
       (probationSize (cache σ) + protectedSize (cache σ))%Z = n ∧
       ((n < 2 ^ 52)%Z → probationSize (cache σ) = Num.spec_probationCapacity n) ∧
       (n = 10%Z → probationSize (cache σ) = 2%Z ∧ protectedSize (cache σ) = 8%Z).
Proof.
  intros Hn. eexists. split; [apply New_run|].
  cbn [cache probationSize protectedSize].
  assert (0 ≤ Num.probation_share n < n)%Z as Hs.
  { destruct (Z_lt_le_dec n 5).
    - rewrite probation_share_exact by lia. rewrite Z.div_small; lia.
    - pose proof (probation_share_bounds n). lia. }
  rewrite wrap_small by (unfold Num.min_int, Num.max_int in *; lia).
  split; [done|]. split; [lia|]. split.
  - intros Hlt. rewrite probation_share_exact by lia.
    unfold Num.spec_probationCapacity.
    rewrite <- (Z.div_mul_cancel_l n 5 2) by lia. done.
  - intros ->. by vm_compute.
Qed.

(** ** Further properties of the methods

    What the three lookups return in a state that represents [pb] and
    [pt]: on a hit all three find the one entry with the key, on a miss
    all three report absence and none changes the store. *)
Lemma lookup_results σ pb pt k :
  represents σ pb pt →
  (∃ x σ', x ∈ pb ++ pt ∧ key x = k ∧
           Peek zeroV k σ = Ok (value x, true) σ ∧
           Contains k σ = Ok true σ ∧
           Get zeroV k σ = Ok (value x, true) σ' ∧
           represents σ' (touch (protectedSize (cache σ)) k pb pt).1
                         (touch (protectedSize (cache σ)) k pb pt).2 ∧
           same_config σ σ') ∨
  ((k ∉ key <$> (pb ++ pt)) ∧
   Peek zeroV k σ = Ok (zeroV, false) σ ∧
   Contains k σ = Ok false σ ∧
   Get zeroV k σ = Ok (zeroV, false) σ).
Proof.
  intros Hm. destruct (items (cache σ) !! k) as [e|] eqn:He.
  - left. destruct (Peek_hit σ pb pt k e Hm He) as (x & Hp & Hx & Hk).
    destruct (Get_hit σ pb pt k e Hm He) as (σ' & x' & Hg & Hx' & Hk' & Hm' & Hc).
    assert (x' = x) as ->
      by (apply (key_unique (pb ++ pt)); [apply Hm|done|done|congruence]).
    exists x, σ'. rewrite Contains_run, He.
    split; [done|]. split; [done|]. split; [done|]. split; [|done].
    reflexivity.
  - right. split; [by apply (models_absent _ _ _ _ _ _ Hm)|].
    split; [by apply Peek_miss|]. split; [|by apply Get_miss].
    rewrite Contains_run, He. reflexivity.
Qed.

(** A hit of [Peek] names an entry of one of the segments. *)
Lemma Peek_true σ pb pt k w :
  represents σ pb pt →
  Peek zeroV k σ = Ok (w, true) σ ↔ ∃ x, x ∈ pb ++ pt ∧ key x = k ∧ value x = w.
Proof.
  intros Hm. destruct (lookup_results σ pb pt k Hm)
    as [(x & σ' & Hx & Hk & Hp & _)|(Hk & Hp & _)]; rewrite Hp; split.
  - intros Heq. exists x. split; [done|]. split; [done|]. congruence.
  - intros (y & Hy & Hky & <-).
    assert (y = x) as ->
      by (apply (key_unique (pb ++ pt)); [apply Hm|done|done|congruence]).
    done.
  - intros Heq. congruence.
  - intros (y & Hy & <- & _). exfalso. apply Hk. by apply list_elem_of_fmap_2.
Qed.

Lemma elem_of_overwrite_ne k v xs x :
  x ∈ overwrite k v xs → key x ≠ k → x ∈ xs.
Proof.
  unfold overwrite. intros (y & -> & Hy)%list_elem_of_fmap Hne.
  destruct (decide (key y = k)); [done|done].
Qed.

Lemma elem_of_drop_back xs x : x ∈ drop_back xs → x ∈ xs.
Proof.
  unfold drop_back, without. destruct (last xs); [|done].
  by intros [? ?]%list_elem_of_filter.
Qed.

Lemma elem_of_touch cap k pb pt x :
  x ∈ (touch cap k pb pt).1 ++ (touch cap k pb pt).2 → x ∈ pb ++ pt.
Proof.
  unfold touch. destruct (find_key k pt) as [y|] eqn:Hpt; cbn [fst snd].
  - apply find_key_elem in Hpt as [Hy _].
    rewrite !elem_of_app, elem_of_cons. unfold without.
    rewrite list_elem_of_filter. intros [?|[->|[_ ?]]]; auto.
  - destruct (find_key k pb) as [y|] eqn:Hpb; cbn [fst snd]; [|done].
    apply find_key_elem in Hpb as [Hy _].
    rewrite !elem_of_app. unfold without at 1. rewrite list_elem_of_filter.
    intros [[_ ?]|Hx]; [auto|].
    assert (x ∈ y :: pt) as Hin
      by (destruct (_ <? _)%Z; [by apply elem_of_drop_back|done]).
    apply elem_of_cons in Hin as [->|?]; auto.
Qed.

(** The [size] field is the argument of [New], whatever is called later. *)
Lemma reachable_size (n : Z) σ : reachable zeroV n σ → size (cache σ) = n.
Proof.
  induction 1 as [σ _ Hnew|σ k v σ' Hr IH Hrun|σ k r σ' Hr IH Hrun|σ k r σ' Hr IH Hrun
                 |σ k r σ' Hr IH Hrun|σ r σ' Hr IH Hrun|σ σ' Hr IH Hrun].
  - by destruct (New_represents n σ Hnew) as (_ & ? & _).
  - destruct (reachable_inv n σ Hr) as (Hm & _).
    destruct (items (cache σ) !! k) as [e|] eqn:He.
    + destruct (Set_hit σ _ _ k v e Hm He) as (σ1 & Hrun1 & _ & Hc & _).
      assert (σ1 = σ') as -> by congruence. congruence.
    + pose proof (Set_miss σ _ _ k v Hm He) as Hs.
      destruct (admission _ _ _ _); [|congruence].
      destruct Hs as (σ1 & Hrun1 & _ & Hc & _).
      assert (σ1 = σ') as -> by congruence. congruence.
  - destruct (reachable_inv n σ Hr) as (Hm & _).
    destruct (lookup_results σ _ _ k Hm)
      as [(x & σ1 & _ & _ & _ & _ & Hg & _ & Hc & _)|(_ & _ & _ & Hg)].
    + assert (σ1 = σ') as -> by congruence. congruence.
    + assert (σ = σ') as <- by congruence. done.
  - destruct (reachable_inv n σ Hr) as (Hm & _).
    by rewrite (Peek_same _ _ _ _ _ _ Hm Hrun).
  - rewrite Contains_run in Hrun. by simplify_eq.
  - destruct (reachable_inv n σ Hr) as (Hm & _).
    rewrite (Len_run _ _ _ Hm) in Hrun. by simplify_eq.
  - destruct (reachable_inv n σ Hr) as (Hm & _).
    destruct (Purge_represents _ _ _ Hm) as (σ1 & Hrun1 & _ & Hc & _).
    assert (σ1 = σ') as -> by congruence. congruence.
Qed.

(** X1.  From size 5 on, in every state a cache can reach, [Set(k, v)]
    returns and afterwards all three lookups find [k]: [Contains] is
    true, [Peek] returns [(v, true)] and leaves the store alone, and
    [Get] returns [(v, true)]. *)
Theorem Set_then_lookups (n : Z) σ k v :
  (5 ≤ n)%Z → reachable zeroV n σ →
  ∃ σ1 σ2, Set' k v σ = Ok tt σ1 ∧
           Contains k σ1 = Ok true σ1 ∧
           Peek zeroV k σ1 = Ok (v, true) σ1 ∧
           Get zeroV k σ1 = Ok (v, true) σ2.
Proof.
  intros Hn Hr. destruct (Set_Get_roundtrip n σ k v Hn Hr) as (σ1 & σ2 & Hs & Hg).
  exists σ1, σ2. split; [done|].
  assert (reachable zeroV n σ1) as Hr1 by (by eapply reach_Set).
  destruct (reachable_inv n σ1 Hr1) as (Hm1 & _).
  destruct (lookup_results σ1 _ _ k Hm1)
    as [(x & σ' & _ & _ & Hp & Hc & Hg' & _)|(_ & _ & _ & Hg')];
    [|congruence].
  rewrite Hg in Hg'. split; [done|]. split; [|done]. rewrite Hp. congruence.
Qed.

(** X2.  From size 5 on no run of [Set], [Get] and [Purge] calls, of any
    length and with any keys, faults: each call returns and leaves a state
    from which the next one returns too. *)
Theorem calls_never_fault (n : Z) σ cs :
  (5 ≤ n)%Z → reachable zeroV n σ →
  ∃ σ', calls zeroV cs σ = Ok tt σ' ∧ reachable zeroV n σ'.
Proof.
  intros Hn. revert σ. induction cs as [|[k v|k|] cs IH]; intros σ Hr.
  - exists σ. by split.
  - destruct (reachable_config n σ Hn Hr) as (Hi & C1 & _).
    destruct (Set_total n σ k v Hi C1) as (σ1 & Hs).
    destruct (IH σ1) as (σ' & Hrun & Hr'); [by eapply reach_Set|].
    exists σ'. split; [|done]. cbn [calls]. unfold bind. by rewrite Hs.
  - destruct (Get_total n σ k (reachable_inv n σ Hr)) as (r & σ1 & Hs).
    destruct (IH σ1) as (σ' & Hrun & Hr'); [by eapply reach_Get|].
    exists σ'. split; [|done]. cbn [calls]. unfold bind. by rewrite Hs.
  - destruct (IH _ (reach_Purge _ _ _ _ Hr (Purge_run σ))) as (σ' & Hrun & Hr').
    exists σ'. split; [|done]. cbn [calls]. unfold bind. by rewrite Purge_run.
Qed.

(** X3.  A cache built with a size below 5 (zero and negative sizes
    included) never holds a key: in every state it can reach, [Set]
    faults with a nil dereference for every key and value, [Get], [Peek]
    and [Contains] report a miss and [Len] is 0. *)
Theorem small_cache_stays_empty (n : Z) σ k v :
  (n < 5)%Z → reachable zeroV n σ →
  Set' k v σ = Fault NilDeref ∧
  Get zeroV k σ = Ok (zeroV, false) σ ∧
  Peek zeroV k σ = Ok (zeroV, false) σ ∧
  Contains k σ = Ok false σ ∧
  Len σ = Ok 0%Z σ.
Proof.
  intros Hn Hr. pose proof (probation_share_nonpos n) as Hshare.
  destruct (reachable_used n σ Hr) as [[E1 E2]|?]; [|lia].
  destruct (reachable_inv n σ Hr) as (Hm & Hcap & _).
  rewrite E1, E2 in Hm.
  split; [apply Set_empty_fault; [done|lia]|].
  destruct (lookup_results σ [] [] k Hm)
    as [(x & σ' & Hx & _)|(_ & Hp & Hc & Hg)]; [by apply elem_of_nil in Hx|].
  split; [done|]. split; [done|]. split; [done|].
  by rewrite (Len_run _ _ _ Hm).
Qed.

(** X4.  In every state a cache can reach, whatever its size and
    whatever mix of methods was called, the lookup map and the two lists
    agree: no key occurs twice in the two lists taken together, the keys
    of the map are exactly the keys of the lists, [Contains(k)] is true
    exactly when [k] is in one of the lists, and [Len] is the number of
    keys in the map. *)
Theorem reachable_keys (n : Z) σ :
  reachable zeroV n σ →
  NoDup (probation_keys σ ++ protected_keys σ) ∧
  dom (items (cache σ)) = list_to_set (probation_keys σ ++ protected_keys σ) ∧
  (∀ k, Contains k σ =
        Ok (bool_decide (k ∈ probation_keys σ ++ protected_keys σ)) σ) ∧
  Len σ = Ok (Z.of_nat (base.size (items (cache σ)))) σ.
Proof.
  intros Hr. destruct (reachable_inv n σ Hr) as (Hm & _).
  unfold probation_keys, protected_keys. rewrite <- fmap_app.
  split; [apply Hm|]. split; [by apply represents_dom|].
  split; [intros k; by apply Contains_keys|].
  rewrite (Len_run _ _ _ Hm), (represents_size _ _ _ Hm). f_equal. lia.
Qed.

(** X5.  In every state a cache built by [New(size)] can reach, after
    any mix of [Set], [Get], [Peek], [Contains], [Len] and [Purge], the
    [size] field and the two capacities are the ones [New] stored, each
    list is within its capacity (within 0 where the capacity is not
    positive), and [Len] is the sum of the two lengths and at most
    [size] (0 where [size] is not positive). *)
Theorem reachable_capacity (n : Z) σ :
  reachable zeroV n σ →
  size (cache σ) = n ∧
  probationSize (cache σ) = Num.probation_share n ∧
  protectedSize (cache σ) = Num.wrap (n - Num.probation_share n) ∧
  ∃ n1 n2 : Z,
    list_Len (probation (cache σ)) σ = Ok n1 σ ∧
    list_Len (protected (cache σ)) σ = Ok n2 σ ∧
    (n1 ≤ Z.max 0 (probationSize (cache σ)))%Z ∧
    (n2 ≤ Z.max 0 (protectedSize (cache σ)))%Z ∧
    Len σ = Ok (n1 + n2)%Z σ ∧
    (n1 + n2 ≤ Z.max 0 (size (cache σ)))%Z.
Proof.
  intros Hr. destruct (reachable_inv n σ Hr) as (Hm & E1 & E2 & B1 & B2).
  pose proof (reachable_size n σ Hr) as Hsize.
  pose proof (reachable_range n σ Hr) as Hrange.
  split; [done|]. split; [done|]. split; [done|].
  destruct (list_Len_run _ _ _ Hm) as [L1 L2].
  eexists _, _. split; [exact L1|]. split; [exact L2|].
  split; [done|]. split; [done|]. split; [by apply Len_run|].
  rewrite Hsize. destruct (Z_lt_le_dec n 5) as [Hlt|Hge].
  - destruct (reachable_used n σ Hr) as [[-> ->]|Hcap]; [cbn; lia|].
    pose proof (probation_share_nonpos n). lia.
  - destruct (capacities_of_size n) as (C1 & C2 & C3); [lia|].
    rewrite E1 in B1. rewrite E2 in B2. lia.
Qed.

(** X6.  In every state a cache can reach, the three lookups agree on
    every key: [Peek(k)] returns some [(w, b)] and leaves the store
    alone, [Contains(k)] returns the same [b], and [Get(k)] returns the
    same [(w, b)]; on a miss [w] is the zero value. *)
Theorem lookups_agree (n : Z) σ k :
  reachable zeroV n σ →
  ∃ w b σ', Peek zeroV k σ = Ok (w, b) σ ∧
            Contains k σ = Ok b σ ∧
            Get zeroV k σ = Ok (w, b) σ' ∧
            (b = false → w = zeroV ∧ σ' = σ).
Proof.
  intros Hr. destruct (reachable_inv n σ Hr) as (Hm & _).
  destruct (lookup_results σ _ _ k Hm)
    as [(x & σ' & _ & _ & Hp & Hc & Hg & _)|(_ & Hp & Hc & Hg)].
  - exists (value x), true, σ'. by repeat split.
  - exists zeroV, false, σ. by repeat split.
Qed.

(** X7.  [Set(k, v)] does not touch the value of any other key: if after
    the call [Peek(k')] finds a value for some [k' ≠ k], then [Peek(k')]
    found that same value before the call. *)
Theorem Set_keeps_other_values (n : Z) σ k v σ' k' w :
  reachable zeroV n σ →
  Set' k v σ = Ok tt σ' →
  k' ≠ k →
  Peek zeroV k' σ' = Ok (w, true) σ' →
  Peek zeroV k' σ = Ok (w, true) σ.
Proof.
  intros Hr Hrun Hne Hpeek. destruct (reachable_inv n σ Hr) as (Hm & _).
  set (pb := probation_entries σ) in *. set (pt := protected_entries σ) in *.
  apply (Peek_true σ pb pt k' w Hm).
  destruct (items (cache σ) !! k) as [e|] eqn:He.
  - destruct (Set_hit σ pb pt k v e Hm He) as (σ1 & Hrun1 & Hm1 & _).
    assert (σ1 = σ') as -> by congruence.
    destruct (proj1 (Peek_true σ' _ _ k' w Hm1) Hpeek) as (x & Hx & Hk & Hv).
    exists x. split; [|done]. apply (elem_of_touch (protectedSize (cache σ)) k).
    apply elem_of_app in Hx. apply elem_of_app.
    destruct Hx as [Hx|Hx]; [left|right];
      (eapply elem_of_overwrite_ne; [exact Hx|congruence]).
  - pose proof (Set_miss σ pb pt k v Hm He) as Hs. unfold admission in Hs.
    assert (∃ pb', represents σ' (Entry k v :: pb') pt ∧ ∀ x, x ∈ pb' → x ∈ pb)
      as (pb' & Hm1 & Hsub).
    { destruct (_ <=? _)%Z.
      - destruct (last pb); [|congruence]. destruct Hs as (σ1 & Hrun1 & Hm1 & _).
        assert (σ1 = σ') as -> by congruence.
        exists (drop_back pb). split; [done|]. intros x. apply elem_of_drop_back.
      - destruct Hs as (σ1 & Hrun1 & Hm1 & _).
        assert (σ1 = σ') as -> by congruence. exists pb. by split. }
    destruct (proj1 (Peek_true σ' _ _ k' w Hm1) Hpeek) as (x & Hx & Hk & Hv).
    exists x. split; [|done]. rewrite <- app_comm_cons in Hx.
    apply elem_of_cons in Hx as [->|Hx]; [cbn in Hk; congruence|].
    apply elem_of_app in Hx. apply elem_of_app. destruct Hx; auto.
Qed.

(** X8.  [Get] changes no value: if after [Get(k)] a [Peek(k')] finds a
    value, for [k'] equal to [k] or not, then [Peek(k')] found that same
    value before the call. *)
Theorem Get_keeps_values (n : Z) σ k r σ' k' w :
  reachable zeroV n σ →
  Get zeroV k σ = Ok r σ' →
  Peek zeroV k' σ' = Ok (w, true) σ' →
  Peek zeroV k' σ = Ok (w, true) σ.
Proof.
  intros Hr Hrun Hpeek. destruct (reachable_inv n σ Hr) as (Hm & _).
  set (pb := probation_entries σ) in *. set (pt := protected_entries σ) in *.
  destruct (lookup_results σ pb pt k Hm)
    as [(x & σ1 & _ & _ & _ & _ & Hg & Hm1 & _)|(_ & _ & _ & Hg)].
  - assert (σ1 = σ') as -> by congruence.
    apply (Peek_true σ pb pt k' w Hm).
    destruct (proj1 (Peek_true σ' _ _ k' w Hm1) Hpeek) as (y & Hy & Hk & Hv).
    exists y. split; [|done]. by eapply elem_of_touch.
  - assert (σ = σ') as <- by congruence. done.
Qed.

Lemma keys_segments_disjoint pb pt x y :
  NoDup (key <$> (pb ++ pt)) → x ∈ pb → y ∈ pt → key x ≠ key y.
Proof.
  rewrite fmap_app. intros (_ & Hd & _)%NoDup_app Hx Hy Heq.
  apply (Hd (key x)); [by apply list_elem_of_fmap_2|].
  rewrite Heq. by apply list_elem_of_fmap_2.
Qed.

(** X9.  [Get] is not read-only.  A hit on a key of probation moves the
    key to the front of protected; if protected was already at its
    capacity, the key at the back of protected is evicted, [Contains] is
    false for it afterwards and [Len] drops by one; otherwise protected
    only gains the key and [Len] is unchanged. *)
Theorem Get_promotion_eviction (n : Z) σ k :
  reachable zeroV n σ →
  k ∈ probation_keys σ →
  ∃ r σ' len,
    Get zeroV k σ = Ok (r, true) σ' ∧
    probation_keys σ' = filter (λ k', k' ≠ k) (probation_keys σ) ∧
    Len σ = Ok len σ ∧
    if decide (Z.of_nat (length (protected_keys σ)) = protectedSize (cache σ))
    then ∃ victim,
           last (protected_keys σ) = Some victim ∧
           protected_keys σ' = k :: removelast (protected_keys σ) ∧
           Contains victim σ' = Ok false σ' ∧
           Len σ' = Ok (len - 1)%Z σ'
    else protected_keys σ' = k :: protected_keys σ ∧ Len σ' = Ok len σ'.
Proof.
  intros Hr Hin. unfold probation_keys, protected_keys in *.
  apply list_elem_of_fmap in Hin as (x & -> & Hx).
  assert (5 ≤ n)%Z as Hn.
  { apply (reachable_nonempty n σ Hr). intros Hnil.
    apply app_eq_nil in Hnil as [Hnil _]. rewrite Hnil in Hx.
    by apply elem_of_nil in Hx. }
  destruct (reachable_config n σ Hn Hr) as ((Hm & _ & _ & B1 & B2) & C1 & C2).
  set (pb := probation_entries σ) in *. set (pt := protected_entries σ) in *.
  pose proof (md_keys _ _ _ _ _ Hm) as Hnd.
  assert (NoDup (key <$> pb) ∧ NoDup (key <$> pt)) as [Hnd1 Hnd2].
  { rewrite fmap_app in Hnd. apply NoDup_app in Hnd as (? & _ & ?). by split. }
  assert (is_Some (items (cache σ) !! key x)) as [e He].
  { apply (represents_lookup _ _ _ _ Hm), list_elem_of_fmap_2, elem_of_app. by left. }
  destruct (Get_hit σ pb pt (key x) e Hm He) as (σ' & x' & Hg & Hx' & Hk' & Hm' & _).
  assert (x' = x) as ->.
  { apply (key_unique (pb ++ pt)); [done|done| |done]. apply elem_of_app. by left. }
  rewrite (touch_probation _ _ _ _ Hnd Hx C2) in Hm'. cbn [fst snd] in Hm'.
  exists (value x), σ', (Z.of_nat (length pb) + Z.of_nat (length pt))%Z.
  split; [done|]. rewrite length_fmap.
  pose proof (without_length x pb Hnd1 Hx) as Hlen.
  destruct (decide (Z.of_nat (length pt) = protectedSize (cache σ))) as [Hfull|Hroom].
  - assert ((protectedSize (cache σ) <? Z.of_nat (S (length pt)))%Z = true) as Hlt
      by (apply Z.ltb_lt; lia).
    rewrite Hlt in Hm'. destruct (represents_keys σ' _ _ Hm') as [K1 K2].
    unfold probation_keys, protected_keys in K1, K2.
    split; [by rewrite K1, keys_without|]. split; [by apply Len_run|].
    destruct (last pt) as [y|] eqn:Hlast;
      [|apply last_None in Hlast; rewrite Hlast in Hfull; cbn in Hfull; lia].
    assert (y ∈ pt) as Hy.
    { apply last_Some in Hlast as [l' ->]. apply elem_of_app. right. left. }
    exists (key y). split; [by rewrite fmap_last, Hlast|].
    split; [by rewrite K2, fmap_cons, keys_drop_back|]. split.
    + rewrite (Contains_keys σ' _ _ (key y) Hm'). f_equal.
      apply bool_decide_eq_false.
      rewrite fmap_app, elem_of_app, fmap_cons, elem_of_cons,
        elem_of_keys_without, (elem_of_keys_drop_back pt y (key y) Hnd2 Hlast).
      pose proof (keys_segments_disjoint pb pt x y Hnd Hx Hy).
      intros [[_ (z & Hkz & Hz)%list_elem_of_fmap]|[?|[? ?]]].
      * by apply (keys_segments_disjoint pb pt z y Hnd Hz Hy).
      * congruence.
      * congruence.
    + rewrite (Len_run _ _ _ Hm'). f_equal. cbn [length].
      assert (pt ≠ []) as Hne by (intros ->; discriminate).
      pose proof (length_drop_back pt Hnd2 Hne). lia.
  - assert ((protectedSize (cache σ) <? Z.of_nat (S (length pt)))%Z = false) as Hlt
      by (apply Z.ltb_ge; lia).
    rewrite Hlt in Hm'. destruct (represents_keys σ' _ _ Hm') as [K1 K2].
    unfold probation_keys, protected_keys in K1, K2.
    split; [by rewrite K1, keys_without|]. split; [by apply Len_run|].
    split; [by rewrite K2|].
    rewrite (Len_run _ _ _ Hm'). f_equal. cbn [length]. lia.
Qed.

(** X10.  On a key the cache holds, [Set(k, v)] is an access like
    [Get(k)]: both return, and they leave the same keys in the same order
    in probation and in protected, hence the same keys in the map. *)
Theorem Set_reorders_as_Get (n : Z) σ k v :
  reachable zeroV n σ →
  is_Some (items (cache σ) !! k) →
  ∃ σ1 σ2 r,
    Set' k v σ = Ok tt σ1 ∧
    Get zeroV k σ = Ok (r, true) σ2 ∧
    probation_keys σ1 = probation_keys σ2 ∧
    protected_keys σ1 = protected_keys σ2 ∧
    dom (items (cache σ1)) = dom (items (cache σ2)).
Proof.
  intros Hr [e He]. destruct (reachable_inv n σ Hr) as (Hm & _).
  destruct (Set_hit σ _ _ k v e Hm He) as (σ1 & Hs & Hm1 & _).
  destruct (Get_hit σ _ _ k e Hm He) as (σ2 & x & Hg & _ & _ & Hm2 & _).
  exists σ1, σ2, (value x). split; [done|]. split; [done|].
  destruct (represents_keys _ _ _ Hm1) as [K1 K2].
  destruct (represents_keys _ _ _ Hm2) as [K3 K4].
  rewrite K1, K2, K3, K4, !keys_overwrite. split; [done|]. split; [done|].
  rewrite (represents_dom _ _ _ Hm1), (represents_dom _ _ _ Hm2).
  by rewrite !fmap_app, !keys_overwrite.
Qed.

(** X11.  While probation is below its capacity, [Set] of a key the
    cache does not hold evicts nothing: the new entry goes to the front
    of probation, the entries already there and the protected segment
    stay as they are, the map gains exactly the new key and [Len] grows
    by one. *)
Theorem Set_new_key_with_room (n : Z) σ k v :
  reachable zeroV n σ →
  items (cache σ) !! k = None →
  (Z.of_nat (length (probation_keys σ)) < probationSize (cache σ))%Z →
  ∃ σ' len,
    Set' k v σ = Ok tt σ' ∧
    probation_entries σ' = Entry k v :: probation_entries σ ∧
    protected_entries σ' = protected_entries σ ∧
    dom (items (cache σ')) = {[k]} ∪ dom (items (cache σ)) ∧
    Len σ = Ok len σ ∧ Len σ' = Ok (len + 1)%Z σ'.
Proof.
  intros Hr He Hroom. destruct (reachable_inv n σ Hr) as (Hm & _).
  unfold probation_keys in Hroom. rewrite length_fmap in Hroom.
  pose proof (Set_miss σ _ _ k v Hm He) as Hs. unfold admission in Hs.
  assert ((probationSize (cache σ) <=? Z.of_nat (length (probation_entries σ)))%Z
          = false) as Hle by (apply Z.leb_gt; lia).
  rewrite Hle in Hs. destruct Hs as (σ' & Hs & Hm' & _).
  exists σ', (Z.of_nat (length (probation_entries σ)) +
              Z.of_nat (length (protected_entries σ)))%Z.
  split; [done|]. destruct (represents_segments _ _ _ Hm') as [S1 S2].
  split; [done|]. split; [done|]. split.
  - rewrite (represents_dom _ _ _ Hm'), (represents_dom _ _ _ Hm).
    by rewrite <- app_comm_cons, fmap_cons, list_to_set_cons.
  - split; [by apply Len_run|]. rewrite (Len_run _ _ _ Hm'). f_equal.
    cbn [length]. lia.
Qed.

(** X12.  What [New] makes of every size an [int] holds: the call
    returns an empty cache that records the size; from size 5 on both
    capacities are at least 1 and the probation capacity is below the
    size; for a size below 5, zero and negative sizes included, the
    probation capacity is not positive. *)
Theorem New_capacity_threshold (n : Z) :
  (Num.min_int ≤ n ≤ Num.max_int)%Z →
  ∃ σ, New n empty_store = Ok tt σ ∧
       size (cache σ) = n ∧
       Len σ = Ok 0%Z σ ∧
       (∀ k, Contains k σ = Ok false σ) ∧
       ((5 ≤ n)%Z → (1 ≤ probationSize (cache σ) < n)%Z ∧
                    (1 ≤ protectedSize (cache σ))%Z) ∧
       ((n < 5)%Z → (probationSize (cache σ) ≤ 0)%Z).
Proof.
  intros Hn. eexists. split; [apply New_run|].
  destruct (New_represents n _ (New_run n)) as (Hm & _).
  split; [done|]. split; [by rewrite (Len_run _ _ _ Hm)|]. split.
  { intros k. by rewrite (Contains_keys _ _ _ k Hm). }
  cbn [cache probationSize protectedSize]. split.
  - intros H5. destruct (capacities_of_size n) as (C1 & C2 & C3); [lia|].
    pose proof (probation_share_bounds n). lia.
  - intros H5. apply probation_share_nonpos. lia.
Qed.

(** [evict] on a list that holds an entry: the back entry goes, from the
    list and from the map, and nothing else changes. *)
Lemma evict_segment σ l1 l2 xs1 xs2 :
  models σ l1 l2 xs1 xs2 → xs1 ≠ [] →
  ∃ σ' y, last xs1 = Some y ∧
          evict l1 σ = Ok tt σ' ∧
          models σ' l1 l2 (removelast xs1) xs2 ∧
          same_config σ σ' ∧
          items (cache σ') = delete (key y) (items (cache σ)).
Proof.
  intros Hm Hne. destruct (last xs1) as [y|] eqn:Hlast;
    [|by apply last_None in Hlast].
  destruct (evict_models σ l1 l2 xs1 xs2 y Hm Hlast)
    as (σ' & Hrun & Hm' & Hc & _ & Hi & _).
  exists σ', y. split; [done|]. split; [done|]. split; [|done].
  pose proof (md_keys _ _ _ _ _ Hm) as Hnd.
  rewrite fmap_app in Hnd. apply NoDup_app in Hnd as (Hnd & _ & _).
  apply last_Some in Hlast as [l' ->]. rewrite removelast_last.
  pose proof (drop_back_snoc l' y Hnd) as Hd. unfold drop_back in Hd.
  rewrite last_snoc in Hd. by rewrite Hd in Hm'.
Qed.

(** X13.  [evict] on a segment that holds an entry, in any state a cache
    can reach: it returns, the entry at the back of that segment is
    removed, its key is deleted from the map, and the other segment and
    the remaining entries stay as they are.  For probation and for
    protected alike. *)
Theorem evict_back (n : Z) σ :
  reachable zeroV n σ →
  (probation_entries σ ≠ [] →
   ∃ σ' y, last (probation_entries σ) = Some y ∧
           evict (probation (cache σ)) σ = Ok tt σ' ∧
           probation_entries σ' = removelast (probation_entries σ) ∧
           protected_entries σ' = protected_entries σ ∧
           items (cache σ') = delete (key y) (items (cache σ))) ∧
  (protected_entries σ ≠ [] →
   ∃ σ' y, last (protected_entries σ) = Some y ∧
           evict (protected (cache σ)) σ = Ok tt σ' ∧
           probation_entries σ' = probation_entries σ ∧
           protected_entries σ' = removelast (protected_entries σ) ∧
           items (cache σ') = delete (key y) (items (cache σ))).
Proof.
  intros Hr. destruct (reachable_inv n σ Hr) as (Hm & _). split; intros Hne.
  - destruct (evict_segment σ _ _ _ _ Hm Hne) as (σ' & y & Hl & Hrun & Hm' & Hc & Hi).
    exists σ', y. split; [done|]. split; [done|].
    assert (represents σ' (removelast (probation_entries σ)) (protected_entries σ))
      as Hrep.
    { unfold represents. destruct Hc as (_ & -> & -> & _). exact Hm'. }
    destruct (represents_segments _ _ _ Hrep) as [S1 S2]. by repeat split.
  - apply models_sym in Hm.
    destruct (evict_segment σ _ _ _ _ Hm Hne) as (σ' & y & Hl & Hrun & Hm' & Hc & Hi).
    exists σ', y. split; [done|]. split; [done|].
    assert (represents σ' (probation_entries σ) (removelast (protected_entries σ)))
      as Hrep.
    { unfold represents. destruct Hc as (_ & -> & -> & _). by apply models_sym. }
    destruct (represents_segments _ _ _ Hrep) as [S1 S2]. by repeat split.
Qed.

(** X14.  [Purge] resets the contents, not the cache: from size 5 on,
    after [Purge] the size and both capacities are unchanged, a [Set]
    admits its key as the only entry of probation, and a [Get] of that
    key returns the value and promotes it to protected. *)
Theorem Purge_then_reuse (n : Z) σ k v :
  (5 ≤ n)%Z → reachable zeroV n σ →
  ∃ σ1 σ2 σ3,
    Purge σ = Ok tt σ1 ∧
    size (cache σ1) = size (cache σ) ∧
    probationSize (cache σ1) = probationSize (cache σ) ∧
    protectedSize (cache σ1) = protectedSize (cache σ) ∧
    Set' k v σ1 = Ok tt σ2 ∧
    probation_entries σ2 = [Entry k v] ∧ protected_entries σ2 = [] ∧
    Get zeroV k σ2 = Ok (v, true) σ3 ∧
    probation_entries σ3 = [] ∧ protected_entries σ3 = [Entry k v].
Proof.
  intros Hn Hr. destruct (reachable_config n σ Hn Hr) as ((Hm & _) & C1 & C2).
  destruct (Purge_represents _ _ _ Hm) as (σ1 & Hp & Hm1 & E0 & E1 & E2).
  assert (items (cache σ1) !! k = None) as Hk
    by (apply (represents_absent _ _ _ _ Hm1); by intros ?%elem_of_nil).
  pose proof (Set_miss σ1 [] [] k v Hm1 Hk) as Hs. unfold admission in Hs.
  assert ((probationSize (cache σ1) <=? Z.of_nat (length (@nil (entry (K:=K) (V:=V)))))%Z
          = false) as Hle by (apply Z.leb_gt; cbn [length]; lia).
  rewrite Hle in Hs. destruct Hs as (σ2 & Hs & Hm2 & Hc2).
  assert (NoDup (key <$> ([Entry k v] ++ []))) as Hnd by apply Hm2.
  assert (Entry k v ∈ [Entry k v]) as Hin by left.
  destruct (lookup_results σ2 _ _ k Hm2)
    as [(x & σ3 & Hx & _ & _ & _ & Hg & Hm3 & _)|(Hx & _)].
  - assert (x = Entry k v) as ->.
    { apply elem_of_app in Hx as [Hx|Hx]; [|by apply elem_of_nil in Hx].
      by apply list_elem_of_singleton in Hx. }
    assert (1 ≤ protectedSize (cache σ2))%Z as C3
      by (destruct Hc2 as (_ & _ & _ & _ & ->); lia).
    pose proof (touch_probation (protectedSize (cache σ2)) _ _ _ Hnd Hin C3) as Ht.
    cbn [key] in Ht. rewrite Ht in Hm3. cbn [fst snd length] in Hm3.
    assert ((protectedSize (cache σ2) <? Z.of_nat 1)%Z = false) as Hlt
      by (apply Z.ltb_ge; lia).
    rewrite Hlt in Hm3.
    pose proof (without_cons_eq (Entry k v) []) as Hw. cbn [key] in Hw.
    rewrite Hw in Hm3 by (by intros ?%elem_of_nil).
    destruct (represents_segments _ _ _ Hm2) as [S1 S2].
    destruct (represents_segments _ _ _ Hm3) as [S3 S4].
    exists σ1, σ2, σ3. by repeat split.
  - exfalso. apply Hx. rewrite app_nil_r. cbn. left.
Qed.

Lemma admission_elements cap k v pb pb' x :
  admission cap k v pb = Some pb' → x ∈ pb' → x = Entry k v ∨ x ∈ pb.
Proof.
  unfold admission. intros Had Hx. destruct (_ <=? _)%Z.
  - destruct (last pb); [|done]. simplify_eq.
    apply elem_of_cons in Hx as [?|Hx]; [by left|right].
    by apply elem_of_drop_back.
  - simplify_eq. apply elem_of_cons in Hx as [?|Hx]; [by left|by right].
Qed.

(** X15.  Scan resistance.  From size 5 on, a run of [Set] calls with
    pairwise distinct keys that the cache does not hold, however long,
    returns and leaves the protected segment exactly as it was: every
    key of protected is still held afterwards. *)
Theorem Sets_new_keys_keep_protected (n : Z) σ (kvs : list (K * V)) :
  (5 ≤ n)%Z → reachable zeroV n σ →
  NoDup kvs.*1 →
  (∀ k, k ∈ kvs.*1 → items (cache σ) !! k = None) →
  ∃ σ', Sets kvs σ = Ok tt σ' ∧
        reachable zeroV n σ' ∧
        protected_entries σ' = protected_entries σ ∧
        (∀ k, k ∈ protected_keys σ → Contains k σ' = Ok true σ').
Proof.
  intros Hn Hr Hnd Habs.
  assert (∃ σ', Sets kvs σ = Ok tt σ' ∧ reachable zeroV n σ' ∧
                protected_entries σ' = protected_entries σ)
    as (σ' & Hrun & Hr' & Heq).
  { revert σ Hr Hnd Habs. induction kvs as [|[k v] kvs IH]; intros σ Hr Hnd Habs.
    - exists σ. by repeat split.
    - rewrite fmap_cons in Hnd, Habs. cbn [fst] in Hnd, Habs.
      apply NoDup_cons in Hnd as [Hk Hnd].
      destruct (reachable_config n σ Hn Hr) as (Hi & C1 & _).
      pose proof Hi as (Hm & _).
      destruct (Set_total n σ k v Hi C1) as (σ1 & Hs).
      assert (items (cache σ) !! k = None) as He by (apply Habs; left).
      pose proof (Set_miss σ _ _ k v Hm He) as Hmiss.
      destruct (admission _ _ _ _) as [pb'|] eqn:Had; [|congruence].
      destruct Hmiss as (σ1' & Hs' & Hm1 & _).
      assert (σ1' = σ1) as -> by congruence.
      destruct (IH σ1) as (σ' & Hrun & Hr' & Heq); [by eapply reach_Set|done| |].
      + intros k2 Hk2. apply (represents_absent _ _ _ _ Hm1).
        intros (x & -> & Hx)%list_elem_of_fmap.
        assert (items (cache σ) !! key x = None) as Hnone by (apply Habs; by right).
        apply (models_absent _ _ _ _ _ _ Hm Hnone).
        apply list_elem_of_fmap_2. apply elem_of_app in Hx as [Hx|Hx].
        * apply (admission_elements _ _ _ _ _ _ Had) in Hx as [->|Hx];
            [done|apply elem_of_app; by left].
        * apply elem_of_app; by right.
      + exists σ'. split; [cbn [Sets]; unfold bind; by rewrite Hs|].
        split; [done|]. rewrite Heq.
        by destruct (represents_segments _ _ _ Hm1) as [_ ->]. }
  exists σ'. split; [done|]. split; [done|]. split; [done|].
  intros k Hk. destruct (reachable_inv n σ' Hr') as (Hm' & _).
  rewrite (Contains_keys _ _ _ k Hm'). f_equal. apply bool_decide_eq_true.
  rewrite fmap_app, elem_of_app. right. by rewrite Heq.
Qed.

(** X16.  How far the float64 product in [New] can be from a fifth of
    the size: for every size from 5 up to 2^53 the probation capacity is
    [floor(size / 5)] or one more, never less, and the protected
    capacity is the rest of the size. *)
Theorem New_probation_near_fifth (n : Z) :
  (5 ≤ n < 2 ^ 53)%Z →
  ∃ σ, New n empty_store = Ok tt σ ∧
       (n / 5 ≤ probationSize (cache σ) ≤ n / 5 + 1)%Z ∧
       protectedSize (cache σ) = (n - probationSize (cache σ))%Z.
Proof.
  intros Hn. eexists. split; [apply New_run|].
  cbn [cache probationSize protectedSize].
  pose proof (probation_share_near n Hn) as Hs. split; [done|].
  assert (n / 5 < n)%Z by (apply Z.div_lt; lia).
  assert (0 ≤ n / 5)%Z by (apply Z.div_pos; lia).
  assert (2 ^ 53 < 2 ^ 63)%Z by reflexivity.
  apply wrap_small. unfold Num.min_int, Num.max_int. lia.
Qed.

End proofs.

(** ** Concrete runs

    Caches with [nat] keys and values; the zero value of the value type
    is 0. *)

Section runs.

(** C3 fails as stated.  After [New 5], four keys are set and promoted,
    which fills protected, and key 5 is set, which puts it in probation.
    [Set(5, 55)] then promotes key 5 and thereby evicts key 1 from
    protected: the map goes from 5 keys to 4. *)
Lemma Set_present_shrinks_map :
  ∃ σ σ' : Store (K:=nat) (V:=nat),
    (New 5 ;;; calls 0 [CSet 1 10; CGet 1; CSet 2 20; CGet 2; CSet 3 30; CGet 3;
                        CSet 4 40; CGet 4; CSet 5 50]) empty_store = Ok tt σ ∧
    is_Some (items (cache σ) !! 5) ∧
    Set' 5 55 σ = Ok tt σ' ∧
    base.size (items (cache σ)) = 5 ∧
    base.size (items (cache σ')) = 4 ∧
    Contains 1 σ = Ok true σ ∧
    Contains 1 σ' = Ok false σ'.
Proof.
  eexists _, _. split; [vm_compute; reflexivity|].
  split; [vm_compute; eauto|].
  split; [vm_compute; reflexivity|].
  repeat split; vm_compute; reflexivity.
Qed.

(** C7 fails as stated.  For size 3·2^51 the float64 product
    [0.2 * float64(size)] is rounded up to the next integer, one more
    than [floor(0.2 × size)]. *)
Lemma New_capacity_rounds_up :
  ∃ σ : Store (K:=nat) (V:=nat),
    New 6755399441055744 empty_store = Ok tt σ ∧
    probationSize (cache σ) = 1351079888211149%Z ∧
    Num.spec_probationCapacity 6755399441055744 = 1351079888211148%Z.
Proof. eexists. split; [apply New_run|]. split; by vm_compute. Qed.

(** A miss on a cache that holds another key. *)
Lemma miss_returns_zero_witness :
  ∃ σ : Store (K:=nat) (V:=nat),
    (New 10 ;;; Sets [(1, 10)]) empty_store = Ok tt σ ∧
    Get 0 7 σ = Ok (0, false) σ ∧ Peek 0 7 σ = Ok (0, false) σ.
Proof.
  eexists. split; [vm_compute; reflexivity|].
  apply miss_returns_zero. vm_compute. reflexivity.
Defined.

(** Three read-only calls on a cache with one key in each segment. *)
Lemma Peek_Contains_pure_witness :
  ∃ σ : Store (K:=nat) (V:=nat),
    (New 10 ;;; calls 0 [CSet 1 10; CGet 1; CSet 2 20]) empty_store = Ok tt σ ∧
    queries 0 [QPeek 2; QContains 1; QPeek 3] σ = Ok tt σ ∧
    (∀ k v, (queries 0 [QPeek 2; QContains 1; QPeek 3] ;;; Set' k v) σ = Set' k v σ) ∧
    (∀ k, (queries 0 [QPeek 2; QContains 1; QPeek 3] ;;; Get 0 k) σ = Get 0 k σ).
Proof.
  eexists. split; [vm_compute; reflexivity|].
  apply (Peek_Contains_pure 0 10).
  apply (run_reachable 0 10 [CSet 1 10; CGet 1; CSet 2 20]).
  - unfold Num.min_int, Num.max_int. lia.
  - vm_compute. reflexivity.
Defined.

(** Size 10. *)
Lemma New_capacities_witness :
  ∃ σ : Store (K:=nat) (V:=nat),
    New 10 empty_store = Ok tt σ ∧
    protectedSize (cache σ) = (10 - probationSize (cache σ))%Z ∧
    (probationSize (cache σ) + protectedSize (cache σ))%Z = 10%Z ∧
    ((10 < 2 ^ 52)%Z → probationSize (cache σ) = Num.spec_probationCapacity 10) ∧
    (10%Z = 10%Z → probationSize (cache σ) = 2%Z ∧ protectedSize (cache σ) = 8%Z).
Proof. apply (New_capacities 10). unfold Num.max_int. lia. Defined.

(** Size 10 with key 1 in protected and key 2 in probation: key 3 is
    admitted, key 2 promoted, key 1 refreshed. *)
Lemma admission_and_promotion_witness :
  ∃ σ : Store (K:=nat) (V:=nat),
    (New 10 ;;; calls 0 [CSet 1 10; CGet 1; CSet 2 20]) empty_store = Ok tt σ ∧
    (∃ σ', Set' 3 30 σ = Ok tt σ' ∧
           head (probation_keys σ') = Some 3 ∧ 3 ∉ protected_keys σ') ∧
    (∃ r σ', Get 0 2 σ = Ok (r, true) σ' ∧
             (2 ∉ probation_keys σ') ∧ head (protected_keys σ') = Some 2) ∧
    (∃ r σ' len, Get 0 1 σ = Ok (r, true) σ' ∧
                 probation_keys σ' = probation_keys σ ∧
                 protected_keys σ' = 1 :: filter (λ k', k' ≠ 1) (protected_keys σ) ∧
                 Len σ = Ok len σ ∧ Len σ' = Ok len σ' ∧
                 dom (items (cache σ')) = dom (items (cache σ)) ∧
                 NoDup (probation_keys σ' ++ protected_keys σ')).
Proof.
  eexists. split; [vm_compute; reflexivity|].
  match goal with |- context [Set' 3 30 ?s] => set (σ := s) end.
  assert (reachable 0 10 σ) as Hr.
  { apply (run_reachable 0 10 [CSet 1 10; CGet 1; CSet 2 20]).
    - unfold Num.min_int, Num.max_int. lia.
    - vm_compute. reflexivity. }
  assert (5 ≤ 10)%Z as Hn by lia.
  split; [|split].
  - destruct (admission_and_promotion 0 10 σ 3 Hn Hr) as (H1 & _ & _).
    apply H1. vm_compute. reflexivity.
  - destruct (admission_and_promotion 0 10 σ 2 Hn Hr) as (_ & H2 & _).
    apply H2. vm_compute. left.
  - destruct (admission_and_promotion 0 10 σ 1 Hn Hr) as (_ & _ & H3).
    apply H3. vm_compute. left.
Defined.

(** Size 10 with keys 1 and 2 filling probation: setting key 3 evicts
    key 1. *)
Lemma eviction_of_oldest_witness :
  (∃ σ : Store (K:=nat) (V:=nat),
     (New 10 ;;; Sets [(1, 10); (2, 20)]) empty_store = Ok tt σ ∧
     ∃ σ' victim,
       last (probation_keys σ) = Some victim ∧
       Set' 3 30 σ = Ok tt σ' ∧
       probation_keys σ' = 3 :: removelast (probation_keys σ) ∧
       protected_keys σ' = protected_keys σ ∧
       Contains victim σ' = Ok false σ' ∧
       (∀ k', k' ≠ victim → Contains k' σ = Ok true σ →
              Contains k' σ' = Ok true σ')) ∧
  (∃ σ : Store (K:=nat) (V:=nat),
     (New 10 ;;; Sets [(1, 10); (2, 20); (3, 30)]) empty_store = Ok tt σ ∧
     probationSize (cache σ) = 2%Z ∧
     probation_keys σ = [3; 2] ∧
     Contains 1 σ = Ok false σ ∧
     Contains 2 σ = Ok true σ ∧
     Contains 3 σ = Ok true σ).
Proof.
  destruct (eviction_of_oldest (K:=nat) (V:=nat) 0) as [Hgen Hscen]. split.
  - eexists. split; [vm_compute; reflexivity|].
    apply (Hgen 10%Z _ 3 30).
    + apply (run_reachable 0 10 [CSet 1 10; CSet 2 20]).
      * unfold Num.min_int, Num.max_int. lia.
      * vm_compute. reflexivity.
    + vm_compute. discriminate.
    + vm_compute. reflexivity.
    + vm_compute. reflexivity.
  - apply Hscen; lia.
Defined.

(** Three [Set] calls on a cache of size 10. *)
Lemma Sets_capacity_witness :
  match (New 10 ;;; Sets [(1, 10); (2, 20); (3, 30)]) (empty_store (K:=nat) (V:=nat)) with
  | Ok _ σ =>
      ∃ n1 n2 : Z,
        list_Len (probation (cache σ)) σ = Ok n1 σ ∧
        list_Len (protected (cache σ)) σ = Ok n2 σ ∧
        (n1 ≤ probationSize (cache σ))%Z ∧
        (n2 ≤ protectedSize (cache σ))%Z ∧
        Len σ = Ok (n1 + n2)%Z σ ∧
        Z.of_nat (base.size (items (cache σ))) = (n1 + n2)%Z
  | Fault f => f = NilDeref ∧ (10 < 5)%Z
  end.
Proof.
  apply (Sets_capacity 0 10 [(1, 10); (2, 20); (3, 30)]).
  - unfold Num.min_int, Num.max_int. lia.
  - discriminate.
Defined.

(** Size 5 with protected full and key 5 in probation. *)
Lemma Set_present_keys_witness :
  ∃ σ : Store (K:=nat) (V:=nat),
    (New 5 ;;; calls 0 [CSet 1 10; CGet 1; CSet 2 20; CGet 2; CSet 3 30; CGet 3;
                        CSet 4 40; CGet 4; CSet 5 50]) empty_store = Ok tt σ ∧
    ∃ σ', Set' 5 55 σ = Ok tt σ' ∧
          probation_keys σ' = filter (λ k', k' ≠ 5) (probation_keys σ) ∧
          5 ∈ dom (items (cache σ')) ∧
          if decide (5 ∈ probation_keys σ ∧
                     Z.of_nat (length (protected_keys σ)) = protectedSize (cache σ))
          then ∃ victim,
                 last (protected_keys σ) = Some victim ∧ victim ≠ 5 ∧
                 dom (items (cache σ')) = dom (items (cache σ)) ∖ {[victim]} ∧
                 S (base.size (items (cache σ'))) = base.size (items (cache σ))
          else dom (items (cache σ')) = dom (items (cache σ)).
Proof.
  eexists. split; [vm_compute; reflexivity|].
  apply (Set_present_keys 0 5).
  - apply (run_reachable 0 5 [CSet 1 10; CGet 1; CSet 2 20; CGet 2; CSet 3 30; CGet 3;
                              CSet 4 40; CGet 4; CSet 5 50]).
    + unfold Num.min_int, Num.max_int. lia.
    + vm_compute. reflexivity.
  - vm_compute. eauto.
Defined.

(** Size 1. *)
Lemma evict_on_empty_probation_witness :
  ∃ σ : Store (K:=nat) (V:=nat),
    New 1 empty_store = Ok tt σ ∧
    list_Back (probation (cache σ)) σ = Ok None σ ∧
    evict (probation (cache σ)) σ = Fault NilDeref ∧
    Set' 7 70 σ = Fault NilDeref.
Proof. apply (evict_on_empty_probation 1 7 70). lia. Defined.

(** Size 10 with key 1 in protected and key 2 in probation; key 2 is
    set again. *)
Lemma Set_then_lookups_witness :
  ∃ σ : Store (K:=nat) (V:=nat),
    (New 10 ;;; calls 0 [CSet 1 10; CGet 1; CSet 2 20]) empty_store = Ok tt σ ∧
    ∃ σ1 σ2, Set' 2 99 σ = Ok tt σ1 ∧
             Contains 2 σ1 = Ok true σ1 ∧
             Peek 0 2 σ1 = Ok (99, true) σ1 ∧
             Get 0 2 σ1 = Ok (99, true) σ2.
Proof.
  eexists. split; [vm_compute; reflexivity|].
  apply (Set_then_lookups 0 10); [lia|].
  apply (run_reachable 0 10 [CSet 1 10; CGet 1; CSet 2 20]).
  - unfold Num.min_int, Num.max_int. lia.
  - vm_compute. reflexivity.
Defined.

(** Size 5, the smallest that works. *)
Lemma calls_never_fault_witness :
  ∃ σ : Store (K:=nat) (V:=nat),
    New 5 empty_store = Ok tt σ ∧
    ∃ σ', calls 0 [CSet 1 10; CGet 1; CPurge; CSet 2 20; CGet 3] σ = Ok tt σ' ∧
          reachable 0 5 σ'.
Proof.
  eexists. split; [vm_compute; reflexivity|].
  apply (calls_never_fault 0 5); [lia|].
  apply reach_New; [unfold Num.min_int, Num.max_int; lia|vm_compute; reflexivity].
Defined.

(** Size 4, after a [Get] and a [Purge]. *)
Lemma small_cache_stays_empty_witness :
  ∃ σ : Store (K:=nat) (V:=nat),
    (New 4 ;;; calls 0 [CGet 1; CPurge]) empty_store = Ok tt σ ∧
    Set' 7 70 σ = Fault NilDeref ∧
    Get 0 7 σ = Ok (0, false) σ ∧
    Peek 0 7 σ = Ok (0, false) σ ∧
    Contains 7 σ = Ok false σ ∧
    Len σ = Ok 0%Z σ.
Proof.
  eexists. split; [vm_compute; reflexivity|].
  apply (small_cache_stays_empty 0 4); [lia|].
  apply (run_reachable 0 4 [CGet 1; CPurge]).
  - unfold Num.min_int, Num.max_int. lia.
  - vm_compute. reflexivity.
Defined.

(** Size 10 with key 1 in protected and keys 3 and 2 in probation. *)
Lemma reachable_keys_witness :
  ∃ σ : Store (K:=nat) (V:=nat),
    (New 10 ;;; calls 0 [CSet 1 10; CGet 1; CSet 2 20; CSet 3 30]) empty_store
      = Ok tt σ ∧
    NoDup (probation_keys σ ++ protected_keys σ) ∧
    dom (items (cache σ)) = list_to_set (probation_keys σ ++ protected_keys σ) ∧
    (∀ k, Contains k σ =
          Ok (bool_decide (k ∈ probation_keys σ ++ protected_keys σ)) σ) ∧
    Len σ = Ok (Z.of_nat (base.size (items (cache σ)))) σ.
Proof.
  eexists. split; [vm_compute; reflexivity|].
  apply (reachable_keys 0 10).
  apply (run_reachable 0 10 [CSet 1 10; CGet 1; CSet 2 20; CSet 3 30]).
  - unfold Num.min_int, Num.max_int. lia.
  - vm_compute. reflexivity.
Defined.

(** Size 10 after four admissions, a promotion and a [Purge] in between. *)
Lemma reachable_capacity_witness :
  ∃ σ : Store (K:=nat) (V:=nat),
    (New 10 ;;; calls 0 [CSet 9 90; CPurge; CSet 1 10; CGet 1; CSet 2 20;
                         CSet 3 30; CSet 4 40]) empty_store = Ok tt σ ∧
    size (cache σ) = 10%Z ∧
    probationSize (cache σ) = Num.probation_share 10 ∧
    protectedSize (cache σ) = Num.wrap (10 - Num.probation_share 10) ∧
    ∃ n1 n2 : Z,
      list_Len (probation (cache σ)) σ = Ok n1 σ ∧
      list_Len (protected (cache σ)) σ = Ok n2 σ ∧
      (n1 ≤ Z.max 0 (probationSize (cache σ)))%Z ∧
      (n2 ≤ Z.max 0 (protectedSize (cache σ)))%Z ∧
      Len σ = Ok (n1 + n2)%Z σ ∧
      (n1 + n2 ≤ Z.max 0 (size (cache σ)))%Z.
Proof.
  eexists. split; [vm_compute; reflexivity|].
  apply (reachable_capacity 0 10).
  apply (run_reachable 0 10 [CSet 9 90; CPurge; CSet 1 10; CGet 1; CSet 2 20;
                             CSet 3 30; CSet 4 40]).
  - unfold Num.min_int, Num.max_int. lia.
  - vm_compute. reflexivity.
Defined.

(** A key of probation. *)
Lemma lookups_agree_witness :
  ∃ σ : Store (K:=nat) (V:=nat),
    (New 10 ;;; calls 0 [CSet 1 10; CGet 1; CSet 2 20]) empty_store = Ok tt σ ∧
    ∃ w b σ', Peek 0 2 σ = Ok (w, b) σ ∧
              Contains 2 σ = Ok b σ ∧
              Get 0 2 σ = Ok (w, b) σ' ∧
              (b = false → w = 0 ∧ σ' = σ).
Proof.
  eexists. split; [vm_compute; reflexivity|].
  apply (lookups_agree 0 10).
  apply (run_reachable 0 10 [CSet 1 10; CGet 1; CSet 2 20]).
  - unfold Num.min_int, Num.max_int. lia.
  - vm_compute. reflexivity.
Defined.

(** Setting key 2, which promotes it, leaves the value of key 1. *)
Lemma Set_keeps_other_values_witness :
  ∃ σ σ' : Store (K:=nat) (V:=nat),
    (New 10 ;;; calls 0 [CSet 1 10; CGet 1; CSet 2 20]) empty_store = Ok tt σ ∧
    Set' 2 99 σ = Ok tt σ' ∧
    Peek 0 1 σ' = Ok (10, true) σ' ∧
    Peek 0 1 σ = Ok (10, true) σ.
Proof.
  eexists _, _. split; [vm_compute; reflexivity|].
  split; [vm_compute; reflexivity|]. split; [vm_compute; reflexivity|].
  eapply (Set_keeps_other_values 0 10 _ 2 99 _ 1 10).
  - apply (run_reachable 0 10 [CSet 1 10; CGet 1; CSet 2 20]).
    + unfold Num.min_int, Num.max_int. lia.
    + vm_compute. reflexivity.
  - vm_compute. reflexivity.
  - lia.
  - vm_compute. reflexivity.
Defined.

(** Getting key 2, which promotes it, leaves its value and that of key 1. *)
Lemma Get_keeps_values_witness :
  ∃ σ σ' : Store (K:=nat) (V:=nat),
    (New 10 ;;; calls 0 [CSet 1 10; CGet 1; CSet 2 20]) empty_store = Ok tt σ ∧
    Get 0 2 σ = Ok (20, true) σ' ∧
    Peek 0 2 σ = Ok (20, true) σ ∧
    Peek 0 1 σ = Ok (10, true) σ.
Proof.
  eexists _, _. split; [vm_compute; reflexivity|].
  split; [vm_compute; reflexivity|].
  assert (Num.min_int ≤ 10 ≤ Num.max_int)%Z as Hrange
    by (unfold Num.min_int, Num.max_int; lia).
  split.
  - eapply (Get_keeps_values 0 10 _ 2 _ _ 2 20).
    + apply (run_reachable 0 10 [CSet 1 10; CGet 1; CSet 2 20] _ Hrange).
      vm_compute. reflexivity.
    + vm_compute. reflexivity.
    + vm_compute. reflexivity.
  - eapply (Get_keeps_values 0 10 _ 2 _ _ 1 10).
    + apply (run_reachable 0 10 [CSet 1 10; CGet 1; CSet 2 20] _ Hrange).
      vm_compute. reflexivity.
    + vm_compute. reflexivity.
    + vm_compute. reflexivity.
Defined.

(** Size 5 with protected full (keys 4, 3, 2, 1) and key 5 in probation:
    [Get(5)] evicts key 1. *)
Lemma Get_promotion_eviction_witness :
  ∃ σ : Store (K:=nat) (V:=nat),
    (New 5 ;;; calls 0 [CSet 1 10; CGet 1; CSet 2 20; CGet 2; CSet 3 30; CGet 3;
                        CSet 4 40; CGet 4; CSet 5 50]) empty_store = Ok tt σ ∧
    ∃ r σ' len,
      Get 0 5 σ = Ok (r, true) σ' ∧
      probation_keys σ' = filter (λ k', k' ≠ 5) (probation_keys σ) ∧
      Len σ = Ok len σ ∧
      if decide (Z.of_nat (length (protected_keys σ)) = protectedSize (cache σ))
      then ∃ victim,
             last (protected_keys σ) = Some victim ∧
             protected_keys σ' = 5 :: removelast (protected_keys σ) ∧
             Contains victim σ' = Ok false σ' ∧
             Len σ' = Ok (len - 1)%Z σ'
      else protected_keys σ' = 5 :: protected_keys σ ∧ Len σ' = Ok len σ'.
Proof.
  eexists. split; [vm_compute; reflexivity|].
  apply (Get_promotion_eviction 0 5).
  - apply (run_reachable 0 5 [CSet 1 10; CGet 1; CSet 2 20; CGet 2; CSet 3 30; CGet 3;
                              CSet 4 40; CGet 4; CSet 5 50]).
    + unfold Num.min_int, Num.max_int. lia.
    + vm_compute. reflexivity.
  - vm_compute. left.
Defined.

(** Key 2 sits in probation. *)
Lemma Set_reorders_as_Get_witness :
  ∃ σ : Store (K:=nat) (V:=nat),
    (New 10 ;;; calls 0 [CSet 1 10; CGet 1; CSet 2 20; CSet 3 30]) empty_store
      = Ok tt σ ∧
    ∃ σ1 σ2 r,
      Set' 2 99 σ = Ok tt σ1 ∧
      Get 0 2 σ = Ok (r, true) σ2 ∧
      probation_keys σ1 = probation_keys σ2 ∧
      protected_keys σ1 = protected_keys σ2 ∧
      dom (items (cache σ1)) = dom (items (cache σ2)).
Proof.
  eexists. split; [vm_compute; reflexivity|].
  apply (Set_reorders_as_Get 0 10).
  - apply (run_reachable 0 10 [CSet 1 10; CGet 1; CSet 2 20; CSet 3 30]).
    + unfold Num.min_int, Num.max_int. lia.
    + vm_compute. reflexivity.
  - vm_compute. eauto.
Defined.

(** Size 10, probation capacity 2, one key in probation. *)
Lemma Set_new_key_with_room_witness :
  ∃ σ : Store (K:=nat) (V:=nat),
    (New 10 ;;; calls 0 [CSet 1 10]) empty_store = Ok tt σ ∧
    ∃ σ' len,
      Set' 2 20 σ = Ok tt σ' ∧
      probation_entries σ' = Entry 2 20 :: probation_entries σ ∧
      protected_entries σ' = protected_entries σ ∧
      dom (items (cache σ')) = {[2]} ∪ dom (items (cache σ)) ∧
      Len σ = Ok len σ ∧ Len σ' = Ok (len + 1)%Z σ'.
Proof.
  eexists. split; [vm_compute; reflexivity|].
  apply (Set_new_key_with_room 0 10).
  - apply (run_reachable 0 10 [CSet 1 10]).
    + unfold Num.min_int, Num.max_int. lia.
    + vm_compute. reflexivity.
  - vm_compute. reflexivity.
  - vm_compute. reflexivity.
Defined.

(** A negative size. *)
Lemma New_capacity_threshold_witness :
  ∃ σ : Store (K:=nat) (V:=nat),
    New (-3) empty_store = Ok tt σ ∧
    size (cache σ) = (-3)%Z ∧
    Len σ = Ok 0%Z σ ∧
    (∀ k, Contains k σ = Ok false σ) ∧
    ((5 ≤ -3)%Z → (1 ≤ probationSize (cache σ) < -3)%Z ∧
                  (1 ≤ protectedSize (cache σ))%Z) ∧
    ((-3 < 5)%Z → (probationSize (cache σ) ≤ 0)%Z).
Proof.
  apply (New_capacity_threshold (-3)%Z). unfold Num.min_int, Num.max_int. lia.
Defined.

(** Key 1 alone in protected, keys 3 and 2 in probation. *)
Lemma evict_back_witness :
  ∃ σ : Store (K:=nat) (V:=nat),
    (New 10 ;;; calls 0 [CSet 1 10; CGet 1; CSet 2 20; CSet 3 30]) empty_store
      = Ok tt σ ∧
    (∃ σ' y, last (probation_entries σ) = Some y ∧
             evict (probation (cache σ)) σ = Ok tt σ' ∧
             probation_entries σ' = removelast (probation_entries σ) ∧
             protected_entries σ' = protected_entries σ ∧
             items (cache σ') = delete (key y) (items (cache σ))) ∧
    (∃ σ' y, last (protected_entries σ) = Some y ∧
             evict (protected (cache σ)) σ = Ok tt σ' ∧
             probation_entries σ' = probation_entries σ ∧
             protected_entries σ' = removelast (protected_entries σ) ∧
             items (cache σ') = delete (key y) (items (cache σ))).
Proof.
  eexists. split; [vm_compute; reflexivity|].
  match goal with |- context [evict _ ?s] => set (σ := s) end.
  assert (reachable 0 10 σ) as Hr.
  { apply (run_reachable 0 10 [CSet 1 10; CGet 1; CSet 2 20; CSet 3 30]).
    - unfold Num.min_int, Num.max_int. lia.
    - vm_compute. reflexivity. }
  destruct (evict_back 0 10 σ Hr) as [H1 H2].
  split; [apply H1|apply H2]; vm_compute; discriminate.
Defined.

(** A used cache of size 10. *)
Lemma Purge_then_reuse_witness :
  ∃ σ : Store (K:=nat) (V:=nat),
    (New 10 ;;; calls 0 [CSet 1 10; CGet 1; CSet 2 20]) empty_store = Ok tt σ ∧
    ∃ σ1 σ2 σ3,
      Purge σ = Ok tt σ1 ∧
      size (cache σ1) = size (cache σ) ∧
      probationSize (cache σ1) = probationSize (cache σ) ∧
      protectedSize (cache σ1) = protectedSize (cache σ) ∧
      Set' 7 70 σ1 = Ok tt σ2 ∧
      probation_entries σ2 = [Entry 7 70] ∧ protected_entries σ2 = [] ∧
      Get 0 7 σ2 = Ok (70, true) σ3 ∧
      probation_entries σ3 = [] ∧ protected_entries σ3 = [Entry 7 70].
Proof.
  eexists. split; [vm_compute; reflexivity|].
  apply (Purge_then_reuse 0 10); [lia|].
  apply (run_reachable 0 10 [CSet 1 10; CGet 1; CSet 2 20]).
  - unfold Num.min_int, Num.max_int. lia.
  - vm_compute. reflexivity.
Defined.

(** Keys 1 and 2 in protected; keys 3, 4 and 5 pass through probation,
    whose capacity is 2. *)
Lemma Sets_new_keys_keep_protected_witness :
  ∃ σ : Store (K:=nat) (V:=nat),
    (New 10 ;;; calls 0 [CSet 1 10; CGet 1; CSet 2 20; CGet 2]) empty_store
      = Ok tt σ ∧
    ∃ σ', Sets [(3, 30); (4, 40); (5, 50)] σ = Ok tt σ' ∧
          reachable 0 10 σ' ∧
          protected_entries σ' = protected_entries σ ∧
          (∀ k, k ∈ protected_keys σ → Contains k σ' = Ok true σ').
Proof.
  eexists. split; [vm_compute; reflexivity|].
  apply (Sets_new_keys_keep_protected 0 10); [lia| | |].
  - apply (run_reachable 0 10 [CSet 1 10; CGet 1; CSet 2 20; CGet 2]).
    + unfold Num.min_int, Num.max_int. lia.
    + vm_compute. reflexivity.
  - apply (bool_decide_unpack _). vm_compute. exact I.
  - intros k Hk. cbn [fmap list_fmap fst] in Hk.
    rewrite !elem_of_cons, elem_of_nil in Hk.
    destruct Hk as [-> | [-> | [-> | []]]]; vm_compute; reflexivity.
Defined.

(** The size at which the product first rounds up. *)
Lemma New_probation_near_fifth_witness :
  ∃ σ : Store (K:=nat) (V:=nat),
    New 6755399441055744 empty_store = Ok tt σ ∧
    (6755399441055744 / 5 ≤ probationSize (cache σ) ≤ 6755399441055744 / 5 + 1)%Z ∧
    protectedSize (cache σ) = (6755399441055744 - probationSize (cache σ))%Z.
Proof.
  apply (New_probation_near_fifth 6755399441055744%Z). split; [lia|reflexivity].
Defined.

End runs.
